(** * tsbuild: declaration pipeline and declaration bundler

    A shallow embedding of the declaration store ([FileManager]), the
    incremental build cache, the type-check step of the build orchestrator,
    the declaration processor and the declaration bundler, together with the
    properties stated about them.

    Conventions of the embedding:
    - a JavaScript string is a [string]: a sequence of code units below 256;
    - a [Map] whose iteration order is not observed is a [gmap]; a [Map] or
      [Set] whose insertion order is observed is an association list or a
      duplicate-free list;
    - an exception is a value of an explicit outcome type, and a method that
      mutates [this] returns the new state next to its outcome. *)

From Stdlib Require Import ZArith Ascii String List Bool Permutation Sorted DecimalString.
From Stdlib Require DecimalNat.
From stdpp Require Import gmap strings list fin_maps.

#[local] Set Warnings "-register-all,-clear-no-such-hyp".


(** ** Shared data model (src/@types) *)

(** [CachedDeclaration]: pre-processed code with the two reference sets
    (insertion-ordered sets, kept as lists). *)
Record CachedDeclaration := mkCached {
  code : string;
  typeReferences : list string;
  fileReferences : list string
}.

(** The result of a call that may throw. *)
Inductive Outcome (A : Type) :=
| Returned (a : A)
| Threw.
Arguments Returned {A} a.
Arguments Threw {A}.

(** ** The declaration store: class [FileManager] *)

Module FileManager.

(** The [BuildCache] interface of src/@types, as the store sees it.
    [restore] and [save] return promises that may reject ([None]);
    [restore] fills the map it is given. *)
Record BuildCache := mkBuildCache {
  restore : gmap string CachedDeclaration -> option (gmap string CachedDeclaration);
  save : gmap string CachedDeclaration -> option unit;
  isBuildInfoFile : string -> bool
}.

(** What the store does to the outside world: files handed to
    [sys.writeFile], and the maps handed to [cache.save]. *)
Record World := mkWorld {
  diskWrites : list (string * string);
  cacheSaves : list (gmap string CachedDeclaration)
}.

Record t := mkFileManager {
  hasEmittedFiles : bool;
  declarationFiles : gmap string CachedDeclaration;
  cache : option BuildCache
}.

(** [constructor(buildCache?)] *)
Definition new (buildCache : option BuildCache) : t :=
  {| hasEmittedFiles := false; declarationFiles := ∅; cache := buildCache |}.

Section Store.

(** [DeclarationProcessor.preProcess(createSourceFile(filePath, text, ...))];
    [None] when it throws ([UnsupportedSyntaxError]). *)
Variable preProcess : string -> string -> option CachedDeclaration.

(** [sys.writeFile]; [false] when it throws. *)
Variable sysWriteFile : string -> string -> bool.

(** [initialize()] *)
Definition initialize (fm : t) : Outcome unit * t :=
  let fm := {| hasEmittedFiles := false;
               declarationFiles := declarationFiles fm;
               cache := cache fm |} in
  match cache fm with
  | Some c =>
      match restore c (declarationFiles fm) with
      | Some files =>
          (Returned tt, {| hasEmittedFiles := hasEmittedFiles fm;
                           declarationFiles := files;
                           cache := cache fm |})
      | None => (Threw, fm)
      end
  | None =>
      (Returned tt, {| hasEmittedFiles := hasEmittedFiles fm;
                       declarationFiles := ∅;
                       cache := cache fm |})
  end.

(** [finalize()] *)
Definition finalize (fm : t) (w : World) : Outcome bool * World :=
  let ret :=
    match cache fm with
    | None => true
    | Some _ => hasEmittedFiles fm
    end in
  match cache fm with
  | Some c =>
      if hasEmittedFiles fm then
        let w' := {| diskWrites := diskWrites w;
                     cacheSaves := cacheSaves w ++ [declarationFiles fm] |} in
        match save c (declarationFiles fm) with
        | Some _ => (Returned ret, w')
        | None => (Threw, w')
        end
      else (Returned ret, w)
  | None => (Returned ret, w)
  end.

(** [close()] *)
Definition close (fm : t) : t :=
  {| hasEmittedFiles := hasEmittedFiles fm;
     declarationFiles := ∅;
     cache := cache fm |}.

(** [this.cache?.isBuildInfoFile(filePath)]: [undefined], hence falsy, when
    there is no cache. *)
Definition cacheSaysBuildInfo (fm : t) (filePath : string) : bool :=
  match cache fm with
  | Some c => isBuildInfoFile c filePath
  | None => false
  end.

(** [fileWriter(filePath, text)] *)
Definition fileWriter (fm : t) (w : World) (filePath text : string)
  : Outcome unit * t * World :=
  let stored :=
    if cacheSaysBuildInfo fm filePath then
      if sysWriteFile filePath text then
        Some (declarationFiles fm,
              {| diskWrites := diskWrites w ++ [(filePath, text)];
                 cacheSaves := cacheSaves w |})
      else None
    else
      match preProcess filePath text with
      | Some d => Some (<[filePath := d]> (declarationFiles fm), w)
      | None => None
      end in
  match stored with
  | Some (files, w') =>
      (Returned tt,
       {| hasEmittedFiles := if negb (hasEmittedFiles fm) then true else hasEmittedFiles fm;
          declarationFiles := files;
          cache := cache fm |},
       w')
  | None => (Threw, fm, w)
  end.

(** A caller's view: the calls made on one store, and what each did. *)
Inductive Call :=
| CallInitialize
| CallFileWriter (filePath text : string)
| CallFinalize
| CallClose.

(** One observed step: the call and whether it returned. *)
Definition Event : Type := Call * bool.

Definition returned {A} (o : Outcome A) : bool :=
  match o with Returned _ => true | Threw => false end.

Definition step (st : t * World) (c : Call) : Event * (t * World) :=
  let '(fm, w) := st in
  match c with
  | CallInitialize =>
      let '(o, fm') := initialize fm in ((c, returned o), (fm', w))
  | CallFileWriter p x =>
      let '(o, fm', w') := fileWriter fm w p x in ((c, returned o), (fm', w'))
  | CallFinalize =>
      let '(o, w') := finalize fm w in ((c, returned o), (fm, w'))
  | CallClose => ((c, true), (close fm, w))
  end.

Fixpoint run (st : t * World) (calls : list Call) : list Event * (t * World) :=
  match calls with
  | [] => ([], st)
  | c :: rest =>
      let '(e, st') := step st c in
      let '(es, st'') := run st' rest in
      (e :: es, st'')
  end.

(** A file was written through [fileWriter] after the last [initialize] of
    the trace (or at all, when the trace has no [initialize]). *)
Definition isInitialize (e : Event) : bool :=
  match fst e with CallInitialize => true | _ => false end.

Definition writtenSinceInitialize (tr : list Event) : Prop :=
  exists before p x after,
    tr = before ++ (CallFileWriter p x, true) :: after
    /\ forallb (fun e => negb (isInitialize e)) after = true.

End Store.

(** The files that the successful [fileWriter] calls of a trace were given
    under a path that the cache calls the build-info file. *)
Definition buildInfoWrites (buildCache : option BuildCache) (tr : list Event)
  : list (string * string) :=
  flat_map
    (fun e : Event =>
       match e, buildCache with
       | (CallFileWriter filePath text, true), Some c =>
           if isBuildInfoFile c filePath then [(filePath, text)] else []
       | _, _ => []
       end)
    tr.

(** [WrittenFile] of src/@types. *)
Record WrittenFile := mkWrittenFile {
  writtenPath : string;
  writtenSize : nat
}.

Section Output.

(** [Paths.relative] *)
Variable relative : string -> string -> string.

(** [Files.write(filePath, content)]: [false] when its promise rejects. *)
Variable filesWrite : string -> string -> bool.

(** [writeFile(projectDirectory, filePath, content)] *)
Definition writeFile (projectDirectory filePath content : string)
  : Outcome WrittenFile :=
  if filesWrite filePath content
  then Returned {| writtenPath := relative projectDirectory filePath;
                   writtenSize := String.length content |}
  else Threw.

(** The outcomes of a list of tasks under [Promise.all]. *)
Fixpoint promiseAll {A} (tasks : list (Outcome A)) : Outcome (list A) :=
  match tasks with
  | [] => Returned []
  | Returned a :: rest =>
      match promiseAll rest with
      | Returned l => Returned (a :: l)
      | Threw => Threw
      end
  | Threw :: _ => Threw
  end.

(** [writeFiles(projectDirectory)]: the result of [Promise.all], and the
    files the write tasks put on disk. Every task is started before any is
    awaited, so a failed write does not stop the others. The store's map is
    read in the order of [map_to_list]; the insertion order of the [Map] is
    not part of the store's model. *)
Definition writeFiles (fm : t) (projectDirectory : string)
  : Outcome (list WrittenFile) * list (string * string) :=
  if Nat.eqb (size (declarationFiles fm)) 0 then (Returned [], [])
  else
    let entries := map_to_list (declarationFiles fm) in
    (promiseAll
       (map (fun e : string * CachedDeclaration =>
               writeFile projectDirectory (fst e) (code (snd e)))
          entries),
     map (fun e : string * CachedDeclaration => (fst e, code (snd e)))
       (List.filter (fun e : string * CachedDeclaration =>
                       filesWrite (fst e) (code (snd e)))
          entries)).

End Output.

(** [defaultEntryPoint] of src/constants *)
Definition defaultEntryPoint : string := "index".

(** [resolveEntryPoints(projectEntryPoints, dtsEntryPoints?)]; the entry
    points are a record from names to paths. *)
Definition resolveEntryPoints (projectEntryPoints : gmap string string)
    (dtsEntryPoints : option (list string)) : gmap string string :=
  match dtsEntryPoints with
  | None =>
      match projectEntryPoints !! defaultEntryPoint with
      | Some entryPath => {[ defaultEntryPoint := entryPath ]}
      | None => projectEntryPoints
      end
  | Some names =>
      filter (fun entry : string * string => fst entry ∈ names) projectEntryPoints
  end.

End FileManager.

(** ** JavaScript strings

    The built-in string operations the program uses. *)

Module JS.

(** The double quote, as a one-character string. *)
Definition dquote : string := String (ascii_of_nat 34) EmptyString.

(** White space of the regular-expression class [\s] and of [trim]:
    TAB, LF, VT, FF, CR, SPACE and NBSP. *)
Definition isWhiteSpace (c : ascii) : bool :=
  let n := nat_of_ascii c in
  (Nat.leb 9 n && Nat.leb n 13) || Nat.eqb n 32 || Nat.eqb n 160.

(** Word characters of the regular-expression class [\w]. *)
Definition isWordChar (c : ascii) : bool :=
  let n := nat_of_ascii c in
  (Nat.leb 97 n && Nat.leb n 122) || (Nat.leb 65 n && Nat.leb n 90)
  || (Nat.leb 48 n && Nat.leb n 57) || Nat.eqb n 95.

(** [p] is a prefix of [s]. *)
Fixpoint isPrefix (p s : string) : bool :=
  match p, s with
  | EmptyString, _ => true
  | String _ _, EmptyString => false
  | String a p', String b s' => Ascii.eqb a b && isPrefix p' s'
  end.

(** [s.startsWith(p)] *)
Definition startsWith (s p : string) : bool := isPrefix p s.

(** [s.endsWith(p)] *)
Definition endsWith (s p : string) : bool :=
  isPrefix (String.rev p) (String.rev s).

(** [s.slice(n)] for [0 <= n] *)
Fixpoint sliceFrom (n : nat) (s : string) : string :=
  match n, s with
  | O, _ => s
  | S _, EmptyString => EmptyString
  | S n', String _ s' => sliceFrom n' s'
  end.

(** [s.slice(0, n)] for [0 <= n] *)
Fixpoint sliceTo (n : nat) (s : string) : string :=
  match n, s with
  | O, _ => EmptyString
  | S _, EmptyString => EmptyString
  | S n', String c s' => String c (sliceTo n' s')
  end.

(** [s.slice(a, b)] and [s.substring(a, b)] for [0 <= a <= b] *)
Definition slice (a b : nat) (s : string) : string :=
  sliceTo (b - a) (sliceFrom a s).

(** [s.slice(0, -n)] for [0 < n] *)
Definition sliceDropLast (n : nat) (s : string) : string :=
  sliceTo (String.length s - n) s.

(** [s.includes(p)] *)
Fixpoint includes (s p : string) : bool :=
  isPrefix p s ||
  match s with
  | EmptyString => false
  | String _ s' => includes s' p
  end.

(** [s.trimStart()] *)
Fixpoint trimStart (s : string) : string :=
  match s with
  | EmptyString => EmptyString
  | String c s' => if isWhiteSpace c then trimStart s' else s
  end.

(** [s.trim()] *)
Definition trim (s : string) : string :=
  String.rev (trimStart (String.rev (trimStart s))).

(** [s.split(c)] for a one-character separator; [cur] holds the characters
    of the current piece, last first. *)
Fixpoint splitGo (sep : ascii) (cur : string) (s : string) : list string :=
  match s with
  | EmptyString => [String.rev cur]
  | String c s' =>
      if Ascii.eqb c sep then String.rev cur :: splitGo sep EmptyString s'
      else splitGo sep (String c cur) s'
  end.
Definition split (sep : ascii) (s : string) : list string :=
  splitGo sep EmptyString s.

(** [xs.join(sep)] *)
Definition join (sep : string) (xs : list string) : string :=
  String.concat sep xs.

(** [Array.prototype.sort()] without a comparator: ascending in code-unit
    order. The sort is stable; an insertion sort is. *)
Fixpoint insertSorted (x : string) (xs : list string) : list string :=
  match xs with
  | [] => [x]
  | y :: ys => if String.ltb x y then x :: y :: ys else y :: insertSorted x ys
  end.
Definition sort (xs : list string) : list string :=
  fold_right insertSorted [] (rev xs).

(** [new Set(xs)] spread back into an array: first occurrences, in order. *)
Definition setAdd (x : string) (xs : list string) : list string :=
  if existsb (String.eqb x) xs then xs else xs ++ [x].
Definition setOf (xs : list string) : list string :=
  fold_left (fun acc x => setAdd x acc) xs [].
Definition setHas (xs : list string) (x : string) : bool :=
  existsb (String.eqb x) xs.

(** Template literal [`${n}`] for a natural number. *)
Definition ofNat (n : nat) : string := NilZero.string_of_uint (Nat.to_uint n).

(** *** Regular expression objects

    A [RegExp] object: [identity] tells one object from another, [advances]
    is the [g] or the [y] flag, and [matchFrom i s] is the match of the
    pattern in [s] when the matcher starts at index [i]: the index where
    the match ends, or [None] when there is none. *)
Record RegExp := mkRegExp {
  identity : nat;
  advances : bool;
  matchFrom : nat -> string -> option nat
}.

(** The [lastIndex] property of the [RegExp] objects of the program, by
    identity; an object without an entry has [lastIndex] 0. *)
Definition LastIndexes := gmap nat nat.

Definition lastIndex (r : RegExp) (indexes : LastIndexes) : nat :=
  default 0 (indexes !! identity r).

(** [r.test(s)]. With the [g] or the [y] flag the matcher starts at
    [lastIndex], which is then set to the end of the match, or to 0 when
    there is no match or [lastIndex] is past the end of [s]; without these
    flags the matcher starts at 0 and [lastIndex] is left alone. *)
Definition test (r : RegExp) (s : string) (indexes : LastIndexes)
  : bool * LastIndexes :=
  if advances r then
    if Nat.ltb (String.length s) (lastIndex r indexes)
    then (false, <[identity r := 0]> indexes)
    else
      match matchFrom r (lastIndex r indexes) s with
      | Some matchEnd => (true, <[identity r := matchEnd]> indexes)
      | None => (false, <[identity r := 0]> indexes)
      end
  else
    (match matchFrom r 0 s with Some _ => true | None => false end, indexes).

End JS.

(** ** Constants (src/constants) *)

Module Constants.
Definition newLine : string := String (ascii_of_nat 10) EmptyString.
Definition FileExtension_JS : string := ".js".
Definition FileExtension_DTS : string := ".d.ts".
Definition dtsCacheVersion : Z := 2.
Definition nodeModules : string := "/node_modules/".
End Constants.

(** ** The compiler's syntax tree, as the program reads it

    [createSourceFile] is the compiler's; the program receives its result.
    A node carries the three positions the program asks for: [pos]
    ([node.pos], [getFullStart()]: leading trivia included), [start]
    ([getStart()]) and [end_] ([end], [getEnd()]). Only the node kinds and
    fields the program inspects are kept. *)

Module TS.

Record Loc := mkLoc { pos : nat; start : nat; end_ : nat }.

(** An identifier or module export name; [getText] is its source text. *)
Record Name := mkName {
  nameLoc : Loc;
  getText : string;
  isIdentifier : bool
}.

(** The expression in module-specifier position. *)
Inductive Expression :=
| StringLiteral (loc : Loc) (text : string)
| OtherExpression (loc : Loc).

Record ExportSpecifier := mkExportSpecifier {
  name : Name;
  propertyName : option Name
}.

Inductive ExportClause :=
| NamedExports (loc : Loc) (elements : list ExportSpecifier)
| NamespaceExport (loc : Loc).

Inductive DeclarationKind :=
| InterfaceDeclaration
| TypeAliasDeclaration
| EnumDeclaration
| FunctionDeclaration
| ClassDeclaration.

(** The body of a module declaration: a block of statements, a nested
    module declaration ([namespace A.B]), or none. *)
Inductive BodyKind := NoBody | ModuleBlock | NestedModule.

Inductive Node :=
| EmptyStatement (loc : Loc)
| ImportDeclaration (loc : Loc) (typePhase : bool) (moduleSpecifier : Expression)
| ExportDeclaration (loc : Loc) (isTypeOnly : bool)
    (exportClause : option ExportClause) (moduleSpecifier : option Expression)
| ExportAssignment (loc : Loc)
| Declaration (kind : DeclarationKind) (loc : Loc) (declName : option string)
| VariableStatement (loc : Loc) (declared : list (option string))
| ModuleDeclaration (loc : Loc) (moduleName : Name) (body : BodyKind)
    (children : list Node)
| OtherStatement (loc : Loc).

Definition locOf (n : Node) : Loc :=
  match n with
  | EmptyStatement l | ImportDeclaration l _ _ | ExportDeclaration l _ _ _
  | ExportAssignment l | Declaration _ l _ | VariableStatement l _
  | ModuleDeclaration l _ _ _ | OtherStatement l => l
  end.

(** A triple-slash directive recorded by the parser. *)
Record FileReference := mkFileReference { fileName : string; refPos : nat }.

(** [lineStartAt p] is [getLineStarts()[getLineAndCharacterOfPosition(p).line]]
    and [lineEndAt] is [getLineEndOfPosition]. *)
Record SourceFile := mkSourceFile {
  fullText : string;
  statements : list Node;
  typeReferenceDirectives : list FileReference;
  referencedFiles : list FileReference;
  lineStartAt : nat -> nat;
  lineEndAt : nat -> nat
}.

End TS.

(** ** magic-string, as far as the processor and the bundler use it on
    import and export declarations and on identifiers: [remove],
    [overwrite], [slice] and [toString].

    The library keeps the text as a chain of chunks. A chunk stands for
    the characters of the original from [chunkStart] to [chunkEnd];
    [content] is what it reads as now. An edit splits the chain at the two
    ends of its range and marks the chunks in between as edited. The
    content of a chunk that was not edited is its original text. *)

Module MagicString.

Record Chunk := mkChunk {
  chunkStart : nat;
  chunkEnd : nat;
  content : string;
  edited : bool
}.

Record t := mk { original : string; chunks : list Chunk }.

(** [new MagicString(s)] *)
Definition new (s : string) : t :=
  {| original := s; chunks := [mkChunk 0 (String.length s) s false] |}.

(** [byStart[index] || byEnd[index]]: the chain is already split there. *)
Definition isSplitPoint (index : nat) (cs : list Chunk) : bool :=
  existsb
    (fun c => Nat.eqb (chunkStart c) index || Nat.eqb (chunkEnd c) index) cs.

(** [_splitChunk] on the chunk that contains [index]. A chunk that was
    edited and still has content cannot be split: [None] is the [Error]
    the library throws. *)
Fixpoint splitChunk (index : nat) (cs : list Chunk) : option (list Chunk) :=
  match cs with
  | [] => Some []
  | c :: rest =>
      if Nat.ltb (chunkStart c) index && Nat.ltb index (chunkEnd c) then
        if edited c && Nat.ltb 0 (String.length (content c)) then None
        else
          let k := index - chunkStart c in
          Some (mkChunk (chunkStart c) index (JS.sliceTo k (content c)) (edited c)
                :: mkChunk index (chunkEnd c) (JS.sliceFrom k (content c)) (edited c)
                :: rest)
      else
        match splitChunk index rest with
        | Some rest' => Some (c :: rest')
        | None => None
        end
  end.

(** [_split(index)] *)
Definition split (index : nat) (cs : list Chunk) : option (list Chunk) :=
  if isSplitPoint index cs then Some cs else splitChunk index cs.

(** A chunk within the range from [a] to [b]. *)
Definition within (a b : nat) (c : Chunk) : bool :=
  Nat.leb a (chunkStart c) && Nat.leb (chunkEnd c) b.

(** [remove(a, b)]; [None] when it throws: a range past the end of the
    text, or one that ends before it starts. *)
Definition remove (a b : nat) (m : t) : option t :=
  if Nat.eqb a b then Some m
  else if Nat.ltb (String.length (original m)) b then None
  else if Nat.ltb b a then None
  else
    match split a (chunks m) with
    | None => None
    | Some cs =>
        match split b cs with
        | None => None
        | Some cs' =>
            Some {| original := original m;
                    chunks :=
                      map (fun c =>
                             if within a b c
                             then mkChunk (chunkStart c) (chunkEnd c) "" true
                             else c)
                        cs' |}
        end
    end.

(** [overwrite(a, b, text)]: the chunk that starts at [a] takes the text,
    the other chunks of the range are emptied. [None] when it throws: an
    end past the end of the text, an empty range, a split inside a chunk
    that was overwritten. A range that ends before it starts is not asked
    for on a tree the parser built; the model gives it no result either. *)
Definition overwrite (a b : nat) (text : string) (m : t) : option t :=
  if Nat.ltb (String.length (original m)) b then None
  else if Nat.leb b a then None
  else
    match split a (chunks m) with
    | None => None
    | Some cs =>
        match split b cs with
        | None => None
        | Some cs' =>
            Some {| original := original m;
                    chunks :=
                      map (fun c =>
                             if within a b c
                             then mkChunk (chunkStart c) (chunkEnd c)
                                    (if Nat.eqb (chunkStart c) a then text else "")
                                    true
                             else c)
                        cs' |}
        end
    end.

(** [toString()] *)
Definition toString (m : t) : string :=
  fold_right (fun c rest => content c +:+ rest) "" (chunks m).

(** The second loop of [slice(a, b)], from the chunk that holds [a];
    [first] tells that chunk from the following ones. [None] is the
    [Error] thrown when [b] lies inside an edited chunk. *)
Fixpoint sliceFromChunk (first : bool) (a b : nat) (cs : list Chunk)
  : option string :=
  match cs with
  | [] => Some ""
  | c :: rest =>
      let containsEnd := Nat.ltb (chunkStart c) b && Nat.leb b (chunkEnd c) in
      if containsEnd && edited c && negb (Nat.eqb (chunkEnd c) b) then None
      else
        let sliceStart := if first then a - chunkStart c else 0 in
        let sliceEnd :=
          if containsEnd then String.length (content c) + b - chunkEnd c
          else String.length (content c) in
        let piece := JS.slice sliceStart sliceEnd (content c) in
        if containsEnd then Some piece
        else
          match sliceFromChunk false a b rest with
          | Some more => Some (piece +:+ more)
          | None => None
          end
  end.

(** [slice(a, b)]: the first loop looks for the chunk that holds [a], and
    gives the empty string when it meets the chunk that holds [b] first.
    [None] is the [Error] thrown when [a] lies inside an edited chunk, or
    [b] does. *)
Fixpoint slice (a b : nat) (cs : list Chunk) : option string :=
  match cs with
  | [] => Some ""
  | c :: rest =>
      if Nat.ltb a (chunkStart c) || Nat.leb (chunkEnd c) a then
        if Nat.ltb (chunkStart c) b && Nat.leb b (chunkEnd c) then Some ""
        else slice a b rest
      else if edited c && negb (Nat.eqb (chunkStart c) a) then None
      else sliceFromChunk true a b cs
  end.

End MagicString.

(** ** The declaration processor (src/dts/declaration-processor.ts) *)

Module DeclarationProcessor.
Import TS.

Record PreProcessOutput := mkPreProcessOutput {
  outCode : string;
  outTypeReferences : list string;
  outFileReferences : list string
}.

Record CodeTransformation := mkTransformation {
  tStart : nat;
  tEnd : nat;
  replacement : option string
}.

(** *** [postProcess] *)


(** The module-specifier fix of [visitNode]. *)
Definition specifierReplacement (text : string) : option string :=
  if JS.startsWith text "." && JS.endsWith text Constants.FileExtension_DTS then
    Some (if JS.endsWith text ".d.tsx"
          then JS.sliceDropLast 6 text +:+ Constants.FileExtension_JS
          else JS.sliceDropLast 5 text +:+ Constants.FileExtension_JS)
  else None.

Definition specifierTransformations (spec : option Expression)
  : list CodeTransformation :=
  match spec with
  | Some (StringLiteral loc text) =>
      match specifierReplacement text with
      | Some r =>
          [ {| tStart := start loc + 1; tEnd := end_ loc - 1;
               replacement := Some r |} ]
      | None => []
      end
  | _ => []
  end.

(** The [{ Foo as Foo }] fix, for the statements of one module block. *)
Definition redundantElement (e : ExportSpecifier) : list CodeTransformation :=
  match propertyName e with
  | Some p =>
      if isIdentifier p && isIdentifier (name e)
         && String.eqb (getText p) (getText (name e))
      then [ {| tStart := start (nameLoc p); tEnd := start (nameLoc (name e));
                replacement := None |} ]
      else []
  | None => []
  end.

Definition redundantExports (bodyStatement : Node) : list CodeTransformation :=
  match bodyStatement with
  | ExportDeclaration _ _ (Some (NamedExports _ elements)) _ =>
      flat_map redundantElement elements
  | _ => []
  end.


(** [visitNode]: the transformations pushed for a statement, in push order.
    In a declaration file [forEachChild] reaches further statements only
    through module bodies. *)
Fixpoint visitNode (node : Node) : list CodeTransformation :=
  match node with
  | EmptyStatement loc =>
      [ {| tStart := start loc; tEnd := end_ loc; replacement := None |} ]
  | ImportDeclaration _ _ spec => specifierTransformations (Some spec)
  | ExportDeclaration _ _ _ spec => specifierTransformations spec
  | ModuleDeclaration _ _ body children =>
      (match body with
       | ModuleBlock => flat_map redundantExports children
       | _ => []
       end) ++ flat_map visitNode children
  | _ => []
  end.

(** [transformations.sort((a, b) => b.start - a.start)]: descending start,
    stable (of two transformations with one start, the one pushed first
    stays first). *)
Fixpoint insertByStart (x : CodeTransformation) (xs : list CodeTransformation)
  : list CodeTransformation :=
  match xs with
  | [] => [x]
  | y :: ys =>
      if Nat.leb (tStart y) (tStart x) then x :: y :: ys
      else y :: insertByStart x ys
  end.
Definition sortByStartDescending (xs : list CodeTransformation)
  : list CodeTransformation :=
  fold_right insertByStart [] xs.

Definition applyTransformation (code : string) (t : CodeTransformation) : string :=
  JS.sliceTo (tStart t) code
  +:+ match replacement t with Some r => r | None => "" end
  +:+ JS.sliceFrom (tEnd t) code.

(** The transformations of a file, in the order they are applied. *)
Definition transformations (sourceFile : SourceFile) : list CodeTransformation :=
  sortByStartDescending (flat_map visitNode (statements sourceFile)).

Definition postProcess (sourceFile : SourceFile) : string :=
  fold_left applyTransformation (transformations sourceFile)
    (fullText sourceFile).

(** The text a transformation puts in place of its range. *)
Definition replacementText (t : CodeTransformation) : string :=
  match replacement t with Some r => r | None => "" end.

(** The text from position [from] on with the ranges of [ascending]
    replaced, all at once: the reading of [postProcess] that its loop is
    meant to compute. *)
Fixpoint spliceFrom (from : nat) (ascending : list CodeTransformation)
    (text : string) : string :=
  match ascending with
  | [] => JS.sliceFrom from text
  | t :: rest =>
      JS.slice from (tStart t) text +:+ replacementText t
      +:+ spliceFrom (tEnd t) rest text
  end.

(** The ranges of [ascending] lie in the text from [from] on, in order and
    without overlap. *)
Fixpoint separated (from : nat) (ascending : list CodeTransformation)
    (text : string) : Prop :=
  match ascending with
  | [] => from <= String.length text
  | t :: rest =>
      from <= tStart t /\ tStart t <= tEnd t /\ separated (tEnd t) rest text
  end.






(** *** [preProcess], on files of import and export declarations

    The branches of pass 1 for import and export declarations, and the
    removal of triple-slash directives, are modelled. A declaration, a
    variable statement or a module declaration needs the rest of
    magic-string and of the tree; on a file holding one the model answers
    [None]. [None] is also the answer when magic-string throws, which ends
    [preProcess] with that exception. *)

(** [typeMatcher]: the index of the first [type] with a word boundary on
    both sides. *)
Fixpoint typeMatcherFrom (previousIsWord : bool) (i : nat) (s : string)
  : option nat :=
  match s with
  | EmptyString => None
  | String c s' =>
      if negb previousIsWord && JS.isPrefix "type" s
         && negb (match String.get 4 s with
                  | Some d => JS.isWordChar d
                  | None => false
                  end)
      then Some i
      else typeMatcherFrom (JS.isWordChar c) (S i) s'
  end.
Definition typeMatcher (s : string) : option nat := typeMatcherFrom false 0 s.

(** The number of leading characters of [s] that satisfy [f]. *)
Fixpoint spanLength (f : ascii -> bool) (s : string) : nat :=
  match s with
  | EmptyString => 0
  | String c s' => if f c then S (spanLength f s') else 0
  end.

(** [getTrailingWhitespaceLength(start, end)] *)
Definition isBlank (c : ascii) : bool :=
  let n := nat_of_ascii c in
  Nat.eqb n 32 || Nat.eqb n 9 || Nat.eqb n 10 || Nat.eqb n 13.
Definition getTrailingWhitespaceLength (original : string) (a b : nat) : nat :=
  spanLength isBlank (JS.slice a b original).

(** One attempt of [inlineTypePattern] at the head of [s]: the length of
    group 1 and of the whole match. *)
Definition inlineTypeAt (s : string) : option (nat * nat) :=
  match s with
  | String c s1 =>
      if Ascii.eqb c "{" || Ascii.eqb c "," then
        let k := spanLength JS.isWhiteSpace s1 in
        let s2 := JS.sliceFrom k s1 in
        let m := spanLength JS.isWhiteSpace (JS.sliceFrom 4 s2) in
        if Nat.ltb 0 k && JS.isPrefix "type" s2 && Nat.ltb 0 m
        then Some (1 + k, 1 + k + 4 + m) else None
      else None
  | EmptyString => None
  end.

(** The successive [exec] results of the global [inlineTypePattern] on [s]:
    [(match.index, match[1].length)]. [skip] characters lie inside the
    previous match. *)
Fixpoint inlineTypeMatches (skip i : nat) (s : string) : list (nat * nat) :=
  match s with
  | EmptyString => []
  | String _ s' =>
      match skip with
      | S k => inlineTypeMatches k (S i) s'
      | O =>
          match inlineTypeAt s with
          | Some (g1, len) => (i, g1) :: inlineTypeMatches (len - 1) (S i) s'
          | None => inlineTypeMatches 0 (S i) s'
          end
      end
  end.

(** [newlineAt], [getStart] and [getEnd] of [preProcess]. *)
Definition newlineAt (text : string) (p : nat) : bool :=
  match String.get p text with
  | Some c => Ascii.eqb c (ascii_of_nat 10)
  | None => false
  end.
Definition getStart (text : string) (n : Node) : nat :=
  pos (locOf n) + (if newlineAt text (pos (locOf n)) then 1 else 0).
Definition getEnd (text : string) (n : Node) : nat :=
  end_ (locOf n) + (if newlineAt text (end_ (locOf n)) then 1 else 0).

Definition importKeywordLength : nat := 6.
Definition exportKeywordLength : nat := 6.
Definition typeKeywordLength : nat := 4.

(** Pass 1 on one statement. *)
Definition preProcessStatement (text : string) (code : MagicString.t) (node : Node)
  : option MagicString.t :=
  match node with
  | ImportDeclaration loc typePhase _ =>
      if typePhase then
        let importKeywordEnd := start loc + importKeywordLength in
        match MagicString.slice importKeywordEnd (end_ loc) (MagicString.chunks code) with
        | None => None
        | Some afterImport =>
            match typeMatcher afterImport with
            | Some index =>
                let typeKeywordStart := importKeywordEnd + index in
                let typeKeywordEnd := typeKeywordStart + typeKeywordLength in
                MagicString.remove typeKeywordStart
                  (typeKeywordEnd
                   + getTrailingWhitespaceLength (MagicString.original code)
                       typeKeywordEnd (end_ loc))
                  code
            | None => Some code
            end
        end
      else
        match MagicString.slice (start loc) (end_ loc) (MagicString.chunks code) with
        | None => None
        | Some statementText =>
            let replacements :=
              map (fun m : nat * nat =>
                     let typeKeywordStart := start loc + fst m + snd m in
                     let typeKeywordEnd := typeKeywordStart + typeKeywordLength in
                     (typeKeywordStart,
                      typeKeywordEnd
                      + getTrailingWhitespaceLength (MagicString.original code)
                          typeKeywordEnd (end_ loc)))
                  (inlineTypeMatches 0 0 statementText) in
            fold_right
              (fun r c =>
                 match c with
                 | Some c' => MagicString.remove (fst r) (snd r) c'
                 | None => None
                 end)
              (Some code) replacements
        end
  | ExportDeclaration loc isTypeOnly clause spec =>
      match clause, spec with
      | Some (NamedExports _ []), None =>
          MagicString.remove (getStart text node) (getEnd text node) code
      | _, _ =>
          if isTypeOnly then
            let exportKeywordEnd := start loc + exportKeywordLength in
            let nextTokenStart :=
              match clause, spec with
              | Some (NamedExports l _), _ | Some (NamespaceExport l), _ => start l
              | None, Some (StringLiteral l _) | None, Some (OtherExpression l) => start l
              | None, None => end_ loc
              end in
            match MagicString.slice exportKeywordEnd nextTokenStart
                    (MagicString.chunks code) with
            | None => None
            | Some afterExport =>
                match typeMatcher afterExport with
                | Some index =>
                    let typeKeywordStart := exportKeywordEnd + index in
                    let typeKeywordEnd := typeKeywordStart + typeKeywordLength in
                    match MagicString.slice typeKeywordEnd nextTokenStart
                            (MagicString.chunks code) with
                    | None => None
                    | Some afterType =>
                        MagicString.remove typeKeywordStart
                          (typeKeywordEnd
                           + (String.length afterType
                              - String.length (JS.trimStart afterType)))
                          code
                    end
                | None => Some code
                end
            end
          else Some code
      end
  | EmptyStatement _ | ExportAssignment _ => Some code
  | Declaration _ _ _ | VariableStatement _ _ | ModuleDeclaration _ _ _ _
  | OtherStatement _ => None
  end.

(** [parseReferenceDirectives] *)
Definition parseReferenceDirectives (sourceFile : SourceFile)
    (fileReferences : list FileReference) (code : MagicString.t)
  : option (list string * MagicString.t) :=
  fold_left
    (fun (acc : option (list string * MagicString.t)) (r : FileReference) =>
       match acc with
       | None => None
       | Some (names, code) =>
           let e := lineEndAt sourceFile (refPos r) in
           match MagicString.slice e (e + 1) (MagicString.chunks code) with
           | None => None
           | Some next =>
               let e' := if String.eqb next Constants.newLine then e + 1 else e in
               match MagicString.remove (lineStartAt sourceFile (refPos r)) e' code with
               | Some code' => Some (JS.setAdd (fileName r) names, code')
               | None => None
               end
           end
       end)
    fileReferences (Some ([], code)).

Definition preProcess (sourceFile : SourceFile) : option PreProcessOutput :=
  let pass1 :=
    fold_left
      (fun (acc : option MagicString.t) (node : Node) =>
         match acc with
         | Some code => preProcessStatement (fullText sourceFile) code node
         | None => None
         end)
      (statements sourceFile)
      (Some (MagicString.new (fullText sourceFile))) in
  match pass1 with
  | Some code =>
      match parseReferenceDirectives sourceFile
              (typeReferenceDirectives sourceFile) code with
      | Some (typeRefs, code1) =>
          match parseReferenceDirectives sourceFile
                  (referencedFiles sourceFile) code1 with
          | Some (fileRefs, code2) =>
              Some {| outCode := MagicString.toString code2;
                      outTypeReferences := typeRefs;
                      outFileReferences := fileRefs |}
          | None => None
          end
      | None => None
      end
  | None => None
  end.

(** *** The shape of a type-only import *)

(** Every character of [s] satisfies [f]. *)
Fixpoint allChars (f : ascii -> bool) (s : string) : bool :=
  match s with
  | EmptyString => true
  | String c s' => f c && allChars f s'
  end.

(** [s] does not start with a character that satisfies [f]. *)
Definition startsWithout (f : ascii -> bool) (s : string) : bool :=
  match s with
  | EmptyString => true
  | String c _ => negb (f c)
  end.

End DeclarationProcessor.

(** ** The incremental build cache (src/incremental-build-cache.ts) *)

Module IncrementalBuildCache.

(** [VersionedCache] as it comes back from disk. The declared type has
    [version: number] and [files: Record<string, CachedDeclaration>]; a
    payload written by another format or cut short may lack either, and
    reading the field then gives [undefined] ([None]). [files], when the
    payload has it, is an object of entries of the declared content type. *)
Record VersionedCache := mkVersionedCache {
  version : option Z;
  files : option (list (string * CachedDeclaration))
}.

(** What [deserialize] hands back: [null] or [undefined], on which reading
    a property throws, or an object (a primitive reads as an object without
    [version] and without [files]). The [files] of an object whose version
    is rejected are never read. *)
Inductive Deserialized :=
| Nullish
| Object (cache : VersionedCache).

(** [cache.version] *)
Definition readVersion (d : Deserialized) : Outcome (option Z) :=
  match d with
  | Nullish => Threw
  | Object c => Returned (version c)
  end.

(** [loadCache()]. [read] is the promise of [Files.readCompressed]: rejected
    ([Threw]) when the file is absent, unreadable, or fails to decompress
    or deserialize. The [try]/[catch] covers the read and the version
    test. *)
Definition loadCache (read : Outcome Deserialized)
  : Outcome (option VersionedCache) :=
  match read with
  | Threw => Returned None
  | Returned d =>
      match readVersion d, d with
      | Returned v, Object c =>
          Returned (if bool_decide (v = Some Constants.dtsCacheVersion)
                    then Some c else None)
      | _, _ => Returned None
      end
  end.

Record t := mk {
  buildInfoPath : string;
  cacheLoaded : Outcome (option VersionedCache)
}.

(** [constructor(projectRoot, tsBuildInfoFile)]; [join] is [Paths.join] and
    [read] what reading the cache file will give. *)
Definition new (join : string -> string -> string)
    (read : Outcome Deserialized) (projectRoot tsBuildInfoFile : string) : t :=
  {| buildInfoPath := join projectRoot tsBuildInfoFile;
     cacheLoaded := loadCache read |}.

(** [restore(target)]: awaits [cacheLoaded], then copies the entries.
    [Object.entries(cache.files)] throws a [TypeError] when [files] is
    [undefined] or [null], before any entry is copied; nothing catches
    it. *)
Definition restore (c : t) (target : gmap string CachedDeclaration)
  : Outcome (gmap string CachedDeclaration) :=
  match cacheLoaded c with
  | Threw => Threw
  | Returned None => Returned target
  | Returned (Some cache) =>
      match files cache with
      | Some entries =>
          Returned (fold_left (fun tgt e => <[fst e := snd e]> tgt) entries target)
      | None => Threw
      end
  end.

(** [isBuildInfoFile(filePath)] *)
Definition isBuildInfoFile (c : t) (filePath : string) : bool :=
  String.eqb filePath (buildInfoPath c).

(** The payload [save(source)] hands to [Files.writeCompressed]. *)
Definition savedPayload (source : gmap string CachedDeclaration) : VersionedCache :=
  {| version := Some Constants.dtsCacheVersion;
     files := Some (map_to_list source) |}.

(** The cache behind the [BuildCache] interface of the store;
    [writeCompressed] is [Files.writeCompressed] on the cache file. *)
Definition asBuildCache (writeCompressed : VersionedCache -> option unit) (c : t)
  : FileManager.BuildCache :=
  {| FileManager.restore := fun target =>
       match restore c target with Returned m => Some m | Threw => None end;
     FileManager.save := fun source => writeCompressed (savedPayload source);
     FileManager.isBuildInfoFile := isBuildInfoFile c |}.

End IncrementalBuildCache.

(** ** The build orchestrator (src/type-script-project.ts) *)

Module TypeScriptProject.

(** [DiagnosticCategory] of the compiler: Warning = 0, Error = 1,
    Suggestion = 2, Message = 3. *)
Inductive DiagnosticCategory := Warning | Error | Suggestion | Message.

(** The file of a diagnostic: its name and
    [getLineAndCharacterOfPosition(p).line]. *)
Record DiagnosticFile := mkDiagnosticFile {
  fileName : string;
  lineOfPosition : nat -> nat
}.

Record Diagnostic := mkDiagnostic {
  category : DiagnosticCategory;
  file : option DiagnosticFile;
  start : option nat;
  messageText : string
}.


(** The errors a build can end with. [TypeCheckError] carries the message
    and the diagnostics it was formatted from. *)
Inductive BuildFailure :=
| TypeCheckError (message : string) (diagnostics : list Diagnostic)
| OtherFailure.

Inductive Result (A : Type) :=
| Done (a : A)
| Raise (e : BuildFailure).
Arguments Done {A} a.
Arguments Raise {A} e.

(** The build ended with a [TypeCheckError]. *)
Definition isTypeCheckError {A} (r : Result A) : bool :=
  match r with
  | Raise (TypeCheckError _ _) => true
  | _ => false
  end.

(** The summary [handleTypeErrors] logs after the formatted diagnostics. *)
Inductive Summary :=
| FoundOne (relativeFirstFileName : string) (line : nat)
| FoundInSameFile (errorCount : nat) (relativeFirstFileName : string) (line : nat)
| FoundInFiles (errorCount fileCount : nat) (rows : list (nat * string * nat)).

(** The [filesWithErrors] map: file name to [(count, line)], in insertion
    order. *)
Fixpoint countError (name : string) (line : nat)
    (m : list (string * (nat * nat))) : list (string * (nat * nat)) :=
  match m with
  | [] => [(name, (1, line))]
  | (n, (count, l)) :: rest =>
      if String.eqb n name then (n, (S count, Nat.min l line)) :: rest
      else (n, (count, l)) :: countError name line rest
  end.

Definition filesWithErrors (diagnostics : list Diagnostic)
  : list (string * (nat * nat)) :=
  fold_left
    (fun m d =>
       match file d with
       | Some f =>
           countError (fileName f)
             (lineOfPosition f (match start d with Some p => p | None => 0 end)) m
       | None => m
       end)
    diagnostics [].

(** The lines of the diagnostics located in the file [name], in the order
    of the diagnostics. *)
Definition linesOf (name : string) (diagnostics : list Diagnostic) : list nat :=
  flat_map
    (fun d =>
       match file d with
       | Some f =>
           if String.eqb (fileName f) name
           then [lineOfPosition f (match start d with Some p => p | None => 0 end)]
           else []
       | None => []
       end)
    diagnostics.

(** [formatDiagnosticsWithColorAndContext(diagnostics, host)], the
    compiler's formatter that [handleTypeErrors] calls first, throws. For
    every diagnostic that has a file it computes the line of the
    diagnostic's [start] in that file; on an undefined [start] its
    assertion that the position does not precede the file fails, with a
    plain [Error]. A diagnostic without file is formatted without
    position. *)
Definition formatterThrows (diagnostics : list Diagnostic) : bool :=
  existsb
    (fun d =>
       match file d, start d with
       | Some _, None => true
       | _, _ => false
       end)
    diagnostics.

(** What a row of the summary keeps of the lines of one file: how many
    they are, and the smallest. *)
Definition summarized (lines : list nat) : option (nat * nat) :=
  match lines with
  | [] => None
  | l :: rest => Some (length lines, fold_left Nat.min rest l)
  end.

Section Project.

(** [Paths.relative] *)
Variable relative : string -> string -> string.

(** [handleTypeErrors]: prints the formatted diagnostics, logs the
    summary, then throws the [TypeCheckError]; it always throws. When the
    formatter throws, its plain [Error] is what leaves the function, and no
    summary is logged. *)
Definition handleTypeErrors (message : string) (diagnostics : list Diagnostic)
    (projectDirectory : string) : option Summary * BuildFailure :=
  if formatterThrows diagnostics then (None, OtherFailure) else
  let files := filesWithErrors diagnostics in
  let errorCount := length diagnostics in
  let fileCount := length files in
  let '(firstFileName, firstLine) :=
    match files with
    | (n, (_, l)) :: _ => (n, l)
    | [] => ("", 0)
    end in
  let relativeFirstFileName := relative projectDirectory firstFileName in
  let summary :=
    if Nat.eqb errorCount 1 then FoundOne relativeFirstFileName (firstLine + 1)
    else if Nat.eqb fileCount 1
    then FoundInSameFile errorCount relativeFirstFileName (firstLine + 1)
    else FoundInFiles errorCount fileCount
           (map (fun e => (fst (snd e), fst e, snd (snd e) + 1)) files) in
  (Some summary, TypeCheckError message diagnostics).

Variable preProcess : string -> string -> option CachedDeclaration.
Variable sysWriteFile : string -> string -> bool.

(** What [builderProgram.emit(undefined, writeFile, undefined, true)] does:
    it calls the write callback on each output, in order, and returns the
    diagnostics. *)
Record Emit := mkEmit {
  outputs : list (string * string);
  diagnostics : list Diagnostic
}.

(** The write callbacks of one emit; an exception of the callback ends the
    emit. *)
Fixpoint emitOutputs (fm : FileManager.t) (w : FileManager.World)
    (outs : list (string * string))
  : Outcome unit * FileManager.t * FileManager.World :=
  match outs with
  | [] => (Returned tt, fm, w)
  | (filePath, text) :: rest =>
      match FileManager.fileWriter preProcess sysWriteFile fm w filePath text with
      | (Returned _, fm', w') => emitOutputs fm' w' rest
      | (Threw, fm', w') => (Threw, fm', w')
      end
  end.

Record TypeCheckRun := mkTypeCheckRun {
  result : Result bool;
  logged : option Summary;
  finalized : bool;
  manager : FileManager.t;
  world : FileManager.World
}.

(** [typeCheck()] *)
Definition typeCheck (projectDirectory : string) (fm : FileManager.t)
    (w : FileManager.World) (emit : Emit) : TypeCheckRun :=
  match FileManager.initialize fm with
  | (Threw, fm1) => mkTypeCheckRun (Raise OtherFailure) None false fm1 w
  | (Returned _, fm1) =>
      match emitOutputs fm1 w (outputs emit) with
      | (Threw, fm2, w2) => mkTypeCheckRun (Raise OtherFailure) None false fm2 w2
      | (Returned _, fm2, w2) =>
          if Nat.ltb 0 (length (diagnostics emit)) then
            let '(summary, e) :=
              handleTypeErrors "Type-checking failed" (diagnostics emit)
                projectDirectory in
            mkTypeCheckRun (Raise e) summary false fm2 w2
          else
            match FileManager.finalize fm2 w2 with
            | (Returned b, w3) => mkTypeCheckRun (Done b) None true fm2 w3
            | (Threw, w3) => mkTypeCheckRun (Raise OtherFailure) None true fm2 w3
            end
      end
  end.




End Project.

(** *** The root names of a rebuild: the loop of [triggerRebuild] *)

(** An entry of [pendingChanges]. *)
Record PendingChange := mkPendingChange {
  event : string;
  changedPath : string;
  nextPath : option string
}.

(** [rootNames.indexOf(path)] *)
Fixpoint indexOf (path : string) (rootNames : list string) : option nat :=
  match rootNames with
  | [] => None
  | r :: rest =>
      if String.eqb r path then Some 0
      else match indexOf path rest with
           | Some i => Some (S i)
           | None => None
           end
  end.

(** [rootNames.splice(index, 1)] *)
Definition spliceOut (index : nat) (rootNames : list string) : list string :=
  firstn index rootNames ++ skipn (S index) rootNames.

(** [rootNames.splice(index, 1, nextPath)] *)
Definition spliceIn (index : nat) (next : string) (rootNames : list string)
  : list string :=
  firstn index rootNames ++ next :: skipn (S index) rootNames.

Section Rebuild.

(** [Watchr.FileEvent.rename], [Watchr.DirectoryEvent.rename] and
    [Watchr.FileEvent.unlink]. *)
Variable fileRename directoryRename fileUnlink : string.

(** [Paths.relative] *)
Variable relative : string -> string -> string.

(** The test of the loop's first branch, with the new path when it holds. *)
Definition renamedTo (c : PendingChange) : option string :=
  match nextPath c with
  | Some next =>
      if String.eqb (event c) fileRename || String.eqb (event c) directoryRename
      then Some next else None
  | None => None
  end.

(** One turn of the loop, on [rootNames] and [buildDependencies]. *)
Definition applyChange (directory : string) (st : list string * gset string)
    (c : PendingChange) : list string * gset string :=
  let '(rootNames, buildDependencies) := st in
  match renamedTo c with
  | Some next =>
      (match indexOf (changedPath c) rootNames with
       | Some index => spliceIn index next rootNames
       | None => rootNames
       end,
       {[ relative directory next ]}
       ∪ (buildDependencies ∖ {[ relative directory (changedPath c) ]}))
  | None =>
      (match indexOf (changedPath c) rootNames with
       | Some index =>
           if String.eqb (event c) fileUnlink then spliceOut index rootNames
           else rootNames
       | None => rootNames
       end,
       buildDependencies)
  end.

Definition applyChanges (directory : string) (pendingChanges : list PendingChange)
    (st : list string * gset string) : list string * gset string :=
  fold_left (applyChange directory) pendingChanges st.

(** The pending change removes [path] from the root names when it is one. *)
Definition unlinks (path : string) (c : PendingChange) : bool :=
  String.eqb (event c) fileUnlink && String.eqb (changedPath c) path.

End Rebuild.

End TypeScriptProject.

(** ** The declaration bundler (src/dts/declaration-bundler.ts) *)

Module DeclarationBundler.
Import TS.

(** *** Insertion-ordered maps keyed by strings ([Map]) *)

Fixpoint mapGet {V} (m : list (string * V)) (k : string) : option V :=
  match m with
  | [] => None
  | (k', v) :: rest => if String.eqb k' k then Some v else mapGet rest k
  end.

Definition mapHas {V} (m : list (string * V)) (k : string) : bool :=
  match mapGet m k with Some _ => true | None => false end.

(** [m.set(k, v)]: a present key keeps its place. *)
Fixpoint mapSet {V} (k : string) (v : V) (m : list (string * V))
  : list (string * V) :=
  match m with
  | [] => [(k, v)]
  | (k', v') :: rest =>
      if String.eqb k' k then (k', v) :: rest else (k', v') :: mapSet k v rest
  end.

(** *** [mergeImports] *)

(** A literal at the head of [s]; what follows it. *)
Definition expectLiteral (lit s : string) : option string :=
  if JS.isPrefix lit s then Some (JS.sliceFrom (String.length lit) s) else None.

(** The longest prefix of [s] free of [stop] characters, and the rest. *)
Fixpoint spanUntil (stop : ascii -> bool) (s : string) : string * string :=
  match s with
  | EmptyString => (EmptyString, EmptyString)
  | String c s' =>
      if stop c then (EmptyString, s)
      else let '(a, b) := spanUntil stop s' in (String c a, b)
  end.

Definition isQuote (c : ascii) : bool :=
  Nat.eqb (nat_of_ascii c) 39 || Nat.eqb (nat_of_ascii c) 34.
Definition isCloseBrace (c : ascii) : bool := Ascii.eqb c "}".

(** [importPattern.exec(s)]: groups 1 and 2 of the pattern, which reads:
    [import], white space, an optional [type] and white space, an opening
    brace, white space, group 1 (one or more characters other than a
    closing brace), white space, a closing brace, white space, [from],
    white space, a quote (single or double), group 2 (one or more
    characters other than quotes), a quote, white space, an optional
    semicolon, white space, end of input. Every repetition is greedy, so
    group 1 runs to the first closing brace, its leading white space
    dropped but for a last character when it holds nothing else. *)
Definition importPatternExec (s : string) : option (string * string) :=
  match expectLiteral "import" s with
  | None => None
  | Some s1 =>
      let s2 := JS.trimStart s1 in
      let s3 :=
        match expectLiteral "type" s2 with
        | Some t => JS.trimStart t
        | None => s2
        end in
      match expectLiteral "{" s3 with
      | None => None
      | Some s4 =>
          let '(body, rest) := spanUntil isCloseBrace s4 in
          match expectLiteral "}" rest, body with
          | None, _ | _, EmptyString => None
          | Some s5, _ =>
              let namesString :=
                match JS.trimStart body with
                | EmptyString => JS.sliceFrom (String.length body - 1) body
                | trimmed => trimmed
                end in
              match expectLiteral "from" (JS.trimStart s5) with
              | None => None
              | Some s6 =>
                  match JS.trimStart s6 with
                  | String q s7 =>
                      if isQuote q then
                        let '(moduleSpecifier, rest2) := spanUntil isQuote s7 in
                        match moduleSpecifier, rest2 with
                        | EmptyString, _ | _, EmptyString => None
                        | _, String _ s8 =>
                            let s9 := JS.trimStart s8 in
                            let s10 :=
                              match s9 with
                              | String c r => if Ascii.eqb c ";" then r else s9
                              | EmptyString => s9
                              end in
                            match JS.trimStart s10 with
                            | EmptyString => Some (namesString, moduleSpecifier)
                            | _ => None
                            end
                        end
                      else None
                  | EmptyString => None
                  end
              end
          end
      end
  end.

Record ImportEntry := mkImportEntry { names : list string; isType : bool }.

(** [key.replace(typePrefixPattern, '')] *)
Definition stripTypePrefix (key : string) : string :=
  if JS.isPrefix "type:" key then JS.sliceFrom 5 key else key.

(** The first loop of [mergeImports], one statement. *)
Definition collectImport
    (acc : list (string * ImportEntry) * list string) (importStatement : string)
  : list (string * ImportEntry) * list string :=
  let '(moduleImports, nonMergeableImports) := acc in
  match importPatternExec importStatement with
  | Some (namesString, moduleSpecifier) =>
      let typeImport := JS.includes importStatement "import type" in
      let key := (if typeImport then "type:" else "") +:+ moduleSpecifier in
      let moduleImports :=
        if mapHas moduleImports key then moduleImports
        else mapSet key (mkImportEntry [] typeImport) moduleImports in
      match mapGet moduleImports key with
      | Some entry =>
          (mapSet key
             (mkImportEntry
                (fold_left (fun ns name => JS.setAdd (JS.trim name) ns)
                   (JS.split "," namesString) (names entry))
                (isType entry))
             moduleImports,
           nonMergeableImports)
      | None => (moduleImports, nonMergeableImports)
      end
  | None => (moduleImports, nonMergeableImports ++ [importStatement])
  end.

Definition renderImport (e : string * ImportEntry) : string :=
  (if isType (snd e) then "import type" else "import")
  +:+ " { " +:+ JS.join ", " (JS.sort (names (snd e)))
  +:+ " } from " +:+ JS.dquote +:+ stripTypePrefix (fst e) +:+ JS.dquote +:+ ";".

Definition mergeImports (imports : list string) : list string :=
  let '(moduleImports, nonMergeableImports) :=
    fold_left collectImport imports ([], []) in
  map renderImport moduleImports ++ JS.setOf nonMergeableImports.

(** The invariant of the first loop: one entry per key, and no name twice
    in an entry. *)
Definition importsCollected (acc : list (string * ImportEntry) * list string) : Prop :=
  NoDup (map fst (fst acc))
  /\ forall k e, (k, e) ∈ fst acc -> NoDup (names e).

(** *** Patterns *)

Inductive Pattern :=
| PatternString (s : string)
| PatternRegExp (r : JS.RegExp).

(** The callback of [matchesPattern], on one pattern. *)
Definition matchesOne (moduleSpecifier : string) (pattern : Pattern)
    (indexes : JS.LastIndexes) : bool * JS.LastIndexes :=
  match pattern with
  | PatternString p =>
      (String.eqb moduleSpecifier p || JS.startsWith moduleSpecifier (p +:+ "/"),
       indexes)
  | PatternRegExp r => JS.test r moduleSpecifier indexes
  end.

(** [matchesPattern]: [patterns.some(...)] stops at the first pattern that
    matches; the patterns after it are not tested. *)
Fixpoint matchesPattern (moduleSpecifier : string) (patterns : list Pattern)
    (indexes : JS.LastIndexes) : bool * JS.LastIndexes :=
  match patterns with
  | [] => (false, indexes)
  | pattern :: rest =>
      let '(found, indexes') := matchesOne moduleSpecifier pattern indexes in
      if found then (true, indexes')
      else matchesPattern moduleSpecifier rest indexes'
  end.

(** *** Modules *)

Record IdentifierMap := mkIdentifierMap {
  types : list string;
  values : list string
}.

Record ModuleInfo := mkModuleInfo {
  path : string;
  moduleCode : string;
  imports : list string;
  moduleTypeReferences : list string;
  moduleFileReferences : list string;
  sourceFile : SourceFile;
  identifiers : IdentifierMap
}.

Record DeclarationCode := mkDeclarationCode {
  strippedCode : string;
  externalImports : list string;
  typeExports : list string;
  valueExports : list string
}.

Record BundledDeclaration := mkBundledDeclaration {
  bundledCode : string;
  exports : list string;
  allDeclarations : list string
}.

(** [extractImports] *)
Definition specifierText (e : Expression) : string :=
  match e with
  | StringLiteral _ text => text
  | OtherExpression _ => ""
  end.

Definition extractImports (sf : SourceFile) : list string :=
  flat_map
    (fun statement =>
       match statement with
       | ImportDeclaration _ _ spec => [specifierText spec]
       | ExportDeclaration _ _ _ (Some spec) => [specifierText spec]
       | _ => []
       end)
    (statements sf).

(** [collectIdentifiers], one statement. A module declaration hands its
    children to the nested collection: the statements of its block, or the
    nested module declaration. *)
Fixpoint collectStatement (statement : Node) (acc : IdentifierMap) : IdentifierMap :=
  match statement with
  | Declaration (InterfaceDeclaration | TypeAliasDeclaration) _ (Some n) =>
      mkIdentifierMap (JS.setAdd n (types acc)) (values acc)
  | Declaration (EnumDeclaration | FunctionDeclaration | ClassDeclaration) _ (Some n) =>
      mkIdentifierMap (types acc) (JS.setAdd n (values acc))
  | VariableStatement _ declared =>
      mkIdentifierMap (types acc)
        (fold_left
           (fun vs d => match d with Some n => JS.setAdd n vs | None => vs end)
           declared (values acc))
  | ModuleDeclaration _ moduleName _ children =>
      let acc1 :=
        if isIdentifier moduleName
        then mkIdentifierMap (types acc) (JS.setAdd (getText moduleName) (values acc))
        else acc in
      fold_left (fun a child => collectStatement child a) children acc1
  | _ => acc
  end.

Definition collectIdentifiers (statements : list Node) : IdentifierMap :=
  fold_left (fun a statement => collectStatement statement a) statements
    (mkIdentifierMap [] []).

(** *** [combineModules]: conflicts and renames *)

(** [declarationSources]: identifier to the set of module paths declaring
    it, both in insertion order. *)
Definition addSource (name modulePath : string)
    (sources : list (string * list string)) : list (string * list string) :=
  let sources :=
    if mapHas sources name then sources else mapSet name [] sources in
  match mapGet sources name with
  | Some paths => mapSet name (JS.setAdd modulePath paths) sources
  | None => sources
  end.

Definition collectDeclarationSources (sortedModules : list ModuleInfo)
  : list (string * list string) :=
  fold_left
    (fun sources m =>
       let sources :=
         fold_left (fun acc name => addSource name (path m) acc)
           (types (identifiers m)) sources in
       fold_left (fun acc name => addSource name (path m) acc)
         (values (identifiers m)) sources)
    sortedModules [].

(** The key [`${name}:${modulePath}`] of the rename map. *)
Definition renameKey (name modulePath : string) : string :=
  name +:+ ":" +:+ modulePath.

(** [sources.slice(1).forEach((modulePath, index) => ...)], from [index]. *)
Fixpoint renameLater (name : string) (index : nat) (later : list string)
    (renameMap : list (string * string)) : list (string * string) :=
  match later with
  | [] => renameMap
  | modulePath :: rest =>
      renameLater name (S index) rest
        (mapSet (renameKey name modulePath)
           (name +:+ "$" +:+ JS.ofNat (index + 1)) renameMap)
  end.

Definition buildRenameMap (sources : list (string * list string))
  : list (string * string) :=
  fold_left
    (fun renameMap entry =>
       if Nat.ltb 1 (length (snd entry))
       then renameLater (fst entry) 0 (tl (snd entry)) renameMap
       else renameMap)
    sources [].

(** *** [stripImportsExports] *)

(** [moduleRenames]: the renames that apply to this module's identifiers. *)
Definition moduleRenamesOf (ids : IdentifierMap)
    (renameMap : list (string * string)) (modulePath : string)
  : list (string * string) :=
  fold_left
    (fun moduleRenames name =>
       match mapGet renameMap (renameKey name modulePath) with
       | Some renamed =>
           if String.eqb renamed "" then moduleRenames
           else mapSet name renamed moduleRenames
       | None => moduleRenames
       end)
    (types ids ++ values ids) [].

(** [exportsMapper] *)
Definition exportsMapper (moduleRenames : list (string * string)) (name : string)
  : string :=
  match mapGet moduleRenames name with
  | Some renamed => renamed
  | None => name
  end.

(** The removals of the statement loop of [stripImportsExports]: every
    import declaration, every export declaration with a module specifier,
    every export declaration that lists at least one name, every export
    assignment. [None] when [magic.remove] throws. *)
Definition removeStatement (magic : option MagicString.t) (statement : Node)
  : option MagicString.t :=
  match magic with
  | None => None
  | Some text =>
      match statement with
      | ImportDeclaration loc _ _ =>
          MagicString.remove (pos loc) (end_ loc) text
      | ExportDeclaration loc _ _ (Some _) =>
          MagicString.remove (pos loc) (end_ loc) text
      | ExportDeclaration loc _ (Some (NamedExports _ (_ :: _))) None =>
          MagicString.remove (pos loc) (end_ loc) text
      | ExportAssignment loc =>
          MagicString.remove (pos loc) (end_ loc) text
      | _ => Some text
      end
  end.

(** [visit] of the rename pass on one name node of the tree: an identifier
    whose text has a rename is overwritten from [node.pos], where the token
    before it ends, to [node.end]. [None] when [magic.overwrite] throws. *)
Definition renameIdentifier (moduleRenames : list (string * string))
    (magic : option MagicString.t) (node : Name) : option MagicString.t :=
  match magic with
  | None => None
  | Some text =>
      if isIdentifier node then
        match mapGet moduleRenames (getText node) with
        | Some renamed =>
            if String.eqb renamed "" then Some text
            else
              MagicString.overwrite (pos (nameLoc node)) (end_ (nameLoc node))
                renamed text
        | None => Some text
        end
      else Some text
  end.

(** [magic.toString()] at the end of [stripImportsExports]: the code after
    the removals of the statement loop and, when the module has renames,
    after the rename pass. [nodes] are the name nodes of the tree, in the
    order in which [forEachChild] reaches them. *)
Definition strippedText (nodes : list Name) (code : string) (sf : SourceFile)
    (moduleRenames : list (string * string)) : option string :=
  let removed :=
    fold_left removeStatement (statements sf) (Some (MagicString.new code)) in
  let renamed :=
    match moduleRenames with
    | [] => removed
    | _ :: _ => fold_left (renameIdentifier moduleRenames) nodes removed
    end in
  option_map MagicString.toString renamed.

Section Strip.

Variable external : list Pattern.

(** [magic.toString()] after the removals and the rename pass, which walks
    every identifier of the tree; [strippedText] computes it from the name
    nodes of the tree. *)
Variable magicToString : string -> SourceFile -> list (string * string) -> string.

(** [isExternal]; the answer comes with the [lastIndex] values the tests
    of the patterns leave. *)
Definition isExternal (moduleSpecifier : string) (indexes : JS.LastIndexes)
  : bool * JS.LastIndexes :=
  matchesPattern moduleSpecifier external indexes.

(** The statement loop of [stripImportsExports]: external imports, type
    exports and value exports, as pushed, next to the [lastIndex] values. *)
Definition stripStatement (code : string) (ids : IdentifierMap)
    (bundledImportPaths : list string)
    (acc : list string * list string * list string * JS.LastIndexes)
    (statement : Node)
  : list string * list string * list string * JS.LastIndexes :=
  let '(externalImports, typeExports, valueExports, indexes) := acc in
  match statement with
  | ImportDeclaration loc _ spec =>
      let moduleSpecifier := specifierText spec in
      let '(explicit, indexes') := isExternal moduleSpecifier indexes in
      if explicit
         || negb (existsb (String.eqb moduleSpecifier) bundledImportPaths)
      then (externalImports ++ [JS.trim (JS.slice (pos loc) (end_ loc) code)],
            typeExports, valueExports, indexes')
      else (externalImports, typeExports, valueExports, indexes')
  | ExportDeclaration _ _ (Some (NamedExports _ elements)) None =>
      (fold_left
         (fun (a : list string * list string * list string) e =>
            let '(ei, te, ve) := a in
            let localName :=
              match propertyName e with
              | Some p => getText p
              | None => getText (name e)
              end in
            if JS.setHas (values ids) localName then (ei, te, ve ++ [localName])
            else if JS.setHas (types ids) localName then (ei, te ++ [localName], ve)
            else (ei, te, ve ++ [localName]))
         elements (externalImports, typeExports, valueExports),
       indexes)
  | _ => acc
  end.

Definition stripImportsExports (code : string) (sf : SourceFile)
    (ids : IdentifierMap) (bundledImportPaths : list string)
    (renameMap : list (string * string)) (modulePath : string)
    (indexes : JS.LastIndexes) : DeclarationCode * JS.LastIndexes :=
  let moduleRenames := moduleRenamesOf ids renameMap modulePath in
  let '(externalImports, typeExports, valueExports, indexes') :=
    fold_left (stripStatement code ids bundledImportPaths) (statements sf)
      ([], [], [], indexes) in
  let finalValueExports := JS.setOf (map (exportsMapper moduleRenames) valueExports) in
  let finalTypeExports :=
    JS.setOf
      (List.filter (fun t => negb (JS.setHas finalValueExports t))
         (map (exportsMapper moduleRenames) typeExports)) in
  ({| strippedCode := magicToString code sf moduleRenames;
      externalImports := externalImports;
      typeExports := finalTypeExports;
      valueExports := finalValueExports |},
   indexes').

(** *** [combineModules]: accumulation and assembly *)

Record Accumulated := mkAccumulated {
  allTypeReferences : list string;
  allFileReferences : list string;
  allExternalImports : list string;
  allTypeExports : list string;
  allValueExports : list string;
  codeBlocks : list string;
  allDeclared : list string
}.

Definition accumulate (bundledSpecifiers : gmap string (list string))
    (renameMap : list (string * string)) (state : Accumulated * JS.LastIndexes)
    (m : ModuleInfo) : Accumulated * JS.LastIndexes :=
  let '(acc, indexes) := state in
  let bundledForThisModule :=
    match bundledSpecifiers !! path m with Some l => l | None => [] end in
  let '(dc, indexes') :=
    stripImportsExports (moduleCode m) (sourceFile m) (identifiers m)
      bundledForThisModule renameMap (path m) indexes in
  let project := negb (JS.includes (path m) Constants.nodeModules) in
  ({| allTypeReferences := allTypeReferences acc ++ moduleTypeReferences m;
     allFileReferences := allFileReferences acc ++ moduleFileReferences m;
     allExternalImports := allExternalImports acc ++ externalImports dc;
     allTypeExports :=
       if project then allTypeExports acc ++ typeExports dc else allTypeExports acc;
     allValueExports :=
       if project then allValueExports acc ++ valueExports dc else allValueExports acc;
     codeBlocks :=
       if Nat.ltb 0 (String.length (JS.trim (strippedCode dc)))
       then codeBlocks acc ++ [JS.trim (strippedCode dc)] else codeBlocks acc;
     allDeclared :=
       if project
       then fold_left (fun ds n => JS.setAdd n ds)
              (types (identifiers m) ++ values (identifiers m)) (allDeclared acc)
       else allDeclared acc |},
   indexes').

Definition accumulateAll (indexes : JS.LastIndexes)
    (sortedModules : list ModuleInfo)
    (bundledSpecifiers : gmap string (list string)) : Accumulated :=
  fst (fold_left
         (accumulate bundledSpecifiers
            (buildRenameMap (collectDeclarationSources sortedModules)))
         sortedModules (mkAccumulated [] [] [] [] [] [] [], indexes)).

(** The two export lists of the bundle, before their in-place sort. *)
Definition finalValueExports (acc : Accumulated) : list string :=
  JS.setOf (allValueExports acc).
Definition finalTypeExports (acc : Accumulated) : list string :=
  JS.setOf
    (List.filter (fun typeExport => negb (JS.setHas (finalValueExports acc) typeExport))
       (allTypeExports acc)).

Definition combineModules (indexes : JS.LastIndexes)
    (sortedModules : list ModuleInfo)
    (bundledSpecifiers : gmap string (list string)) : BundledDeclaration :=
  let acc := accumulateAll indexes sortedModules bundledSpecifiers in
  let uniqueTypeReferences := JS.setOf (allTypeReferences acc) in
  let uniqueFileReferences := JS.setOf (allFileReferences acc) in
  let mergedExternalImports := mergeImports (allExternalImports acc) in
  let valuesSorted := JS.sort (finalValueExports acc) in
  let typesSorted := JS.sort (finalTypeExports acc) in
  let hasValues := Nat.ltb 0 (length (finalValueExports acc)) in
  let hasTypes := Nat.ltb 0 (length (finalTypeExports acc)) in
  let outputParts :=
    (if Nat.ltb 0 (length uniqueFileReferences)
     then map (fun ref => "/// <reference path=" +:+ JS.dquote +:+ ref +:+ JS.dquote +:+ " />")
            uniqueFileReferences ++ [""]
     else [])
    ++ (if Nat.ltb 0 (length uniqueTypeReferences)
        then map (fun ref => "/// <reference types=" +:+ JS.dquote +:+ ref +:+ JS.dquote +:+ " />")
               uniqueTypeReferences ++ [""]
        else [])
    ++ (if Nat.ltb 0 (length mergedExternalImports)
        then mergedExternalImports ++ [""] else [])
    ++ [JS.join (Constants.newLine +:+ Constants.newLine) (codeBlocks acc)]
    ++ (if hasTypes || hasValues
        then [""]
             ++ (if hasValues
                 then ["export { " +:+ JS.join ", " valuesSorted +:+ " };"] else [])
             ++ (if hasTypes
                 then ["export type { " +:+ JS.join ", " typesSorted +:+ " };"] else [])
        else []) in
  {| bundledCode := JS.join Constants.newLine outputParts;
     exports :=
       (if hasTypes then typesSorted else finalTypeExports acc)
       ++ (if hasValues then valuesSorted else finalValueExports acc);
     allDeclarations := allDeclared acc |}.

End Strip.

(** *** [buildModuleGraph] *)

(** The result of a traversal: finished, ended by an exception, or cut
    short by the recursion bound of the model. *)
Inductive Run (A : Type) :=
| Finished (a : A)
| Raised
| OutOfFuel.
Arguments Finished {A} a.
Arguments Raised {A}.
Arguments OutOfFuel {A}.

Record Options := mkOptions {
  resolve : bool;
  external : list Pattern;
  noExternal : list Pattern
}.

(** The bundler's [declarationFiles] and the three collections of one
    [buildModuleGraph] call. *)
Record GraphState := mkGraphState {
  declarationFiles : gmap string CachedDeclaration;
  modules : gmap string ModuleInfo;
  visited : gset string;
  bundledSpecifiers : gmap string (list string);
  lastIndexes : JS.LastIndexes
}.

Record ModuleDependencyGraph := mkGraph {
  graphModules : gmap string ModuleInfo;
  graphBundledSpecifiers : gmap string (list string)
}.

Section Graph.

Variable options : Options.

(** [sys.resolvePath] *)
Variable resolvePath : string -> string.

(** [createSourceFile(path, code, ScriptTarget.Latest, true)] *)
Variable createSourceFile : string -> string -> SourceFile.

(** [resolveModule(importPath, containingFile)]: the compiler's resolver
    behind the bundler's cache and source-to-declaration mapping. *)
Variable resolveModule : string -> string -> option string.

(** The files [sys.fileExists] and [sys.readFile] see. *)
Variable disk : gmap string string.

(** [DeclarationProcessor.preProcess(createSourceFile(path, raw, ...))];
    [None] when it throws. *)
Variable preProcess : string -> string -> option CachedDeclaration.

(** A resolved path that passes the truthiness tests of the loop. *)
Definition resolved (specifier containingFile : string) : option string :=
  match resolveModule specifier containingFile with
  | Some r => if String.eqb r "" then None else Some r
  | None => None
  end.

(** The lazy load of a resolved file that is not in memory. *)
Definition loadFromDisk (resolvedPath : string)
    (files : gmap string CachedDeclaration)
  : option (gmap string CachedDeclaration) :=
  match files !! resolvedPath with
  | Some _ => Some files
  | None =>
      if resolve options then
        match disk !! resolvedPath with
        | Some rawContent =>
            match preProcess resolvedPath rawContent with
            | Some d => Some (<[resolvedPath := d]> files)
            | None => None
            end
        | None => Some files
        end
      else Some files
  end.

(** The state with other [lastIndex] values. *)
Definition withLastIndexes (indexes : JS.LastIndexes) (st : GraphState)
  : GraphState :=
  mkGraphState (declarationFiles st) (modules st) (visited st)
    (bundledSpecifiers st) indexes.

(** [resolvedPath?.includes(nodeModules) &&
    !this.matchesPattern(specifier, this.options.noExternal)]: the patterns
    are tested only for a path under [/node_modules/]. *)
Definition skipsPackage (specifier resolvedPath : string)
    (indexes : JS.LastIndexes) : bool * JS.LastIndexes :=
  if JS.includes resolvedPath Constants.nodeModules then
    let '(bundled, indexes') :=
      matchesPattern specifier (noExternal options) indexes in
    (negb bundled, indexes')
  else (false, indexes).

(** The loop of [visit] over the import specifiers of one module; [rec] is
    [visit] itself. *)
Fixpoint visitSpecifiers (rec : GraphState -> string -> Run GraphState)
    (path : string) (specifiers : list string) (st : GraphState)
    (moduleImports bundledSpecs : list string)
  : Run (GraphState * list string * list string) :=
  match specifiers with
  | [] => Finished (st, moduleImports, bundledSpecs)
  | specifier :: rest =>
      let '(explicit, indexes) :=
        matchesPattern specifier (external options) (lastIndexes st) in
      let st := withLastIndexes indexes st in
      if explicit
      then visitSpecifiers rec path rest st moduleImports bundledSpecs
      else
        match resolved specifier path with
        | None => visitSpecifiers rec path rest st moduleImports bundledSpecs
        | Some resolvedPath =>
            let '(skipped, indexes) :=
              skipsPackage specifier resolvedPath (lastIndexes st) in
            let st := withLastIndexes indexes st in
            if skipped
            then visitSpecifiers rec path rest st moduleImports bundledSpecs
            else
              match loadFromDisk resolvedPath (declarationFiles st) with
              | None => Raised
              | Some files =>
                  let st1 :=
                    mkGraphState files (modules st) (visited st)
                      (bundledSpecifiers st) (lastIndexes st) in
                  match files !! resolvedPath with
                  | Some _ =>
                      match rec st1 resolvedPath with
                      | Finished st2 =>
                          visitSpecifiers rec path rest st2
                            (JS.setAdd resolvedPath moduleImports)
                            (bundledSpecs ++ [specifier])
                      | Raised => Raised
                      | OutOfFuel => OutOfFuel
                      end
                  | None =>
                      visitSpecifiers rec path rest st1 moduleImports bundledSpecs
                  end
              end
        end
  end.

(** [visit(path)]; [fuel] bounds the depth of the recursion. *)
Fixpoint visit (fuel : nat) (st : GraphState) (path : string) : Run GraphState :=
  match fuel with
  | O => OutOfFuel
  | S fuel' =>
      let path := resolvePath path in
      if bool_decide (path ∈ visited st) then Finished st
      else
        let st :=
          mkGraphState (declarationFiles st) (modules st)
            ({[path]} ∪ visited st) (bundledSpecifiers st) (lastIndexes st) in
        match declarationFiles st !! path with
        | None => Finished st
        | Some cached =>
            let sf := createSourceFile path (code cached) in
            let ids := collectIdentifiers (statements sf) in
            match visitSpecifiers (visit fuel') path (extractImports sf) st [] [] with
            | Finished (st', moduleImports, bundledSpecs) =>
                Finished
                  (mkGraphState (declarationFiles st')
                     (<[path :=
                          mkModuleInfo path (code cached) moduleImports
                            (JS.setOf (typeReferences cached))
                            (JS.setOf (fileReferences cached)) sf ids]>
                        (modules st'))
                     (visited st')
                     (<[path := bundledSpecs]> (bundledSpecifiers st'))
                     (lastIndexes st'))
            | Raised => Raised
            | OutOfFuel => OutOfFuel
            end
        end
  end.

Definition buildModuleGraph (fuel : nat)
    (files : gmap string CachedDeclaration) (indexes : JS.LastIndexes)
    (entryPoint : string) : Run ModuleDependencyGraph :=
  match visit fuel (mkGraphState files ∅ ∅ ∅ indexes) entryPoint with
  | Finished st => Finished (mkGraph (modules st) (bundledSpecifiers st))
  | Raised => Raised
  | OutOfFuel => OutOfFuel
  end.

(** A recursion bound that every traversal stays under: one more than the
    number of files in memory or on disk. *)
Definition enoughFuel (files : gmap string CachedDeclaration) : nat :=
  S (size (dom files ∪ dom disk)).

End Graph.

(** Visited paths whose module is not stored yet: the paths on the
    recursion stack. *)
Definition pending (st : GraphState) : gset string :=
  visited st ∖ dom (modules st).

(** The invariant of the traversal; [universe] holds every file the
    traversal can ever hold, in memory at the start or on disk. *)
Record wf (resolveModule : string -> string -> option string)
    (universe : gset string) (st : GraphState) : Prop := mkWf {
  wf_files : dom (declarationFiles st) ⊆ universe;
  wf_visited : visited st ⊆ dom (declarationFiles st);
  wf_modules : dom (modules st) ⊆ visited st;
  wf_imports : forall p m q,
    modules st !! p = Some m -> q ∈ imports m -> q ∈ visited st;
  wf_bundled : forall p specs s,
    bundledSpecifiers st !! p = Some specs -> s ∈ specs ->
    exists r, resolveModule s p = Some r /\ r ∈ visited st
}.

(** What a finished [visit] of [path] from [st] guarantees of its final
    state. *)
Definition visited_after (resolvePath : string -> string)
    (resolveModule : string -> string -> option string)
    (universe : gset string) (st : GraphState) (path : string)
    (st' : GraphState) : Prop :=
  wf resolveModule universe st' /\ visited st ⊆ visited st'
  /\ resolvePath path ∈ visited st' /\ pending st' ⊆ pending st.

(** [rec2] answers as [rec1] wherever [rec1] does not run out of fuel. *)
Definition refines (rec1 rec2 : GraphState -> string -> Run GraphState) : Prop :=
  forall st p r, rec1 st p = r -> r <> OutOfFuel -> rec2 st p = r.

(** A path is reachable from the entry through the [imports] sets of the
    modules of a graph. *)
Inductive reachable (g : ModuleDependencyGraph) (entry : string) : string -> Prop :=
| reachable_entry : reachable g entry entry
| reachable_import p m q :
    reachable g entry p ->
    graphModules g !! p = Some m ->
    In q (imports m) ->
    reachable g entry q.

(** The graph holds its entry and every path reachable from it, and its
    bundled specifiers resolve to paths it holds. *)
Definition graphClosed (resolveModule : string -> string -> option string)
    (entry : string) (g : ModuleDependencyGraph) : Prop :=
  entry ∈ dom (graphModules g)
  /\ (forall q, reachable g entry q -> q ∈ dom (graphModules g))
  /\ (forall p specs s,
        graphBundledSpecifiers g !! p = Some specs -> s ∈ specs ->
        exists r, resolveModule s p = Some r /\ r ∈ dom (graphModules g)).

(** Pre-processing some file of the disk throws. *)
Definition preProcessThrows (disk : gmap string string)
    (preProcess : string -> string -> option CachedDeclaration) : Prop :=
  exists p raw, disk !! p = Some raw /\ preProcess p raw = None.

(** *** [combineModules]: the names after renaming *)

(** [s] holds a colon; an identifier never does. *)
Fixpoint hasColon (s : string) : bool :=
  match s with
  | EmptyString => false
  | String c rest => Ascii.eqb c ":" || hasColon rest
  end.

(** The pairs of a declared name and the path of the module declaring it,
    in the order the first pass of [combineModules] meets them. *)
Definition declaredPairs (sortedModules : list ModuleInfo)
  : list (string * string) :=
  flat_map
    (fun m =>
       map (fun name => (name, path m))
         (types (identifiers m) ++ values (identifiers m)))
    sortedModules.

(** The name under which the [index]-th module that declares [name]
    declares it in the bundle. *)
Definition nameInBundle (name : string) (index : nat) : string :=
  match index with
  | O => name
  | S _ => name +:+ "$" +:+ JS.ofNat index
  end.

(** The loop of the second pass, from any rename map. *)
Definition renameEntries (sources : list (string * list string))
    (renameMap : list (string * string)) : list (string * string) :=
  fold_left
    (fun renameMap entry =>
       if Nat.ltb 1 (length (snd entry))
       then renameLater (fst entry) 0 (tl (snd entry)) renameMap
       else renameMap)
    sources renameMap.


(** *** [sortModules] *)

(** The three collections of one [sortModules] call. *)
Record SortState := mkSortState {
  sorted : list ModuleInfo;
  sortVisited : gset string;
  visiting : gset string
}.

Section Sort.

Variable moduleMap : gmap string ModuleInfo.

(** The loop of [visit] over the imports of one module; [rec] is [visit]
    itself. *)
Fixpoint sortImports (rec : SortState -> string -> option SortState)
    (importPaths : list string) (st : SortState) : option SortState :=
  match importPaths with
  | [] => Some st
  | importPath :: rest =>
      match rec st importPath with
      | Some st' => sortImports rec rest st'
      | None => None
      end
  end.

(** [visit(path)] of [sortModules]; [fuel] bounds the depth of the
    recursion, and [None] says the bound was reached. *)
Fixpoint sortVisit (fuel : nat) (st : SortState) (path : string)
  : option SortState :=
  match fuel with
  | O => None
  | S fuel' =>
      if bool_decide (path ∈ sortVisited st) || bool_decide (path ∈ visiting st)
      then Some st
      else
        let st :=
          mkSortState (sorted st) (sortVisited st) ({[path]} ∪ visiting st) in
        match moduleMap !! path with
        | None => Some st
        | Some module =>
            match sortImports (sortVisit fuel') (imports module) st with
            | Some st' =>
                Some (mkSortState (sorted st' ++ [module])
                        ({[path]} ∪ sortVisited st')
                        (visiting st' ∖ {[path]}))
            | None => None
            end
        end
  end.

Definition sortModules (fuel : nat) (entryPoint : string)
  : option (list ModuleInfo) :=
  option_map sorted (sortVisit fuel (mkSortState [] ∅ ∅) entryPoint).

(** A recursion bound that every sort stays under. *)
Definition sortFuel : nat := S (size (dom moduleMap)).

(** [q] is reached from [p] through the [imports] sets of the modules. *)
Inductive importsPath (p : string) : string -> Prop :=
| importsPath_here : importsPath p p
| importsPath_step q m r :
    importsPath p q -> moduleMap !! q = Some m -> r ∈ imports m ->
    importsPath p r.

(** Every module is stored under its own path. *)
Definition keyed : Prop :=
  forall k m, moduleMap !! k = Some m -> path m = k.

(** No module reaches itself through one or more imports. *)
Definition acyclic : Prop :=
  forall p m q, moduleMap !! p = Some m -> q ∈ imports m -> ~ importsPath q p.

(** The invariant of the sort. *)
Record sortInv (st : SortState) : Prop := mkSortInv {
  s_nodup : NoDup (map path (sorted st));
  s_visited : forall k, k ∈ sortVisited st <-> k ∈ map path (sorted st);
  s_member : forall m, m ∈ sorted st -> moduleMap !! path m = Some m;
  s_disjoint : sortVisited st ## visiting st;
  s_closed : forall m q,
    m ∈ sorted st -> q ∈ imports m -> q ∈ dom moduleMap ->
    q ∈ sortVisited st \/ q ∈ visiting st;
  s_order : forall l1 m l2 q,
    sorted st = l1 ++ m :: l2 -> q ∈ imports m -> q ∈ dom moduleMap ->
    q ∈ map path l1 \/ importsPath q (path m)
}.

(** What a [visit] of [from] in the state [st] guarantees of its final
    state. *)
Definition sorted_after (st : SortState) (from : string) (st' : SortState)
  : Prop :=
  sortInv st'
  /\ (exists added, sorted st' = sorted st ++ added
                    /\ forall m, m ∈ added -> importsPath from (path m))
  /\ visiting st ⊆ visiting st'
  /\ (forall k, k ∈ dom moduleMap -> k ∈ visiting st' -> k ∈ visiting st)
  /\ (from ∈ sortVisited st' \/ from ∈ visiting st')
  /\ (forall m, from ∉ sortVisited st -> from ∉ visiting st ->
                moduleMap !! from = Some m ->
                exists earlier, sorted st' = earlier ++ [m]).

End Sort.

(** *** What the bundle exports and imports *)

(** [propertyName?.text ?? name.text] of an export specifier. *)
Definition localName (e : ExportSpecifier) : string :=
  match propertyName e with
  | Some p => getText p
  | None => getText (name e)
  end.

(** A module of the project, as opposed to one of a bundled package. *)
Definition isProjectModule (m : ModuleInfo) : bool :=
  negb (JS.includes (path m) Constants.nodeModules).

(** A name listed by an export declaration without module specifier. *)
Definition listsExport (statements : list Node) (n : string) : Prop :=
  exists loc typeOnly clauseLoc elements e,
    ExportDeclaration loc typeOnly (Some (NamedExports clauseLoc elements)) None
      ∈ statements
    /\ e ∈ elements /\ n = localName e.

(** The statement loop of [stripImportsExports] pushes a listed local name
    as a value export: the name is a value of the module, or no identifier
    of the module at all; otherwise it pushes it as a type export. *)
Definition exportedAsValue (ids : IdentifierMap) (local : string) : bool :=
  JS.setHas (values ids) local || negb (JS.setHas (types ids) local).

(** [n] is what the renames of a module of the project make of a local
    name that the module lists in an export declaration and that its
    statement loop pushes as a value export ([asValue]) or as a type
    export. *)
Definition exportedBy (sortedModules : list ModuleInfo) (asValue : bool)
    (n : string) : Prop :=
  exists m local,
    m ∈ sortedModules /\ isProjectModule m = true
    /\ listsExport (statements (sourceFile m)) local
    /\ exportedAsValue (identifiers m) local = asValue
    /\ n = exportsMapper
             (moduleRenamesOf (identifiers m)
                (buildRenameMap (collectDeclarationSources sortedModules))
                (path m))
             local.

(** The module declares [name] at top level. *)
Definition declares (name : string) (m : ModuleInfo) : bool :=
  JS.setHas (types (identifiers m) ++ values (identifiers m)) name.

(** The key of a mergeable import statement in the map of [mergeImports]. *)
Definition importKey (importStatement moduleSpecifier : string) : string :=
  (if JS.includes importStatement "import type" then "type:" else "")
  +:+ moduleSpecifier.

(** [importPattern.exec(importStatement)] is [null]. *)
Definition nonMergeable (importStatement : string) : bool :=
  match importPatternExec importStatement with
  | Some _ => false
  | None => true
  end.

(** A name imported under [key] by one of the statements. *)
Definition importsName (imports : list string) (key n : string) : Prop :=
  exists importStatement namesString moduleSpecifier,
    importStatement ∈ imports
    /\ importPatternExec importStatement = Some (namesString, moduleSpecifier)
    /\ key = importKey importStatement moduleSpecifier
    /\ n ∈ map JS.trim (JS.split "," namesString).

(** The first loop keeps, for every key, the names of the statements read
    so far, and the other statements in order. *)
Definition collectedFrom (seen : list string)
    (acc : list (string * ImportEntry) * list string) : Prop :=
  importsCollected acc
  /\ snd acc = List.filter nonMergeable seen
  /\ forall key n,
       (exists entry, mapGet (fst acc) key = Some entry /\ n ∈ names entry)
       <-> importsName seen key n.

End DeclarationBundler.

(** ** Paths (src/paths.ts) *)

Module Paths.

(** [path.charCodeAt(i)]; [None] is [NaN], past the end. *)
Definition charCodeAt (path : string) (i : nat) : option nat :=
  option_map nat_of_ascii (String.get i path).

(** [path.charCodeAt(i) === n] *)
Definition codeIs (path : string) (i n : nat) : bool :=
  match charCodeAt path i with
  | Some c => Nat.eqb c n
  | None => false
  end.

(** [Paths.isPath(path)] *)
Definition isPath (path : string) : bool :=
  if Nat.eqb (String.length path) 0 then false
  else
    match charCodeAt path 0 with
    | None => false
    | Some firstCharacter =>
        if Nat.eqb firstCharacter 47 then true
        else if Nat.eqb firstCharacter 46 then
          if Nat.eqb (String.length path) 1 then true
          else if codeIs path 1 47 then true
          else if codeIs path 1 46
               then Nat.eqb (String.length path) 2 || codeIs path 2 47
               else false
        else if Nat.leb 65 firstCharacter && Nat.leb firstCharacter 90
                && Nat.leb 3 (String.length path) && codeIs path 1 58
        then codeIs path 2 47 || codeIs path 2 92
        else false
    end.

(** A drive letter, a colon and a slash or backslash. *)
Definition driveRooted (path : string) : Prop :=
  exists d sep rest,
    path = String d (String ":" (String sep rest))
    /\ 65 <= nat_of_ascii d <= 90
    /\ (sep = "/"%char \/ sep = "\"%char).

(** The specifiers the documentation of [isPath] calls local: an absolute
    path, [.], [..], a path below one of them, or a drive-rooted path. *)
Definition localSpecifier (path : string) : Prop :=
  JS.startsWith path "/" = true
  \/ path = "." \/ JS.startsWith path "./" = true
  \/ path = ".." \/ JS.startsWith path "../" = true
  \/ driveRooted path.

End Paths.

(** ** The external-modules plugin (src/plugins/external-modules.ts) *)

Module ExternalModules.
Import DeclarationBundler.

(** The callback of [match], on one pattern. *)
Definition matchOne (id : string) (pattern : Pattern) (indexes : JS.LastIndexes)
  : bool * JS.LastIndexes :=
  match pattern with
  | PatternRegExp r => JS.test r id indexes
  | PatternString p =>
      (String.eqb id p || JS.startsWith id (p +:+ "/"), indexes)
  end.

(** [match(id, patterns)]: [patterns.some(...)] stops at the first pattern
    that matches. The answer comes with the [lastIndex] values the tests
    leave. *)
Fixpoint match_ (id : string) (patterns : list Pattern)
    (indexes : JS.LastIndexes) : bool * JS.LastIndexes :=
  match patterns with
  | [] => (false, indexes)
  | pattern :: rest =>
      let '(found, indexes') := matchOne id pattern indexes in
      if found then (true, indexes') else match_ id rest indexes'
  end.

(** What the [onResolve] callback returns: [undefined], [{ external }] or
    [{ path, external }]. *)
Inductive OnResolveResult :=
| Undefined
| External (path : option string).

(** The [onResolve] callback of [externalModulesPlugin]: the cases of the
    [switch] are evaluated in order, up to the first that holds. *)
Definition onResolve (dependencies noExternal : list Pattern) (path : string)
    (indexes : JS.LastIndexes) : OnResolveResult * JS.LastIndexes :=
  let '(bundled, indexes) := match_ path noExternal indexes in
  if bundled then (Undefined, indexes)
  else
    let '(dependency, indexes) := match_ path dependencies indexes in
    if dependency then (External None, indexes)
    else if negb (Paths.isPath path) then (External (Some path), indexes)
    else (Undefined, indexes).

(** A pattern whose test leaves every [lastIndex] alone: a string, or a
    [RegExp] without the [g] and the [y] flag. *)
Definition stateless (pattern : Pattern) : bool :=
  match pattern with
  | PatternString _ => true
  | PatternRegExp r => negb (JS.advances r)
  end.

(** The answer of a stateless pattern. *)
Definition matchesText (id : string) (pattern : Pattern) : bool :=
  match pattern with
  | PatternString p => String.eqb id p || JS.startsWith id (p +:+ "/")
  | PatternRegExp r =>
      match JS.matchFrom r 0 id with Some _ => true | None => false end
  end.

End ExternalModules.

(** ** The names generated by [preProcess]
    (src/dts/declaration-processor.ts)

    [generateUniqueName] and [createNamespaceImport] are closures of
    [preProcess] over [declaredNames] and [inlineImports]; here the two
    collections are passed and returned. *)

Module PreProcessNames.
Import DeclarationBundler.

(** [createNamespaceImport], the characters it keeps: letters, digits,
    the underscore and the dollar sign. *)
Definition isIdentifierCode (code : nat) : bool :=
  (Nat.leb 97 code && Nat.leb code 122) || (Nat.leb 65 code && Nat.leb code 90)
  || (Nat.leb 48 code && Nat.leb code 57) || Nat.eqb code 95 || Nat.eqb code 36.

(** The loop of [createNamespaceImport] that builds [sanitized]. *)
Fixpoint sanitize (fileId : string) : string :=
  match fileId with
  | EmptyString => EmptyString
  | String char rest =>
      String (if isIdentifierCode (nat_of_ascii char) then char else "_"%char)
        (sanitize rest)
  end.

(** The loop of [generateUniqueName]; [fuel] bounds its iterations. *)
Fixpoint generateUniqueNameFrom (fuel : nat) (declaredNames : list string)
    (hint : string) : option string :=
  match fuel with
  | O => None
  | S fuel' =>
      if JS.setHas declaredNames hint
      then generateUniqueNameFrom fuel' declaredNames ("_" +:+ hint)
      else Some hint
  end.

(** [generateUniqueName(hint)]: the name, and [declaredNames] with the name
    added. One iteration more than there are declared names is enough. *)
Definition generateUniqueName (declaredNames : list string) (hint : string)
  : option (string * list string) :=
  match generateUniqueNameFrom (S (length declaredNames)) declaredNames hint with
  | Some name => Some (name, JS.setAdd name declaredNames)
  | None => None
  end.

(** What name generation works on: the declared names, the names given
    to inline imports, and the name of the default export (empty when there
    is none yet). *)
Record Names := mkNames {
  declaredNames : list string;
  inlineImports : list (string * string);
  defaultExport : string
}.

(** [createNamespaceImport(fileId)] *)
Definition createNamespaceImport (names : Names) (fileId : string)
  : option (string * Names) :=
  match mapGet (inlineImports names) fileId with
  | Some importName => Some (importName, names)
  | None =>
      match generateUniqueName (declaredNames names) (sanitize fileId) with
      | Some (importName, declared) =>
          Some (importName,
                mkNames declared (mapSet fileId importName (inlineImports names))
                  (defaultExport names))
      | None => None
      end
  end.

(** The naming of a default export that has no name:
    [if (defaultExport === '') defaultExport = generateUniqueName('export_default')]. *)
Definition nameDefaultExport (names : Names) : option Names :=
  if String.eqb (defaultExport names) "" then
    match generateUniqueName (declaredNames names) "export_default" with
    | Some (name, declared) => Some (mkNames declared (inlineImports names) name)
    | None => None
    end
  else Some names.

(** What pass 2 asks of name generation, in the order it meets the nodes:
    a name for a module imported inline, or a name for a nameless default
    export. *)
Inductive NameRequest :=
| InlineImport (fileId : string)
| NamelessDefault.

Definition inlineImportOf (r : NameRequest) : list string :=
  match r with
  | InlineImport fileId => [fileId]
  | NamelessDefault => []
  end.

Definition isNamelessDefault (r : NameRequest) : bool :=
  match r with
  | NamelessDefault => true
  | InlineImport _ => false
  end.

Fixpoint generateNames (names : Names) (requests : list NameRequest)
  : option Names :=
  match requests with
  | [] => Some names
  | InlineImport fileId :: rest =>
      match createNamespaceImport names fileId with
      | Some (_, names') => generateNames names' rest
      | None => None
      end
  | NamelessDefault :: rest =>
      match nameDefaultExport names with
      | Some names' => generateNames names' rest
      | None => None
      end
  end.

(** [hint] with [k] underscores in front. *)
Fixpoint underscored (k : nat) (hint : string) : string :=
  match k with
  | O => hint
  | S k' => underscored k' ("_" +:+ hint)
  end.

(** Every character of [s] is one that [createNamespaceImport] keeps. *)
Fixpoint identifierCharacters (s : string) : bool :=
  match s with
  | EmptyString => true
  | String c rest => isIdentifierCode (nat_of_ascii c) && identifierCharacters rest
  end.

(** The invariant of name generation; [declared0] and [default0] are the
    declared names and the default export's name when pass 2 starts. *)
Definition namesInv (declared0 : list string) (default0 : string)
    (names : Names) : Prop :=
  NoDup (map fst (inlineImports names))
  /\ NoDup (map snd (inlineImports names))
  /\ (forall x, x ∈ declared0 -> x ∈ declaredNames names)
  /\ (forall fileId importName,
        (fileId, importName) ∈ inlineImports names ->
        importName ∈ declaredNames names
        /\ (importName ∉ declared0)
        /\ exists k, importName = underscored k (sanitize fileId))
  /\ (defaultExport names = default0
      \/ (default0 = ""
          /\ defaultExport names ∈ declaredNames names
          /\ (defaultExport names ∉ declared0)
          /\ (defaultExport names ∉ map snd (inlineImports names))
          /\ exists k, defaultExport names = underscored k "export_default")).

End PreProcessNames.

(** ** Text formatting (src/text-formatter.ts) *)

Module TextFormat.

(** The least index at which [searchString] occurs in [s], counted from
    [i] at the head of [s]. *)
Fixpoint indexOfFrom (searchString : string) (i : nat) (s : string) : option nat :=
  if JS.isPrefix searchString s then Some i
  else match s with
       | EmptyString => None
       | String _ s' => indexOfFrom searchString (S i) s'
       end.

(** [s.indexOf(searchString, position)]; [None] is [-1]. The position is
    clamped to the length of [s]. *)
Definition indexOf (searchString : string) (position : nat) (s : string)
  : option nat :=
  let start := Nat.min position (String.length s) in
  indexOfFrom searchString start (JS.sliceFrom start s).

(** [replaceClose(index, string, close, replace)], with a bound on the
    depth of the recursion; [None] when the bound is reached. *)
Fixpoint replaceCloseWithin (depth : nat) (index : nat) (text close replace : string)
  : option string :=
  match depth with
  | O => None
  | S depth' =>
      let head := JS.sliceTo index text +:+ replace in
      let tail := JS.sliceFrom (index + String.length close) text in
      match indexOf close 0 tail with
      | None => Some (head +:+ tail)
      | Some next =>
          match replaceCloseWithin depth' next tail close replace with
          | Some rest => Some (head +:+ rest)
          | None => None
          end
      end
  end.

Definition replaceClose (index : nat) (text close replace : string)
  : option string :=
  replaceCloseWithin (S (String.length text)) index text close replace.

(** [clearBleed(index, string, open, close, replace)] *)
Definition clearBleed (index : option nat) (text open close replace : string)
  : option string :=
  match index with
  | None => Some (open +:+ text +:+ close)
  | Some i =>
      match replaceClose i text close replace with
      | Some replaced => Some (open +:+ replaced +:+ close)
      | None => None
      end
  end.

(** [filterEmpty(open, close, replace = open, at = open.length + 1)]: the
    formatter it returns, applied to [text]. *)
Definition filterEmpty (open close : string) (replace : option string)
    (position : option nat) (text : string) : option string :=
  let replace := match replace with Some r => r | None => open end in
  let position :=
    match position with Some p => p | None => String.length open + 1 end in
  if Nat.ltb 0 (String.length text)
  then clearBleed (indexOf close position text) text open close replace
  else Some "".

(** The escape sequence [`\x1b[${code}m`]. *)
Definition escape (code : nat) : string :=
  String (ascii_of_nat 27) ("[" +:+ JS.ofNat code +:+ "m").

(** [generateTextFormatter(open, close, replace?)] *)
Definition generateTextFormatter (open close : nat) (replace : option string)
  : string -> option string :=
  filterEmpty (escape open) (escape close) replace None.

(** [TextFormat.bold] and [TextFormat.red] *)
Definition bold : string -> option string :=
  generateTextFormatter 1 22 (Some (escape 22 +:+ escape 1)).
Definition red : string -> option string := generateTextFormatter 31 39 None.

(** [s.split(separator)] for a separator of one character or more: the
    pieces of [s] between the occurrences of the separator, found from
    left to right without overlap. [skip] characters are left of the
    occurrence just found; [current] is the piece being read. *)
Fixpoint splitOnGo (separator : string) (skip : nat) (current : string) (s : string)
  : list string :=
  match s with
  | EmptyString => [current]
  | String c s' =>
      match skip with
      | S k => splitOnGo separator k current s'
      | O =>
          if JS.isPrefix separator s
          then current :: splitOnGo separator (String.length separator - 1) "" s'
          else splitOnGo separator 0 (current +:+ String c "") s'
      end
  end.
Definition splitOn (separator s : string) : list string :=
  splitOnGo separator 0 "" s.

(** [s.split(close).join(replace)] *)
Definition replaceAll (close replace s : string) : string :=
  JS.join replace (splitOn close s).

(** [close] occurs in [text] at index [i]. *)
Definition occursAt (close text : string) (i : nat) : bool :=
  JS.isPrefix close (JS.sliceFrom i text).

End TextFormat.

(** ** Concrete inputs used below *)

Module Examples.
Import TS.


(** [import { a } from './other.d.ts';] *)
Definition importOtherDts : SourceFile :=
  mkSourceFile "import { a } from './other.d.ts';"
    [ ImportDeclaration (mkLoc 0 0 33) false
        (StringLiteral (mkLoc 17 18 32) "./other.d.ts") ]
    [] [] (fun _ => 0) (fun _ => 33).



(** [import type { type } from 'x';]: a type-only import of the binding
    named [type]. *)
Definition importTypeNamedType : SourceFile :=
  mkSourceFile "import type { type } from 'x';"
    [ ImportDeclaration (mkLoc 0 0 30) true (StringLiteral (mkLoc 25 26 29) "x") ]
    [] [] (fun _ => 0) (fun _ => 30).

(** [import { type } from 'x';], as the compiler parses it: a plain import
    of the binding named [type]. *)
Definition importNamedType : SourceFile :=
  mkSourceFile "import { type } from 'x';"
    [ ImportDeclaration (mkLoc 0 0 25) false (StringLiteral (mkLoc 20 21 24) "x") ]
    [] [] (fun _ => 0) (fun _ => 25).

(** Two named imports, one from the module [type:foo], one from [foo]. *)
Definition importsTypePrefix : list string :=
  [ "import { a } from 'type:foo';"; "import { b } from 'foo';" ].

Definition emptySourceFile : SourceFile :=
  mkSourceFile "" [] [] [] (fun _ => 0) (fun _ => 0).

(** A module that declares the types [Foo] and [Foo$1], and a module that
    declares the type [Foo]. *)
Definition moduleA : DeclarationBundler.ModuleInfo :=
  DeclarationBundler.mkModuleInfo "/p/dist/a.d.ts" "" [] [] [] emptySourceFile
    (DeclarationBundler.mkIdentifierMap ["Foo"; "Foo$1"] []).
Definition moduleB : DeclarationBundler.ModuleInfo :=
  DeclarationBundler.mkModuleInfo "/p/dist/b.d.ts" "" [] [] [] emptySourceFile
    (DeclarationBundler.mkIdentifierMap ["Foo"] []).

(** A project of two declaration files: the entry imports [User] from
    [./types]. *)
Definition indexPath : string := "/p/dist/index.d.ts".
Definition typesPath : string := "/p/dist/types.d.ts".
Definition indexCode : string := "import { User } from './types';".
Definition typesCode : string := "interface User { name: string }".

Definition twoFiles : gmap string CachedDeclaration :=
  <[indexPath := mkCached indexCode [] []]>
    (<[typesPath := mkCached typesCode [] []]> ∅).

Definition parseTwoFiles (path code : string) : SourceFile :=
  if String.eqb path indexPath then
    mkSourceFile code
      [ ImportDeclaration (mkLoc 0 0 31) false
          (StringLiteral (mkLoc 20 21 30) "./types") ]
      [] [] (fun _ => 0) (fun _ => 31)
  else
    mkSourceFile code
      [ Declaration InterfaceDeclaration (mkLoc 0 0 31) (Some "User") ]
      [] [] (fun _ => 0) (fun _ => 31).

Definition resolveTwoFiles (specifier containingFile : string) : option string :=
  if String.eqb specifier "./types" then Some typesPath else None.

Definition bundleAll : DeclarationBundler.Options :=
  DeclarationBundler.mkOptions false [] [].

(** Two modules that both declare the type alias [Foo]. *)
Definition codeFooString : string := "type Foo = string;".
Definition codeFooBoolean : string := "type Foo = boolean;".
Definition moduleFooString : DeclarationBundler.ModuleInfo :=
  let statements := [ Declaration TypeAliasDeclaration (mkLoc 0 0 18) (Some "Foo") ] in
  DeclarationBundler.mkModuleInfo "/p/dist/a.d.ts" codeFooString [] [] []
    (mkSourceFile codeFooString statements [] [] (fun _ => 0) (fun _ => 18))
    (DeclarationBundler.collectIdentifiers statements).
Definition moduleFooBoolean : DeclarationBundler.ModuleInfo :=
  let statements := [ Declaration TypeAliasDeclaration (mkLoc 0 0 19) (Some "Foo") ] in
  DeclarationBundler.mkModuleInfo "/p/dist/b.d.ts" codeFooBoolean [] [] []
    (mkSourceFile codeFooBoolean statements [] [] (fun _ => 0) (fun _ => 19))
    (DeclarationBundler.collectIdentifiers statements).

(** A module that declares and exports the interface [Foo], and a module
    that declares and exports the class [Foo]. *)
Definition codeInterfaceFoo : string := "interface Foo {} export { Foo };".
Definition codeClassFoo : string := "class Foo {} export { Foo };".

(** The identifier nodes of these four files, in tree order. *)
Definition identifierNodes (sf : SourceFile) : list Name :=
  if String.eqb (fullText sf) codeFooString
     || String.eqb (fullText sf) codeFooBoolean
  then [ mkName (mkLoc 4 5 8) "Foo" true ]
  else if String.eqb (fullText sf) codeInterfaceFoo
  then [ mkName (mkLoc 9 10 13) "Foo" true; mkName (mkLoc 25 26 29) "Foo" true ]
  else if String.eqb (fullText sf) codeClassFoo
  then [ mkName (mkLoc 5 6 9) "Foo" true; mkName (mkLoc 21 22 25) "Foo" true ]
  else [].

(** [magic.toString()] at the end of [stripImportsExports], on these
    files. *)
Definition magicText (code : string) (sf : SourceFile)
    (moduleRenames : list (string * string)) : string :=
  match DeclarationBundler.strippedText (identifierNodes sf) code sf moduleRenames with
  | Some text => text
  | None => ""
  end.

(** The two-file project on a drive: [sys.resolvePath] answers with
    backslashes, the compiler's resolver with slashes. Both files are in
    memory under their normalized paths, and on disk. *)
Fixpoint toBackslashes (path : string) : string :=
  match path with
  | EmptyString => EmptyString
  | String c rest =>
      String (if Ascii.eqb c "/" then ascii_of_nat 92 else c) (toBackslashes rest)
  end.
Definition driveIndexPath : string := toBackslashes "C:/p/dist/index.d.ts".
Definition driveTypesPath : string := toBackslashes "C:/p/dist/types.d.ts".
Definition resolvedTypesPath : string := "C:/p/dist/types.d.ts".
Definition driveFiles : gmap string CachedDeclaration :=
  <[driveIndexPath := mkCached indexCode [] []]>
    (<[driveTypesPath := mkCached typesCode [] []]> ∅).
Definition driveDisk : gmap string string :=
  <[resolvedTypesPath := typesCode]> ∅.
Definition parseDriveFiles (path code : string) : SourceFile :=
  if String.eqb code indexCode then
    mkSourceFile code
      [ ImportDeclaration (mkLoc 0 0 31) false
          (StringLiteral (mkLoc 20 21 30) "./types") ]
      [] [] (fun _ => 0) (fun _ => 31)
  else
    mkSourceFile code
      [ Declaration InterfaceDeclaration (mkLoc 0 0 31) (Some "User") ]
      [] [] (fun _ => 0) (fun _ => 31).
Definition resolveDriveFiles (specifier containingFile : string)
  : option string :=
  if String.eqb specifier "./types" then Some resolvedTypesPath else None.
Definition bundleFromDisk : DeclarationBundler.Options :=
  DeclarationBundler.mkOptions true [] [].


(** [/lib/y]: with the sticky flag a match starts at [lastIndex]. *)
Definition stickyLib : JS.RegExp :=
  JS.mkRegExp 0 true
    (fun i s => if JS.isPrefix "lib" (JS.sliceFrom i s) then Some (i + 3) else None).

(** The statements of the documentation of [mergeImports], with a
    namespace import given twice. *)
Definition importsOfFoo : list string :=
  [ "import { A, B } from 'foo';"; "import { B, C } from 'foo';";
    "import * as ns from 'bar';"; "import * as ns from 'bar';" ].

(** An empty export marker before an export-from statement, each on its
    line. *)
Definition markerThenExportFrom : SourceFile :=
  mkSourceFile
    ("export {};" +:+ Constants.newLine +:+ "export type { Foo } from './foo';"
     +:+ Constants.newLine)
    [ ExportDeclaration (mkLoc 0 0 10) false
        (Some (NamedExports (mkLoc 6 7 9) [])) None;
      ExportDeclaration (mkLoc 10 11 44) true
        (Some (NamedExports (mkLoc 22 23 30)
                 [ mkExportSpecifier (mkName (mkLoc 24 25 28) "Foo" true) None ]))
        (Some (StringLiteral (mkLoc 35 36 43) "./foo")) ]
    [] [] (fun _ => 0) (fun _ => 10).

(** A triple-slash directive before the empty export marker, each on its
    line: the directive is leading trivia of the export declaration. *)
Definition directiveThenMarker : SourceFile :=
  mkSourceFile
    ("/// <reference types='node' />" +:+ Constants.newLine +:+ "export {};"
     +:+ Constants.newLine)
    [ ExportDeclaration (mkLoc 0 31 41) false
        (Some (NamedExports (mkLoc 37 38 40) [])) None ]
    [ mkFileReference "node" 22 ] [] (fun _ => 0) (fun _ => 30).

(** A cache that holds one declaration under the current version. *)
Definition cachedIndex : IncrementalBuildCache.VersionedCache :=
  IncrementalBuildCache.mkVersionedCache (Some 2%Z)
    (Some [ (indexPath, mkCached indexCode [] []) ]).

(** A payload of the current version that lost its [files]: what
    deserializing [{ version: 2 }] gives. *)
Definition versionOnly : IncrementalBuildCache.VersionedCache :=
  IncrementalBuildCache.mkVersionedCache (Some 2%Z) None.

(** The two modules of that project, as [buildModuleGraph] stores them. *)
Definition moduleIndex : DeclarationBundler.ModuleInfo :=
  DeclarationBundler.mkModuleInfo indexPath indexCode [typesPath] [] []
    (parseTwoFiles indexPath indexCode)
    (DeclarationBundler.mkIdentifierMap [] []).
Definition moduleTypes : DeclarationBundler.ModuleInfo :=
  DeclarationBundler.mkModuleInfo typesPath typesCode [] [] []
    (parseTwoFiles typesPath typesCode)
    (DeclarationBundler.mkIdentifierMap ["User"] []).
Definition twoModules : gmap string DeclarationBundler.ModuleInfo :=
  <[indexPath := moduleIndex]> (<[typesPath := moduleTypes]> ∅).

(** [import { a } from './a.d.ts';;]: an import and a stray semicolon. *)
Definition importThenSemicolon : SourceFile :=
  mkSourceFile "import { a } from './a.d.ts';;"
    [ ImportDeclaration (mkLoc 0 0 29) false
        (StringLiteral (mkLoc 17 18 28) "./a.d.ts");
      EmptyStatement (mkLoc 29 29 30) ]
    [] [] (fun _ => 0) (fun _ => 30).

(** Two root files; one is unlinked and a third file is added. *)
Definition rebuildRoots : list string := ["/p/src/a.ts"; "/p/src/b.ts"].
Definition pendingUnlinkAndAdd : list TypeScriptProject.PendingChange :=
  [ TypeScriptProject.mkPendingChange "unlink" "/p/src/b.ts" None;
    TypeScriptProject.mkPendingChange "add" "/p/src/c.ts" None ].

(** A text with the close code of bold at the indices 2 and 10. *)
Definition twoCloseCodes : string :=
  "a " +:+ TextFormat.escape 22 +:+ " b " +:+ TextFormat.escape 22 +:+ " c".

(** [import type { User } from './types';] *)
Definition importTypeUser : SourceFile :=
  mkSourceFile "import type { User } from './types';"
    [ ImportDeclaration (mkLoc 0 0 36) true
        (StringLiteral (mkLoc 25 26 35) "./types") ]
    [] [] (fun _ => 0) (fun _ => 36).

End Examples.

(* ===================================================================== *)
(** * Properties *)
(* ===================================================================== *)

(** ** The declaration store *)

Module FileManagerFacts.
Import FileManager.

Section Store.

Variable preProcess : string -> string -> option CachedDeclaration.
Variable sysWriteFile : string -> string -> bool.

Abbreviation noInitialize tr := (forallb (fun e => negb (isInitialize e)) tr = true).

Lemma writtenSince_cons e tr :
  writtenSinceInitialize (e :: tr)
  <-> writtenSinceInitialize tr
      \/ ((exists p x, e = (CallFileWriter p x, true)) /\ noInitialize tr).
Proof.
  unfold writtenSinceInitialize. split.
  - intros (before & p & x & after & Heq & Hno).
    destruct before as [|b before]; simpl in Heq; inversion Heq; subst.
    + right. eauto.
    + left. eauto 10.
  - intros [(before & p & x & after & Heq & Hno) | [(p & x & ->) Hno]].
    + exists (e :: before), p, x, after. subst. auto.
    + exists [], p, x, tr. auto.
Qed.

Lemma writtenSince_nil : ~ writtenSinceInitialize [].
Proof.
  intros (before & p & x & after & Heq & _).
  destruct before; discriminate.
Qed.

Lemma initialize_flag fm :
  hasEmittedFiles (snd (initialize fm)) = false
  /\ cache (snd (initialize fm)) = cache fm.
Proof.
  unfold initialize; simpl.
  destruct (cache fm) as [c|]; simpl; [|done].
  destruct (restore c (declarationFiles fm)); done.
Qed.

Lemma fileWriter_flag fm w p x :
  let '(o, fm', _) := fileWriter preProcess sysWriteFile fm w p x in
  cache fm' = cache fm
  /\ hasEmittedFiles fm' = (returned o || hasEmittedFiles fm).
Proof.
  unfold fileWriter.
  destruct (cacheSaysBuildInfo fm p).
  - destruct (sysWriteFile p x); simpl; [|done].
    split; [done|]. by destruct (hasEmittedFiles fm).
  - destruct (preProcess p x); simpl; [|done].
    split; [done|]. by destruct (hasEmittedFiles fm).
Qed.

(** The emitted-flag after a run, in terms of the observed trace. *)
Lemma run_flag calls : forall fm w tr fm' w',
  run preProcess sysWriteFile (fm, w) calls = (tr, (fm', w')) ->
  cache fm' = cache fm
  /\ (hasEmittedFiles fm' = true
      <-> writtenSinceInitialize tr
          \/ (hasEmittedFiles fm = true /\ noInitialize tr)).
Proof.
  induction calls as [|c rest IH]; intros fm w tr fm' w' Hrun.
  - simpl in Hrun. inversion Hrun; subst. split; [done|].
    split; [auto | intros [H | [H _]]; [by apply writtenSince_nil in H | done]].
  - cbn [run] in Hrun.
    destruct (step preProcess sysWriteFile (fm, w) c) as [e [fm1 w1]] eqn:Hstep.
    destruct (run preProcess sysWriteFile (fm1, w1) rest) as [es [fm2 w2]] eqn:Hrest.
    inversion Hrun; subst. clear Hrun.
    destruct (IH _ _ _ _ _ Hrest) as [Hc Hflag].
    rewrite Hflag, writtenSince_cons. clear Hflag IH Hrest.
    destruct c as [|p x| |]; simpl in Hstep.
    + destruct (initialize fm) as [o fm0] eqn:Hi. inversion Hstep; subst.
      pose proof (initialize_flag fm) as [Hf Hc']. rewrite Hi in Hf, Hc'.
      simpl in Hf, Hc'. rewrite Hc, Hc', Hf. split; [done|]. simpl.
      split.
      * intros [H | [H _]]; [auto | done].
      * intros [[H | [(p & x & H) _]] | [_ H]]; [auto | done | done].
    + pose proof (fileWriter_flag fm w p x) as Hfw.
      destruct (fileWriter preProcess sysWriteFile fm w p x) as [[o fm0] w0] eqn:Hw.
      inversion Hstep; subst. destruct Hfw as [Hc' Hf].
      rewrite Hc, Hc', Hf. split; [done|]. simpl.
      destruct o; simpl.
      * split.
        -- intros [H | [_ H]]; [auto | left; right; eauto].
        -- intros [[H | [_ H]] | [_ H]]; auto.
      * split.
        -- intros [H | H]; auto.
        -- intros [[H | [(p' & x' & H) _]] | H]; [auto | done | auto].
    + destruct (finalize fm w) as [o w0]. inversion Hstep; subst.
      split; [done|]. simpl. split.
      * intros [H | H]; auto.
      * intros [[H | [(p' & x' & H) _]] | H]; [auto | done | auto].
    + inversion Hstep; subst. split; [done|]. simpl. split.
      * intros [H | H]; auto.
      * intros [[H | [(p' & x' & H) _]] | H]; [auto | done | auto].
Qed.

(** C3. After any sequence of calls on a freshly constructed store,
    [finalize()] returns [false] exactly when a cache is configured and no
    [fileWriter] call has written a file since the most recent
    [initialize()]; without a cache it always returns [true]; and
    [cache.save] is called (with the store's map) exactly when a cache is
    configured and the emitted-flag is set. *)
Theorem finalize_incremental_gate (buildCache : option BuildCache) (w0 : World)
    (calls : list Call) :
  let '(tr, (fm, w)) := run preProcess sysWriteFile (new buildCache, w0) calls in
  let '(o, w') := finalize fm w in
  (o = Returned false
   <-> buildCache <> None /\ ~ writtenSinceInitialize tr)
  /\ (buildCache = None -> o = Returned true)
  /\ cacheSaves w' =
       (if bool_decide (buildCache <> None) && hasEmittedFiles fm
        then cacheSaves w ++ [declarationFiles fm] else cacheSaves w)
  /\ diskWrites w' = diskWrites w.
Proof.
  destruct (run preProcess sysWriteFile (new buildCache, w0) calls)
    as [tr [fm w]] eqn:Hrun.
  apply run_flag in Hrun as [Hc Hflag]. simpl in Hc, Hflag.
  assert (Hw : hasEmittedFiles fm = true <-> writtenSinceInitialize tr).
  { rewrite Hflag. split; [intros [H | [H _]]; [done | discriminate] | auto]. }
  clear Hflag.
  unfold finalize. rewrite Hc.
  destruct buildCache as [c|]; simpl.
  - destruct (hasEmittedFiles fm) eqn:Hf.
    + destruct (save c (declarationFiles fm)); simpl;
        (split; [split; [discriminate | intros [_ Hn]; exfalso; apply Hn, Hw; done] |]);
        (split; [discriminate | done]).
    + simpl. split; [|split; [discriminate | done]].
      split; [|done]. intros _. split; [done|].
      intros Hn. apply Hw in Hn. discriminate.
  - split; [split; [discriminate | intros [H _]; done] | done].
Qed.

(** C10. A store constructed without a build cache never writes to disk
    from [fileWriter]: whatever the path (the compiler's build-info file
    included, since no cache is there to recognise it), the text is
    pre-processed and the result stored in the in-memory map under that
    path; the call fails only when pre-processing itself throws. *)
Theorem fileWriter_without_cache_stays_in_memory (fm : t) (w : World)
    (filePath text : string) :
  cache fm = None ->
  let '(o, fm', w') := fileWriter preProcess sysWriteFile fm w filePath text in
  w' = w
  /\ match preProcess filePath text with
     | Some d =>
         o = Returned tt
         /\ declarationFiles fm' = <[filePath := d]> (declarationFiles fm)
         /\ declarationFiles fm' !! filePath = Some d
         /\ hasEmittedFiles fm' = true
     | None => o = Threw /\ fm' = fm
     end.
Proof.
  intros Hc. unfold fileWriter, cacheSaysBuildInfo. rewrite Hc.
  destruct (preProcess filePath text) as [d|]; simpl; [|done].
  split; [done|]. split; [done|]. split; [done|].
  split; [apply lookup_insert_eq | by destruct (hasEmittedFiles fm)].
Qed.

End Store.

(** A store without a cache, at the build-info path of some project. *)
Lemma fileWriter_without_cache_witness :
  let pre := fun (_ text : string) => Some (mkCached text [] []) in
  let '(o, fm', w') :=
    fileWriter pre (fun _ _ => true) (new None) (mkWorld [] [])
      "/p/.tsbuild/tsconfig.tsbuildinfo" "{}" in
  w' = mkWorld [] []
  /\ match pre "/p/.tsbuild/tsconfig.tsbuildinfo" "{}" with
     | Some d =>
         o = Returned tt
         /\ declarationFiles fm' = <["/p/.tsbuild/tsconfig.tsbuildinfo" := d]> (declarationFiles (new None))
         /\ declarationFiles fm' !! "/p/.tsbuild/tsconfig.tsbuildinfo" = Some d
         /\ hasEmittedFiles fm' = true
     | None => o = Threw /\ fm' = new None
     end.
Proof.
  exact (fileWriter_without_cache_stays_in_memory
           (fun (_ text : string) => Some (mkCached text [] []))
           (fun _ _ => true) (new None) (mkWorld [] [])
           "/p/.tsbuild/tsconfig.tsbuildinfo" "{}" eq_refl).
Defined.

(** The incremental no-op: with a cache, [initialize] restores, the
    compiler writes nothing, and [finalize] returns [false] without
    saving. *)
Example incremental_no_op :
  let cache :=
    IncrementalBuildCache.asBuildCache (fun _ => Some tt)
      (IncrementalBuildCache.new (fun a b => a +:+ "/" +:+ b)
         (Returned (IncrementalBuildCache.Object Examples.cachedIndex))
         "/p" ".tsbuild/tsconfig.tsbuildinfo") in
  let pre := fun (_ text : string) => Some (mkCached text [] []) in
  let '(_, (fm, w)) :=
    run pre (fun _ _ => true) (new (Some cache), mkWorld [] []) [CallInitialize] in
  declarationFiles fm !! Examples.indexPath
  = Some (mkCached Examples.indexCode [] [])
  /\ finalize fm w = (Returned false, mkWorld [] []).
Proof. split; reflexivity. Qed.

End FileManagerFacts.

(** ** The incremental build cache *)

Module IncrementalBuildCacheFacts.
Import IncrementalBuildCache.

(** The promise started by the constructor never rejects. *)
Lemma loadCache_settles (read : Outcome Deserialized) :
  exists loaded, loadCache read = Returned loaded.
Proof.
  destruct read as [[|c]|]; simpl; eauto.
Qed.

(** [loadCache] yields a cache only for an object of the current version. *)
Lemma loadCache_Some (read : Outcome Deserialized) (c : VersionedCache) :
  loadCache read = Returned (Some c)
  <-> read = Returned (Object c) /\ version c = Some Constants.dtsCacheVersion.
Proof.
  destruct read as [[|c']|]; simpl.
  - split; [discriminate | intros [? _]; discriminate].
  - case_bool_decide as Hv.
    + split.
      * intros H. inversion H; subst. done.
      * intros [H _]. inversion H; subst. done.
    + split; [discriminate|].
      intros [H Hv']. inversion H; subst. done.
  - split; [discriminate | intros [? _]; discriminate].
Qed.

(** What [restore] does, case by case. It throws exactly on a payload of
    the current version without [files]. When the cache file is absent,
    unreadable or corrupted so that the read is rejected or gives no
    object, or the payload's version is missing or differs from the current
    constant, [restore] leaves the target as it was; a payload of the
    current version with [files] has its entries copied into the target. *)
Lemma restore_by_cases (join : string -> string -> string)
    (read : Outcome Deserialized) (projectRoot tsBuildInfoFile : string)
    (target : gmap string CachedDeclaration) :
  let cache := new join read projectRoot tsBuildInfoFile in
  (restore cache target = Threw
   <-> exists c, read = Returned (Object c)
                 /\ version c = Some Constants.dtsCacheVersion
                 /\ files c = None)
  /\ ((read = Threw \/ read = Returned Nullish
       \/ exists c, read = Returned (Object c)
                    /\ version c <> Some Constants.dtsCacheVersion)
      -> restore cache target = Returned target)
  /\ (forall c entries, read = Returned (Object c) ->
        version c = Some Constants.dtsCacheVersion ->
        files c = Some entries ->
        restore cache target
        = Returned (fold_left (fun tgt e => <[fst e := snd e]> tgt) entries target)).
Proof.
  simpl. unfold restore, new; simpl.
  split; [|split].
  - destruct (loadCache read) as [[c|]|] eqn:Hl.
    + apply loadCache_Some in Hl as [-> Hv]. destruct (files c) eqn:Hf.
      * split; [discriminate|]. intros (c' & [= <-] & _ & Hf'). congruence.
      * split; [|done]. intros _. by exists c.
    + split; [discriminate|]. intros (c & -> & Hv & _).
      simpl in Hl. by rewrite bool_decide_true in Hl.
    + destruct (loadCache_settles read) as [l Hl']. congruence.
  - intros [-> | [-> | (c & -> & Hv)]]; simpl; [done | done |].
    by rewrite bool_decide_false.
  - intros c entries -> Hv Hf. simpl. rewrite bool_decide_true by done.
    by rewrite Hf.
Qed.

Import Examples.

(** C6 fails on the code. A cache file whose payload is [{ version: 2 }]
    passes the version test of [loadCache], whose [try] ends there; then
    [restore] reads [Object.entries(cache.files)] with [files] undefined
    and the [TypeError] rejects its promise, where [loadCache] documents
    that a corrupted cache gives [undefined]. *)
Theorem restore_throws_on_payload_without_files :
  let cache :=
    new (fun a b => a +:+ "/" +:+ b) (Returned (Object versionOnly))
      "/p" ".tsbuild/tsconfig.tsbuildinfo" in
  cacheLoaded cache = Returned (Some versionOnly)
  /\ restore cache ∅ = Threw
  /\ FileManager.restore (asBuildCache (fun _ => Some tt) cache) ∅ = None.
Proof. split; [reflexivity|]. split; reflexivity. Qed.

End IncrementalBuildCacheFacts.

(** ** The type-check step of a build *)

Module TypeScriptProjectFacts.
Import TypeScriptProject.

Section Project.

Variable relative : string -> string -> string.
Variable preProcess : string -> string -> option CachedDeclaration.
Variable sysWriteFile : string -> string -> bool.



End Project.

Import Examples.


(** A diagnostic with a file and no start position: the formatter throws
    before the summary, and the build ends with its plain error. *)
Example typeCheck_plain_error_without_start :
  let tc :=
    typeCheck (fun _ f => f) (fun _ text => Some (mkCached text [] []))
      (fun _ _ => true) "/p" (FileManager.new None)
      (FileManager.mkWorld [] [])
      (mkEmit []
         [ mkDiagnostic Error (Some (mkDiagnosticFile "/p/src/a.ts" (fun _ => 0)))
             None "Cannot find name" ]) in
  result tc = Raise OtherFailure /\ isTypeCheckError (result tc) = false.
Proof. split; reflexivity. Qed.


End TypeScriptProjectFacts.

(** ** Strings *)

Module JSFacts.
Import JS.

Lemma append_cons c a b : String c a +:+ b = String c (a +:+ b).
Proof. reflexivity. Qed.

Lemma append_nil_l a : "" +:+ a = a.
Proof. reflexivity. Qed.

Lemma append_nil_r a : a +:+ "" = a.
Proof. induction a as [|c a IH]; [done|]. by rewrite append_cons, IH. Qed.

Lemma append_assoc a b c : (a +:+ b) +:+ c = a +:+ (b +:+ c).
Proof. induction a as [|x a IH]; [done|]. by rewrite !append_cons, IH. Qed.

Lemma length_append a b : String.length (a +:+ b) = String.length a + String.length b.
Proof. induction a as [|x a IH]; [done|]. rewrite append_cons. simpl. by rewrite IH. Qed.

Lemma sliceTo_app a b n :
  sliceTo (String.length a + n) (a +:+ b) = a +:+ sliceTo n b.
Proof.
  induction a as [|x a IH]; [done|]. rewrite !append_cons. simpl. by rewrite IH.
Qed.

Lemma sliceFrom_app a b n :
  sliceFrom (String.length a + n) (a +:+ b) = sliceFrom n b.
Proof. induction a as [|x a IH]; [done|]. rewrite append_cons. simpl. apply IH. Qed.

Lemma sliceTo_length a : sliceTo (String.length a) a = a.
Proof. induction a as [|x a IH]; [done|]. simpl. by rewrite IH. Qed.

Lemma sliceTo_app_length a b : sliceTo (String.length a) (a +:+ b) = a.
Proof.
  rewrite <- (Nat.add_0_r (String.length a)), sliceTo_app.
  destruct b; simpl; apply append_nil_r.
Qed.

Lemma sliceFrom_app_length a b : sliceFrom (String.length a) (a +:+ b) = b.
Proof. by rewrite <- (Nat.add_0_r (String.length a)), sliceFrom_app. Qed.

Lemma rev_app_acc s acc : String.rev_app s acc = String.rev s +:+ acc.
Proof.
  unfold String.rev. revert acc.
  induction s as [|c s IH]; intros acc; [done|]. simpl.
  rewrite IH, (IH (String c "")), append_assoc. done.
Qed.

Lemma rev_app_append a b acc :
  String.rev_app (a +:+ b) acc = String.rev_app b (String.rev_app a acc).
Proof.
  revert acc. induction a as [|c a IH]; intros acc; [done|].
  rewrite append_cons. simpl. apply IH.
Qed.

Lemma rev_app a b : String.rev (a +:+ b) = String.rev b +:+ String.rev a.
Proof.
  unfold String.rev at 1. by rewrite rev_app_append, rev_app_acc.
Qed.



(** Sets kept as lists. *)

Lemma setHas_correct xs x : setHas xs x = true <-> x ∈ xs.
Proof.
  unfold setHas. rewrite existsb_exists. split.
  - intros (y & Hin & Heq). apply String.eqb_eq in Heq as ->.
    by apply list_elem_of_In.
  - intros Hin. exists x. split; [by apply list_elem_of_In | apply String.eqb_refl].
Qed.

Lemma setHas_false xs x : setHas xs x = false <-> x ∉ xs.
Proof.
  rewrite <- setHas_correct. destruct (setHas xs x); split; congruence.
Qed.

Lemma elem_of_setAdd x xs y : y ∈ setAdd x xs <-> y = x \/ y ∈ xs.
Proof.
  unfold setAdd. fold (setHas xs x).
  destruct (setHas xs x) eqn:Hhas.
  - apply setHas_correct in Hhas. split; [auto | intros [-> | ?]; auto].
  - rewrite elem_of_app, list_elem_of_singleton. tauto.
Qed.

Lemma NoDup_setAdd x xs : NoDup xs -> NoDup (setAdd x xs).
Proof.
  intros Hnd. unfold setAdd. fold (setHas xs x).
  destruct (setHas xs x) eqn:Hhas; [done|].
  apply setHas_false in Hhas.
  apply NoDup_app. split; [done|]. split; [|apply NoDup_singleton].
  intros y Hy ->%list_elem_of_singleton. done.
Qed.

Lemma elem_of_fold_setAdd xs init y :
  y ∈ fold_left (fun acc x => setAdd x acc) xs init <-> y ∈ xs \/ y ∈ init.
Proof.
  revert init. induction xs as [|x xs IH]; intros init; simpl.
  - rewrite elem_of_nil. tauto.
  - rewrite IH, elem_of_setAdd, elem_of_cons. tauto.
Qed.

Lemma NoDup_fold_setAdd xs init :
  NoDup init -> NoDup (fold_left (fun acc x => setAdd x acc) xs init).
Proof.
  revert init. induction xs as [|x xs IH]; intros init Hnd; simpl; [done|].
  by apply IH, NoDup_setAdd.
Qed.

Lemma fold_setAdd_map {A} (f : A -> string) xs init :
  fold_left (fun acc x => setAdd (f x) acc) xs init
  = fold_left (fun acc x => setAdd x acc) (map f xs) init.
Proof. revert init. induction xs as [|x xs IH]; intros init; simpl; [done|]. apply IH. Qed.

Lemma elem_of_setOf xs y : y ∈ setOf xs <-> y ∈ xs.
Proof.
  unfold setOf. rewrite elem_of_fold_setAdd, elem_of_nil. tauto.
Qed.

Lemma NoDup_setOf xs : NoDup (setOf xs).
Proof. apply NoDup_fold_setAdd, NoDup_nil_2. Qed.

(** Sorting keeps the elements. *)

Lemma insertSorted_Permutation x xs : insertSorted x xs ≡ₚ x :: xs.
Proof.
  induction xs as [|y ys IH]; simpl; [done|].
  destruct (String.ltb x y); [done|].
  rewrite IH. apply Permutation_swap.
Qed.

Lemma sort_Permutation xs : sort xs ≡ₚ xs.
Proof.
  unfold sort. transitivity (rev xs); [|symmetry; apply Permutation_rev].
  induction (rev xs) as [|y ys IH]; simpl; [done|].
  by rewrite insertSorted_Permutation, IH.
Qed.

Lemma elem_of_sort xs y : y ∈ sort xs <-> y ∈ xs.
Proof. by rewrite sort_Permutation. Qed.

(** Sorting sorts: each element is at most the next, in code-unit order. *)

Lemma ltb_false_leb x y : String.ltb x y = false -> String.leb y x = true.
Proof.
  unfold String.ltb, String.leb. rewrite (String.compare_antisym x y).
  destruct (String.compare y x); simpl; done.
Qed.

Lemma ltb_leb x y : String.ltb x y = true -> String.leb x y = true.
Proof.
  unfold String.ltb, String.leb. destruct (String.compare x y); done.
Qed.

Lemma insertSorted_Sorted x xs :
  Sorted (fun a b => String.leb a b = true) xs ->
  Sorted (fun a b => String.leb a b = true) (insertSorted x xs).
Proof.
  induction xs as [|y ys IH]; intros Hs; simpl.
  { by repeat constructor. }
  destruct (String.ltb x y) eqn:Hlt.
  - constructor; [done|]. constructor. by apply ltb_leb.
  - apply Sorted_inv in Hs as [Hs Hhd].
    constructor; [by apply IH|].
    destruct ys as [|z zs]; simpl.
    + constructor. by apply ltb_false_leb.
    + destruct (String.ltb x z); constructor;
        [by apply ltb_false_leb | by inversion Hhd].
Qed.

Lemma sort_Sorted xs : Sorted (fun a b => String.leb a b = true) (sort xs).
Proof.
  unfold sort. induction (rev xs) as [|y ys IH]; simpl; [constructor|].
  by apply insertSorted_Sorted.
Qed.

End JSFacts.

(** ** The declaration processor *)

Module DeclarationProcessorFacts.
Import TS DeclarationProcessor JS JSFacts Examples.









(** Pass 1 on export declarations: the empty marker goes with its line, and
    [export type] loses its [type]. *)
Example preProcess_export_declarations :
  outCode <$> preProcess markerThenExportFrom
  = Some ("export { Foo } from './foo';" +:+ Constants.newLine).
Proof. reflexivity. Qed.

(** Pass 1 removes the empty marker from the full start of its node, the
    directive included; the slice that [parseReferenceDirectives] then
    takes at the end of the directive's line has its anchor in the removed
    range, and magic-string throws. *)
Example preProcess_directive_before_marker :
  preProcess directiveThenMarker = None.
Proof. reflexivity. Qed.

(** C1 fails on the code. Pre-processing [import type { type } from 'x';]
    gives [import { type } from 'x';]; pre-processing that text, which the
    compiler parses as a plain import of [type], strips the binding itself
    and gives [import { } from 'x';]. *)
Theorem preProcess_not_idempotent :
  exists once twice,
    preProcess importTypeNamedType = Some once
    /\ outCode once = "import { type } from 'x';"
    /\ fullText importNamedType = outCode once
    /\ preProcess importNamedType = Some twice
    /\ outCode twice = "import { } from 'x';"
    /\ outCode twice <> outCode once.
Proof.
  eexists _, _. split; [reflexivity|]. split; [reflexivity|].
  split; [reflexivity|]. split; [reflexivity|]. split; [reflexivity|].
  discriminate.
Qed.

End DeclarationProcessorFacts.

(** ** The declaration bundler *)

Module DeclarationBundlerFacts.
Import TS DeclarationBundler JS JSFacts Examples.

(** *** Import merging *)

(** C8 fails on the code. The map of [mergeImports] is keyed by the
    specifier with [type:] put in front for type imports, and the prefix is
    stripped again when the statement is written: a plain import from the
    module [type:foo] and a plain import from [foo] leave two plain import
    statements from [foo]. *)
Theorem mergeImports_type_prefix_collision :
  mergeImports importsTypePrefix
  = [ "import { a } from " +:+ dquote +:+ "foo" +:+ dquote +:+ ";";
      "import { b } from " +:+ dquote +:+ "foo" +:+ dquote +:+ ";" ].
Proof. reflexivity. Qed.

(** The example of the documentation: one statement per module, names
    merged and sorted, the repeated namespace import kept once. *)
Example mergeImports_documented :
  mergeImports importsOfFoo
  = [ "import { A, B, C } from " +:+ dquote +:+ "foo" +:+ dquote +:+ ";";
      "import * as ns from 'bar';" ].
Proof. reflexivity. Qed.

(** What does hold of the result: one statement per key of the map, each
    with its names sorted and free of duplicates, and the other statements
    once each. *)

Lemma mapGet_mapSet {V} k (v : V) m k' :
  mapGet (mapSet k v m) k' = if String.eqb k k' then Some v else mapGet m k'.
Proof.
  induction m as [|[k0 v0] m IH]; simpl.
  - destruct (String.eqb k k'); done.
  - destruct (String.eqb_spec k0 k) as [->|Hne]; simpl.
    + destruct (String.eqb k k'); done.
    + rewrite IH. destruct (String.eqb_spec k k') as [Heq|]; [|done].
      subst k'. apply String.eqb_neq in Hne. by rewrite Hne.
Qed.

Lemma mapSet_keys {V} k (v : V) m :
  map fst (mapSet k v m)
  = if mapHas m k then map fst m else map fst m ++ [k].
Proof.
  unfold mapHas. induction m as [|[k0 v0] m IH]; simpl; [done|].
  destruct (String.eqb k0 k); simpl; [done|].
  rewrite IH. by destruct (mapGet m k).
Qed.

Lemma mapHas_keys {V} (m : list (string * V)) k :
  mapHas m k = true <-> k ∈ map fst m.
Proof.
  unfold mapHas. induction m as [|[k0 v0] m IH]; simpl.
  - rewrite elem_of_nil. split; [discriminate | done].
  - rewrite elem_of_cons. destruct (String.eqb_spec k0 k) as [->|Hne].
    + split; auto.
    + rewrite IH. split; [auto | intros [?|?]; [congruence | done]].
Qed.

Lemma NoDup_mapSet_keys {V} k (v : V) m :
  NoDup (map fst m) -> NoDup (map fst (mapSet k v m)).
Proof.
  intros Hnd. rewrite mapSet_keys. destruct (mapHas m k) eqn:Hhas; [done|].
  apply NoDup_app. split; [done|]. split; [|apply NoDup_singleton].
  intros x Hx ->%list_elem_of_singleton.
  apply mapHas_keys in Hx. congruence.
Qed.

Lemma elem_of_mapSet {V} k (v : V) m k' v' :
  (k', v') ∈ mapSet k v m -> (k' = k /\ v' = v) \/ (k', v') ∈ m.
Proof.
  induction m as [|[k0 v0] m IH]; simpl.
  - intros Hin%list_elem_of_singleton. simplify_eq. auto.
  - destruct (String.eqb_spec k0 k) as [->|Hne]; rewrite !elem_of_cons.
    + intros [Heq | Hin]; simplify_eq; auto.
    + intros [Heq | Hin]; [auto|]. destruct (IH Hin); auto.
Qed.

Lemma mapGet_elem_of {V} (m : list (string * V)) k v :
  mapGet m k = Some v -> (k, v) ∈ m.
Proof.
  induction m as [|[k0 v0] m IH]; simpl; [done|].
  destruct (String.eqb_spec k0 k) as [->|Hne].
  - intros [= ->]. apply elem_of_cons. auto.
  - intros H. apply elem_of_cons. auto.
Qed.

Lemma collectImport_collected acc statement :
  importsCollected acc -> importsCollected (collectImport acc statement).
Proof.
  destruct acc as [mi nm]. intros [Hkeys Hnames]. unfold collectImport.
  destruct (importPatternExec statement) as [[namesString moduleSpecifier]|];
    [|done].
  set (key := (if includes statement "import type" then "type:" else "")
              +:+ moduleSpecifier).
  set (mi1 := if mapHas mi key then mi
              else mapSet key (mkImportEntry [] (includes statement "import type")) mi).
  assert (H1 : importsCollected (mi1, nm)).
  { unfold mi1. destruct (mapHas mi key); [done|]. split; simpl.
    - by apply NoDup_mapSet_keys.
    - intros k e [[-> ->] | Hin]%elem_of_mapSet; [apply NoDup_nil_2 | eauto]. }
  destruct H1 as [Hkeys1 Hnames1]. simpl in Hkeys1, Hnames1.
  destruct (mapGet mi1 key) as [entry|] eqn:Hget; [|done].
  split; simpl.
  - by apply NoDup_mapSet_keys.
  - intros k e [[-> ->] | Hin]%elem_of_mapSet; [|eauto]. simpl.
    rewrite fold_setAdd_map.
    apply NoDup_fold_setAdd. eapply Hnames1. by apply mapGet_elem_of.
Qed.

Lemma mergeImports_shape (imports : list string) :
  exists moduleImports others,
    mergeImports imports = map renderImport moduleImports ++ others
    /\ NoDup (map fst moduleImports)
    /\ (forall k e, (k, e) ∈ moduleImports ->
          NoDup (sort (names e))
          /\ Sorted (fun a b => String.leb a b = true) (sort (names e)))
    /\ NoDup others.
Proof.
  unfold mergeImports.
  assert (Hinv : importsCollected (fold_left collectImport imports ([], []))).
  { assert (H0 : importsCollected ([], [])).
    { split; simpl; [apply NoDup_nil_2 | intros k e Hin; by apply elem_of_nil in Hin]. }
    revert H0. generalize (@nil (string * ImportEntry), @nil string).
    induction imports as [|i rest IH]; intros acc Hacc; simpl; [done|].
    by apply IH, collectImport_collected. }
  destruct (fold_left collectImport imports ([], [])) as [mi nm].
  destruct Hinv as [Hkeys Hnames]. simpl in Hkeys, Hnames.
  exists mi, (setOf nm). split; [done|]. split; [done|]. split.
  - intros k e Hin. split; [|apply sort_Sorted].
    rewrite sort_Permutation. eauto.
  - apply NoDup_setOf.
Qed.

(** *** The module graph *)

Section Graph.

Variable options : Options.
Variable resolvePath : string -> string.
Variable createSourceFile : string -> string -> SourceFile.
Variable resolveModule : string -> string -> option string.
Variable disk : gmap string string.
Variable preProcess : string -> string -> option CachedDeclaration.

(** The resolver answers with normalized paths: [sys.resolvePath] leaves
    them as they are. *)
Hypothesis resolveModule_normalized :
  forall specifier containingFile r,
    resolveModule specifier containingFile = Some r -> resolvePath r = r.

(** Every file the traversal can ever hold: in memory at the start, or on
    disk. *)
Variable universe : gset string.

Abbreviation visitG := (visit options resolvePath createSourceFile resolveModule disk preProcess).
Abbreviation visitSpecifiersG :=
  (visitSpecifiers options resolveModule disk preProcess).

Abbreviation wfG := (wf resolveModule universe).
Abbreviation visited_afterG := (visited_after resolvePath resolveModule universe).

Lemma resolved_Some specifier containingFile r :
  resolved resolveModule specifier containingFile = Some r ->
  resolveModule specifier containingFile = Some r.
Proof.
  unfold resolved. destruct (resolveModule specifier containingFile) as [r'|]; [|done].
  destruct (String.eqb r' ""); congruence.
Qed.

Lemma loadFromDisk_dom r files files' :
  loadFromDisk options disk preProcess r files = Some files' ->
  dom files ⊆ dom files' /\ dom files' ⊆ dom files ∪ dom disk.
Proof.
  unfold loadFromDisk. destruct (files !! r) eqn:Hr.
  { intros [= <-]. set_solver. }
  destruct (resolve options); [|intros [= <-]; set_solver].
  destruct (disk !! r) as [raw|] eqn:Hd; [|intros [= <-]; set_solver].
  destruct (preProcess r raw) as [d|]; [|done].
  intros [= <-]. rewrite dom_insert_L.
  assert (r ∈ dom disk) by (apply elem_of_dom; eauto). set_solver.
Qed.

Lemma loadFromDisk_None r files :
  loadFromDisk options disk preProcess r files = None ->
  preProcessThrows disk preProcess.
Proof.
  unfold loadFromDisk. destruct (files !! r); [done|].
  destruct (resolve options); [|done].
  destruct (disk !! r) as [raw|] eqn:Hd; [|done].
  destruct (preProcess r raw) eqn:Hp; [done|].
  intros _. by exists r, raw.
Qed.

Lemma size_unvisited_mono (v v' : gset string) :
  v ⊆ v' -> size (universe ∖ v') <= size (universe ∖ v).
Proof. intros H. apply subseteq_size. set_solver. Qed.

Lemma size_unvisited_fresh (v : gset string) p :
  p ∈ universe -> p ∉ v -> size (universe ∖ ({[p]} ∪ v)) < size (universe ∖ v).
Proof.
  intros Hu Hv. apply subset_size. split; [set_solver|].
  intros H. specialize (H p). set_solver.
Qed.

(** The invariant does not read the [lastIndex] values. *)
Lemma wf_withLastIndexes indexes st : wfG st -> wfG (withLastIndexes indexes st).
Proof. intros [H1 H2 H3 H4 H5]. by split. Qed.

(** The loop over the specifiers of one module, given that the recursive
    calls behave. *)
Lemma visitSpecifiers_spec (rec : GraphState -> string -> Run GraphState)
    (n : nat) (path : string) :
  dom disk ⊆ universe ->
  (forall st p, wfG st -> resolvePath p ∈ dom (declarationFiles st) ->
                size (universe ∖ visited st) < n ->
                match rec st p with
                | Finished st' => visited_afterG st p st'
                | Raised => preProcessThrows disk preProcess
                | OutOfFuel => False
                end) ->
  forall specifiers st moduleImports bundledSpecs,
    wfG st -> size (universe ∖ visited st) < n ->
    (forall q, q ∈ moduleImports -> q ∈ visited st) ->
    (forall s, s ∈ bundledSpecs ->
               exists r, resolveModule s path = Some r /\ r ∈ visited st) ->
    match visitSpecifiersG rec path specifiers st moduleImports bundledSpecs with
    | Finished (st', moduleImports', bundledSpecs') =>
        wfG st' /\ visited st ⊆ visited st' /\ pending st' ⊆ pending st
        /\ (forall q, q ∈ moduleImports' -> q ∈ visited st')
        /\ (forall s, s ∈ bundledSpecs' ->
                      exists r, resolveModule s path = Some r /\ r ∈ visited st')
    | Raised => preProcessThrows disk preProcess
    | OutOfFuel => False
    end.
Proof.
  intros Hdisk Hrec.
  induction specifiers as [|specifier rest IH];
    intros st moduleImports bundledSpecs Hwf Hsize Himports Hbundled.
  { simpl. done. }
  cbn [visitSpecifiers].
  destruct (matchesPattern specifier (external options) (lastIndexes st))
    as [explicit indexes1].
  set (stA := withLastIndexes indexes1 st).
  assert (HwfA : wfG stA) by by apply wf_withLastIndexes.
  destruct explicit; [by apply (IH stA)|].
  destruct (resolved resolveModule specifier path) as [r|] eqn:Hres;
    [|by apply (IH stA)].
  apply resolved_Some in Hres.
  destruct (skipsPackage options specifier r (lastIndexes stA))
    as [skipped indexes2].
  set (stB := withLastIndexes indexes2 stA).
  assert (HwfB : wfG stB) by by apply wf_withLastIndexes.
  destruct skipped; [by apply (IH stB)|].
  destruct (loadFromDisk options disk preProcess r (declarationFiles stB))
    as [files|] eqn:Hload; [|by apply loadFromDisk_None in Hload].
  apply loadFromDisk_dom in Hload as [Hgrow Hbound].
  set (st1 := mkGraphState files (modules stB) (visited stB) (bundledSpecifiers stB)
                (lastIndexes stB)).
  assert (Hwf1 : wfG st1).
  { destruct Hwf. split; simpl; try done; set_solver. }
  destruct (files !! r) as [d|] eqn:Hr; [|by apply (IH st1)].
  specialize (Hrec st1 r Hwf1).
  rewrite (resolveModule_normalized _ _ _ Hres) in Hrec.
  specialize (Hrec ltac:(simpl; apply elem_of_dom; eauto) Hsize).
  destruct (rec st1 r) as [st2| |]; [|exact Hrec|destruct Hrec].
  destruct Hrec as (Hwf2 & Hsub2 & Hr2 & Hpend2). simpl in Hsub2.
  rewrite (resolveModule_normalized _ _ _ Hres) in Hr2.
  assert (Hsize2 : size (universe ∖ visited st2) < n).
  { pose proof (size_unvisited_mono _ _ Hsub2). lia. }
  assert (Himports2 : forall q, q ∈ setAdd r moduleImports -> q ∈ visited st2).
  { intros q [-> | Hq]%elem_of_setAdd; [done | set_solver]. }
  assert (Hbundled2 : forall s, s ∈ bundledSpecs ++ [specifier] ->
                        exists r', resolveModule s path = Some r' /\ r' ∈ visited st2).
  { intros s [Hs | ->%list_elem_of_singleton]%elem_of_app; [|eauto].
    destruct (Hbundled s Hs) as (r' & ? & ?). exists r'. set_solver. }
  specialize (IH st2 (setAdd r moduleImports) (bundledSpecs ++ [specifier])
                Hwf2 Hsize2 Himports2 Hbundled2).
  destruct (visitSpecifiersG rec path rest st2 (setAdd r moduleImports)
              (bundledSpecs ++ [specifier])) as [[[st' mi'] bs']| |];
    [|exact IH|exact IH].
  destruct IH as (Hwf' & Hsub' & Hpend' & Hi' & Hb').
  split; [done|]. split; [set_solver|]. split; [|done].
  etrans; [exact Hpend'|]. exact Hpend2.
Qed.

(** [visit] keeps the invariant, and never runs out of fuel when given more
    than the number of unvisited files. *)
Lemma visit_spec (fuel : nat) :
  dom disk ⊆ universe ->
  forall st path,
    wfG st -> resolvePath path ∈ dom (declarationFiles st) ->
    size (universe ∖ visited st) < fuel ->
    match visitG fuel st path with
    | Finished st' => visited_afterG st path st'
    | Raised => preProcessThrows disk preProcess
    | OutOfFuel => False
    end.
Proof.
  intros Hdisk. induction fuel as [|fuel IH]; intros st path Hwf Hin Hsize; [lia|].
  cbn [visit]. case_bool_decide as Hvis.
  { split; [done|]. split; [done|]. split; done. }
  set (p := resolvePath path) in *.
  set (st0 := mkGraphState (declarationFiles st) (modules st)
                ({[p]} ∪ visited st) (bundledSpecifiers st) (lastIndexes st)).
  assert (Hwf0 : wfG st0).
  { destruct Hwf as [H1 H2 H3 H4 H5]. split; simpl; try done.
    - set_solver.
    - set_solver.
    - intros ? ? ? ? ?. apply elem_of_union_r. eauto.
    - intros ? ? ? Hl Hs. destruct (H5 _ _ _ Hl Hs) as (r & ? & ?).
      exists r. set_solver. }
  assert (Hsize0 : size (universe ∖ visited st0) < fuel).
  { simpl. pose proof (size_unvisited_fresh (visited st) p) as Hlt.
    destruct Hwf as [H1 _ _ _ _].
    specialize (Hlt ltac:(set_solver) Hvis). lia. }
  apply elem_of_dom in Hin as [cached Hcached].
  change (declarationFiles st0) with (declarationFiles st). rewrite Hcached.
  pose proof (visitSpecifiers_spec (visitG fuel) fuel p Hdisk IH
                (extractImports (createSourceFile p (code cached))) st0 [] []
                Hwf0 Hsize0) as Hloop.
  specialize (Hloop ltac:(by intros q Hq%elem_of_nil)
                ltac:(by intros s Hs%elem_of_nil)).
  destruct (visitSpecifiersG (visitG fuel) p
              (extractImports (createSourceFile p (code cached))) st0 [] [])
    as [[[st' mi] bs]| |]; [|exact Hloop|exact Hloop].
  destruct Hloop as (Hwf' & Hsub' & Hpend' & Hi' & Hb').
  simpl in Hsub'. unfold visited_after.
  assert (Hp' : p ∈ visited st') by set_solver.
  split; [|split; [|split]].
  - destruct Hwf' as [H1 H2 H3 H4 H5]. split; simpl; try done.
    + rewrite dom_insert_L. set_solver.
    + intros p0 m q Hl Hq.
      destruct (decide (p = p0)) as [<-|Hne].
      * rewrite lookup_insert_eq in Hl. injection Hl as <-. simpl in Hq. auto.
      * rewrite lookup_insert_ne in Hl by done. eauto.
    + intros p0 specs s Hl Hs.
      destruct (decide (p = p0)) as [<-|Hne].
      * rewrite lookup_insert_eq in Hl. injection Hl as <-. auto.
      * rewrite lookup_insert_ne in Hl by done. eauto.
  - simpl. set_solver.
  - done.
  - unfold pending in *. simpl in *. rewrite dom_insert_L. set_solver.
Qed.

(** More fuel does not change a result. *)
Lemma visitSpecifiers_refines rec1 rec2 path :
  refines rec1 rec2 ->
  forall specifiers st moduleImports bundledSpecs r,
    visitSpecifiersG rec1 path specifiers st moduleImports bundledSpecs = r ->
    r <> OutOfFuel ->
    visitSpecifiersG rec2 path specifiers st moduleImports bundledSpecs = r.
Proof.
  intros Href. induction specifiers as [|specifier rest IH];
    intros st moduleImports bundledSpecs r; [done|].
  cbn [visitSpecifiers].
  destruct (matchesPattern specifier (external options) (lastIndexes st))
    as [explicit indexes1].
  destruct explicit; [apply IH|].
  destruct (resolved resolveModule specifier path) as [rp|]; [|apply IH].
  destruct (skipsPackage options specifier rp _) as [skipped indexes2].
  destruct skipped; [apply IH|].
  destruct (loadFromDisk options disk preProcess rp _) as [files|]; [|done].
  destruct (files !! rp); [|apply IH].
  destruct (rec1 _ rp) as [st2| |] eqn:Hrec1.
  - rewrite (Href _ _ _ Hrec1) by done. apply IH.
  - rewrite (Href _ _ _ Hrec1) by done. done.
  - intros <- Hne. done.
Qed.

Lemma visit_fuel_mono n m : n <= m -> refines (visitG n) (visitG m).
Proof.
  revert m. induction n as [|n IH]; intros m Hle st path r.
  { intros <- Hne. done. }
  destruct m as [|m]; [lia|]. cbn [visit].
  case_bool_decide; [done|].
  destruct (declarationFiles _ !! resolvePath path) as [cached|]; [|done].
  destruct (visitSpecifiersG (visitG n) _ _ _ _ _) as [[[st' mi] bs]| |] eqn:Hloop.
  - rewrite (visitSpecifiers_refines (visitG n) (visitG m) _
               (IH m ltac:(lia)) _ _ _ _ _ Hloop) by done. done.
  - rewrite (visitSpecifiers_refines (visitG n) (visitG m) _
               (IH m ltac:(lia)) _ _ _ _ _ Hloop) by done. done.
  - intros <- Hne. done.
Qed.

End Graph.

(** The final state of the traversal from the entry: the invariant holds,
    and no visited path is left without its module. *)
Lemma visit_entry (options : Options)
    (resolvePath : string -> string)
    (createSourceFile : string -> string -> SourceFile)
    (resolveModule : string -> string -> option string)
    (disk : gmap string string)
    (preProcess : string -> string -> option CachedDeclaration)
    (files : gmap string CachedDeclaration) (indexes : LastIndexes)
    (entryPoint : string) :
  (forall specifier containingFile r,
     resolveModule specifier containingFile = Some r -> resolvePath r = r) ->
  is_Some (files !! resolvePath entryPoint) ->
  match visit options resolvePath createSourceFile resolveModule disk preProcess
          (enoughFuel disk files) (mkGraphState files ∅ ∅ ∅ indexes) entryPoint with
  | Finished st =>
      wf resolveModule (dom files ∪ dom disk) st
      /\ resolvePath entryPoint ∈ visited st
      /\ visited st ⊆ dom (modules st)
  | Raised => preProcessThrows disk preProcess
  | OutOfFuel => False
  end.
Proof.
  intros Hnorm Hentry. unfold enoughFuel.
  set (universe := dom files ∪ dom disk).
  set (st0 := mkGraphState files ∅ ∅ ∅ indexes).
  assert (Hwf0 : wf resolveModule universe st0).
  { split; simpl; [set_solver | set_solver | set_solver | |].
    - intros p m q Hl. by rewrite lookup_empty in Hl.
    - intros p specs s Hl. by rewrite lookup_empty in Hl. }
  pose proof (visit_spec options resolvePath createSourceFile resolveModule
                disk preProcess Hnorm universe (S (size universe))
                ltac:(set_solver) st0 entryPoint Hwf0) as Hspec.
  specialize (Hspec ltac:(simpl; by apply elem_of_dom)
                ltac:(simpl; apply Nat.lt_succ_r, subseteq_size; set_solver)).
  destruct (visit options resolvePath createSourceFile resolveModule disk
              preProcess (S (size universe)) st0 entryPoint) as [st| |];
    [|exact Hspec|exact Hspec].
  destruct Hspec as (Hwf & _ & Hin & Hpend).
  split; [done|]. split; [done|].
  unfold pending in Hpend. simpl in Hpend. intros q Hq.
  destruct (decide (q ∈ dom (modules st))); [done|]. set_solver.
Qed.

(** The recursion bound is immaterial: any larger one gives the same
    graph. *)
Lemma buildModuleGraph_more_fuel (options : Options)
    (resolvePath : string -> string)
    (createSourceFile : string -> string -> SourceFile)
    (resolveModule : string -> string -> option string)
    (disk : gmap string string)
    (preProcess : string -> string -> option CachedDeclaration)
    (files : gmap string CachedDeclaration) (indexes : LastIndexes)
    (entryPoint : string) (fuel : nat) :
  (forall specifier containingFile r,
     resolveModule specifier containingFile = Some r -> resolvePath r = r) ->
  is_Some (files !! resolvePath entryPoint) ->
  enoughFuel disk files <= fuel ->
  buildModuleGraph options resolvePath createSourceFile resolveModule disk
    preProcess fuel files indexes entryPoint
  = buildModuleGraph options resolvePath createSourceFile resolveModule disk
      preProcess (enoughFuel disk files) files indexes entryPoint.
Proof.
  intros Hnorm Hentry Hle. unfold buildModuleGraph.
  pose proof (visit_entry options resolvePath createSourceFile resolveModule
                disk preProcess files indexes entryPoint Hnorm Hentry) as Hend.
  pose proof (visit_fuel_mono options resolvePath createSourceFile resolveModule
                disk preProcess _ _ Hle (mkGraphState files ∅ ∅ ∅ indexes)
                entryPoint _ eq_refl) as Hmono.
  destruct (visit options resolvePath createSourceFile resolveModule disk
              preProcess (enoughFuel disk files) _ entryPoint) as [st| |];
    [by rewrite Hmono | by rewrite Hmono | done].
Qed.

(** Where the resolver answers with normalized paths and the entry is
    present in the declaration files, the module graph holds the entry and
    every path reachable from it through the [imports] sets of its modules,
    and every specifier listed in [bundledSpecifiers[p]] resolves, from
    [p], to a path that is a key of [modules]. The traversal ends within
    the recursion bound; it is cut short only by an exception of the
    pre-processing of a file read from disk. *)
Lemma buildModuleGraph_closed_when_normalized (options : Options)
    (resolvePath : string -> string)
    (createSourceFile : string -> string -> SourceFile)
    (resolveModule : string -> string -> option string)
    (disk : gmap string string)
    (preProcess : string -> string -> option CachedDeclaration)
    (files : gmap string CachedDeclaration) (indexes : LastIndexes)
    (entryPoint : string) :
  (forall specifier containingFile r,
     resolveModule specifier containingFile = Some r -> resolvePath r = r) ->
  is_Some (files !! resolvePath entryPoint) ->
  match buildModuleGraph options resolvePath createSourceFile resolveModule
          disk preProcess (enoughFuel disk files) files indexes entryPoint with
  | Finished g => graphClosed resolveModule (resolvePath entryPoint) g
  | Raised => preProcessThrows disk preProcess
  | OutOfFuel => False
  end.
Proof.
  intros Hnorm Hentry. unfold buildModuleGraph.
  pose proof (visit_entry options resolvePath createSourceFile resolveModule
                disk preProcess files indexes entryPoint Hnorm Hentry) as Hend.
  destruct (visit options resolvePath createSourceFile resolveModule disk
              preProcess (enoughFuel disk files) _ entryPoint) as [st| |];
    [|exact Hend|exact Hend].
  destruct Hend as ([_ _ _ Himports Hbundled] & Hin & Hall).
  split; [by apply Hall|]. split.
  - intros q Hreach. induction Hreach as [|p m q _ IH Hl Hq]; [by apply Hall|].
    apply Hall. eapply Himports; [exact Hl|]. by apply list_elem_of_In.
  - intros p specs s Hl Hs. simpl in Hl.
    destruct (Hbundled p specs s Hl Hs) as (r & Hr & Hv). eauto.
Qed.

(** C7 fails on the code. The entry imports [./types]; the resolver
    answers [C:/p/dist/types.d.ts], a path that [sys.resolvePath] writes
    with backslashes. The file is read from disk and stored under the
    resolver's path, which also goes into the [imports] of the entry;
    [visit] then normalizes the path and stores the module under the
    normalized one. The graph holds no module under the path in [imports],
    so a path reachable from the entry is not a key of [modules], and the
    bundled specifier [./types] resolves to a path that is not a key
    either. *)
Theorem buildModuleGraph_import_outside_modules :
  exists g entryModule,
    buildModuleGraph bundleFromDisk toBackslashes parseDriveFiles
      resolveDriveFiles driveDisk (fun _ text => Some (mkCached text [] []))
      (enoughFuel driveDisk driveFiles) driveFiles ∅ driveIndexPath
    = Finished g
    /\ toBackslashes driveIndexPath = driveIndexPath
    /\ graphModules g !! driveIndexPath = Some entryModule
    /\ imports entryModule = [resolvedTypesPath]
    /\ graphModules g !! resolvedTypesPath = None
    /\ is_Some (graphModules g !! toBackslashes resolvedTypesPath)
    /\ graphBundledSpecifiers g !! driveIndexPath = Some ["./types"]
    /\ resolveDriveFiles "./types" driveIndexPath = Some resolvedTypesPath
    /\ ~ graphClosed resolveDriveFiles driveIndexPath g.
Proof.
  eexists _, _. split; [vm_compute; reflexivity|].
  split; [reflexivity|]. split; [vm_compute; reflexivity|].
  split; [reflexivity|]. split; [vm_compute; reflexivity|].
  split; [eexists; vm_compute; reflexivity|].
  split; [vm_compute; reflexivity|]. split; [reflexivity|].
  intros (_ & Hreach & _).
  specialize (Hreach resolvedTypesPath).
  match type of Hreach with ?P -> _ => assert (H : P) end.
  { eapply reachable_import; [apply reachable_entry | vm_compute; reflexivity |].
    left. reflexivity. }
  apply Hreach, elem_of_dom in H as [m Hm]. vm_compute in Hm. discriminate Hm.
Qed.
End DeclarationBundlerFacts.

(** ** Paths *)

Module PathsFacts.
Import Paths.

Lemma code_eqb (c : ascii) (n : nat) :
  n < 256 -> Nat.eqb (nat_of_ascii c) n = Ascii.eqb c (ascii_of_nat n).
Proof.
  intros Hn. destruct (Ascii.eqb_spec c (ascii_of_nat n)) as [->|Hne].
  - rewrite nat_ascii_embedding by done. apply Nat.eqb_refl.
  - apply Nat.eqb_neq. intros H. apply Hne. rewrite <- H.
    symmetry. apply ascii_nat_embedding.
Qed.

(** Case analysis on the character tests of a goal. *)
Ltac split_chars :=
  repeat first
    [ match goal with
      | |- context [Ascii.eqb ?a ?b] =>
          is_var a; destruct (Ascii.eqb_spec a b); [subst a|]
      end
    | match goal with
      | |- context [Ascii.eqb ?a ?b] =>
          is_var b; destruct (Ascii.eqb_spec a b); [subst b|]
      end
    | match goal with
      | |- context [Ascii.eqb ?a ?b] =>
          let v := eval vm_compute in (Ascii.eqb a b) in
          change (Ascii.eqb a b) with v
      end ].

Lemma isPath_bool (path : string) :
  isPath path
  = JS.isPrefix "/" path || String.eqb path "." || JS.isPrefix "./" path
    || String.eqb path ".." || JS.isPrefix "../" path
    || match path with
       | String d (String c (String sep _)) =>
           Nat.leb 65 (nat_of_ascii d) && Nat.leb (nat_of_ascii d) 90
           && Ascii.eqb c ":" && (Ascii.eqb sep "/" || Ascii.eqb sep "\")
       | _ => false
       end.
Proof.
  unfold isPath, codeIs, charCodeAt.
  destruct path as [|c0 [|c1 [|c2 rest]]];
    cbn [String.length String.get option_map Nat.eqb JS.isPrefix String.eqb];
    rewrite ?code_eqb by lia;
    change (ascii_of_nat 47) with "/"%char;
    change (ascii_of_nat 46) with "."%char;
    change (ascii_of_nat 58) with ":"%char;
    change (ascii_of_nat 92) with "\"%char.
  all: split_chars; try congruence; cbn [andb orb];
    rewrite ?andb_false_r, ?andb_true_r, ?orb_false_r, ?orb_true_r;
    try reflexivity.
  all: by destruct (Nat.leb 65 _), (Nat.leb _ 90).
Qed.

Lemma driveRooted_bool (path : string) :
  match path with
  | String d (String c (String sep _)) =>
      Nat.leb 65 (nat_of_ascii d) && Nat.leb (nat_of_ascii d) 90
      && Ascii.eqb c ":" && (Ascii.eqb sep "/" || Ascii.eqb sep "\")
  | _ => false
  end = true <-> driveRooted path.
Proof.
  unfold driveRooted.
  destruct path as [|c0 [|c1 [|c2 rest]]];
    try (split; [discriminate | intros (d & sep & r & H & _); discriminate]).
  rewrite !andb_true_iff, orb_true_iff, !Ascii.eqb_eq, !Nat.leb_le.
  split.
  - intros [[[H1 H2] ->] H3]. eauto 10.
  - intros (d & sep & r & [= -> -> -> ->] & H1 & H2). done.
Qed.

Lemma isPath_local (path : string) :
  (isPath path = true <-> localSpecifier path)
  /\ (isPath path = false <-> ~ localSpecifier path).
Proof.
  assert (H : isPath path = true <-> localSpecifier path).
  { rewrite isPath_bool. unfold localSpecifier, JS.startsWith.
    rewrite !orb_true_iff, !String.eqb_eq, driveRooted_bool. tauto. }
  split; [done|]. rewrite <- H. by destruct (isPath path).
Qed.

(** X1. [Paths.isPath] accepts exactly the specifiers that start with a
    slash, are [.] or [..], start with [./] or [../], or start with an
    upper-case drive letter, a colon and a slash or backslash. Everything
    else is a bare specifier: the empty string, a dot-file name such as
    [.hidden], a lower-case drive letter. *)
Theorem isPath_characterized (path : string) :
  (isPath path = true <-> localSpecifier path)
  /\ isPath "" = false /\ isPath ".hidden" = false /\ isPath "c:/file" = false.
Proof.
  split; [apply isPath_local | by vm_compute].
Qed.

End PathsFacts.

(** ** The external-modules plugin *)

Module ExternalModulesFacts.
Import DeclarationBundler ExternalModules Examples.

(** Stateless patterns answer by the text alone, and leave every
    [lastIndex] as it is. *)
Lemma match_stateless (id : string) (patterns : list Pattern)
    (indexes : JS.LastIndexes) :
  forallb stateless patterns = true ->
  match_ id patterns indexes = (existsb (matchesText id) patterns, indexes).
Proof.
  induction patterns as [|pattern rest IH]; [done|]. cbn [forallb match_ existsb].
  intros [Hp Hrest]%andb_true_iff.
  assert (Hone : matchOne id pattern indexes = (matchesText id pattern, indexes)).
  { destruct pattern as [p|r]; [done|]. cbn in *. unfold JS.test.
    apply negb_true_iff in Hp. by rewrite Hp. }
  rewrite Hone. destruct (matchesText id pattern); [done|]. by apply IH.
Qed.

(** X2. The decision of the plugin, call by call. [noExternal] is tested
    first, from the [lastIndex] values the call finds, and [dependencies]
    only when no [noExternal] pattern matched, from the values the first
    test left. The plugin leaves a module to the bundler ([undefined])
    exactly when the first test succeeds, or the second fails on a local
    path; it answers [{ external }] exactly when the second test succeeds,
    and [{ path, external }] exactly for a bare specifier on which both
    fail. The call leaves the [lastIndex] values of the last test it ran.
    When every pattern is a string or a [RegExp] without the [g] and the
    [y] flag, each test is decided by the text alone and no [lastIndex]
    changes. *)
Theorem onResolve_decision (dependencies noExternal : list Pattern)
    (path : string) (indexes : JS.LastIndexes) :
  let bundled := match_ path noExternal indexes in
  let dependency := match_ path dependencies (snd bundled) in
  let answer := onResolve dependencies noExternal path indexes in
  (fst answer = Undefined
   <-> fst bundled = true
       \/ (fst dependency = false /\ Paths.localSpecifier path))
  /\ (fst answer = External None
      <-> fst bundled = false /\ fst dependency = true)
  /\ (forall p, fst answer = External (Some p)
      <-> p = path /\ fst bundled = false
          /\ fst dependency = false /\ ~ Paths.localSpecifier path)
  /\ snd answer = (if fst bundled then snd bundled else snd dependency)
  /\ (forallb stateless noExternal = true ->
      forallb stateless dependencies = true ->
      fst bundled = existsb (matchesText path) noExternal
      /\ fst dependency = existsb (matchesText path) dependencies
      /\ snd answer = indexes).
Proof.
  cbn zeta.
  destruct (PathsFacts.isPath_local path) as [Hl Hn]. unfold onResolve.
  assert (Hpure : forallb stateless noExternal = true ->
                  forallb stateless dependencies = true ->
                  match_ path noExternal indexes
                  = (existsb (matchesText path) noExternal, indexes)
                  /\ match_ path dependencies indexes
                     = (existsb (matchesText path) dependencies, indexes)).
  { intros H1 H2. by rewrite !match_stateless. }
  destruct (match_ path noExternal indexes) as [bundled indexes1] eqn:Hb.
  cbn [fst snd].
  assert (Hpure' : forallb stateless noExternal = true ->
                   forallb stateless dependencies = true ->
                   bundled = existsb (matchesText path) noExternal
                   /\ indexes1 = indexes
                   /\ match_ path dependencies indexes1
                      = (existsb (matchesText path) dependencies, indexes)).
  { intros H1 H2. destruct (Hpure H1 H2) as [[= -> ->] Hd]. done. }
  clear Hpure.
  destruct (match_ path dependencies indexes1) as [dependency indexes2] eqn:Hd.
  destruct bundled, dependency, (Paths.isPath path); cbn [fst snd negb].
  all: try (assert (HL : Paths.localSpecifier path) by (by apply Hl)).
  all: try (assert (HN : ~ Paths.localSpecifier path) by (by apply Hn)).
  all: clear Hl Hn.
  all: split; [|split; [|split; [intros p|split; [done|]]]].
  all: try (intros H1 H2; destruct (Hpure' H1 H2) as (<- & -> & [= <- <-]); done).
  all: split; try discriminate; try tauto.
  all: try (intros [H | [H1 H2]]; done).
  all: try (intros [H1 H2]; discriminate).
  all: try (intros (H1 & H2 & H3 & H4); done).
  - intros [= <-]. done.
  - intros (-> & _). done.
Qed.

(** With string patterns the tests of [lib/deep] are decided by the
    text. *)
Lemma onResolve_decision_witness :
  fst (match_ "lib/deep" [PatternString "lib"] ∅)
  = existsb (matchesText "lib/deep") [PatternString "lib"]
  /\ fst (match_ "lib/deep" [PatternString "react"]
            (snd (match_ "lib/deep" [PatternString "lib"] ∅)))
     = existsb (matchesText "lib/deep") [PatternString "react"]
  /\ snd (onResolve [PatternString "react"] [PatternString "lib"] "lib/deep" ∅)
     = ∅.
Proof.
  exact (proj2 (proj2 (proj2 (proj2
           (onResolve_decision [PatternString "react"] [PatternString "lib"]
              "lib/deep" ∅))))
           eq_refl eq_refl).
Defined.

(** With a sticky [RegExp] the answer depends on the calls made before:
    the first call leaves [lib] to the bundler and moves [lastIndex] to the
    end of the match; the next call, on the same path, finds no match from
    there and marks [lib] external. *)
Lemma onResolve_twice_with_sticky_pattern :
  let first := onResolve [] [PatternRegExp stickyLib] "lib" ∅ in
  let second := onResolve [] [PatternRegExp stickyLib] "lib" (snd first) in
  fst first = Undefined
  /\ JS.lastIndex stickyLib (snd first) = 3
  /\ fst second = External (Some "lib")
  /\ JS.lastIndex stickyLib (snd second) = 0.
Proof. cbn zeta. repeat split; vm_compute; reflexivity. Qed.

End ExternalModulesFacts.

(** ** The declaration store: output and entry points *)

Module StoreOutputFacts.
Import FileManager.

Section Output.

Variable relative : string -> string -> string.
Variable filesWrite : string -> string -> bool.

Lemma promiseAll_Returned {A} (tasks : list (Outcome A)) (l : list A) :
  promiseAll tasks = Returned l <-> tasks = map Returned l.
Proof.
  revert l. induction tasks as [|[a|] rest IH]; intros l; simpl.
  - split; [intros [= <-]; done | by destruct l].
  - destruct (promiseAll rest) as [l'|] eqn:Hrest.
    + split.
      * intros [= <-]. simpl. f_equal. by apply IH.
      * destruct l as [|b l]; [done|]. intros [= -> Hl]. apply IH in Hl.
        congruence.
    + split; [done|]. destruct l as [|b l]; [done|]. intros [= -> Hl].
      apply IH in Hl. done.
  - split; [done | by destruct l].
Qed.

Lemma promiseAll_Threw {A} (tasks : list (Outcome A)) :
  promiseAll tasks = Threw <-> Threw ∈ tasks.
Proof.
  induction tasks as [|[a|] rest IH]; simpl.
  - split; [done | by intros ?%elem_of_nil].
  - destruct (promiseAll rest) as [l'|].
    + split; [done|]. intros [?|H]%elem_of_cons; [done|]. by apply IH in H.
    + split; [|done]. intros _. apply elem_of_cons. right. by apply IH.
  - split; [|done]. intros _. apply elem_of_cons. by left.
Qed.

Lemma elem_of_writes (fm : t) (projectDirectory p c : string) :
  (p, c) ∈ snd (writeFiles relative filesWrite fm projectDirectory)
  <-> exists d, declarationFiles fm !! p = Some d /\ c = code d
                /\ filesWrite p c = true.
Proof.
  unfold writeFiles.
  destruct (Nat.eqb_spec (size (declarationFiles fm)) 0) as [Hz|Hnz]; simpl.
  - apply map_size_empty_iff in Hz. rewrite Hz.
    split; [by intros ?%elem_of_nil|].
    intros (d & Hd & _). by rewrite lookup_empty in Hd.
  - rewrite list_elem_of_fmap. split.
    + intros ([p' d] & [= -> ->] & Hin).
      apply list_elem_of_In, filter_In in Hin as [Hin Hw].
      apply list_elem_of_In, elem_of_map_to_list in Hin. eauto.
    + intros (d & Hd & -> & Hw). exists (p, d). split; [done|].
      apply list_elem_of_In, filter_In. split; [|done].
      by apply list_elem_of_In, elem_of_map_to_list.
Qed.

(** X3. [writeFiles] puts on disk, under its own path, the pre-processed
    code of every stored declaration whose write succeeds, and nothing
    else; no path is written twice. The call is rejected exactly when some
    write fails, and the other files are written all the same. When it
    returns, it reports one entry per stored declaration: its path relative
    to the project directory and the length of its code. *)
Theorem writeFiles_writes_the_store (fm : t) (projectDirectory : string) :
  let '(o, writes) := writeFiles relative filesWrite fm projectDirectory in
  (forall p c, (p, c) ∈ writes
     <-> exists d, declarationFiles fm !! p = Some d /\ c = code d
                   /\ filesWrite p c = true)
  /\ NoDup (map fst writes)
  /\ (o = Threw
      <-> exists p d, declarationFiles fm !! p = Some d
                      /\ filesWrite p (code d) = false)
  /\ (forall l, o = Returned l ->
        length l = size (declarationFiles fm)
        /\ forall f, f ∈ l
             <-> exists p d, declarationFiles fm !! p = Some d
                   /\ f = mkWrittenFile (relative projectDirectory p)
                            (String.length (code d))).
Proof.
  pose proof (elem_of_writes fm projectDirectory) as Hwrites.
  unfold writeFiles in *.
  destruct (Nat.eqb_spec (size (declarationFiles fm)) 0) as [Hz|Hnz];
    simpl in Hwrites.
  - split; [exact Hwrites|]. clear Hwrites.
    apply map_size_empty_iff in Hz. rewrite Hz.
    split; [|split].
    + apply NoDup_nil_2.
    + split; [done|]. intros (p & d & Hd & _). by rewrite lookup_empty in Hd.
    + intros l [= <-]. split; [by rewrite map_size_empty|].
      intros f. split; [by intros ?%elem_of_nil|].
      intros (p & d & Hd & _). by rewrite lookup_empty in Hd.
  - set (entries := map_to_list (declarationFiles fm)).
    assert (Hentries : forall p d, (p, d) ∈ entries
                                   <-> declarationFiles fm !! p = Some d).
    { intros p d. apply elem_of_map_to_list. }
    assert (Hnodup : NoDup (map fst entries)).
    { apply NoDup_fst_map_to_list. }
    split; [|split; [|split]].
    + exact Hwrites.
    + clear Hwrites. revert Hnodup. generalize entries. clear.
      induction entries as [|[p d] rest IH]; simpl; [intros; apply NoDup_nil_2|].
      intros [Hp Hrest]%NoDup_cons.
      destruct (filesWrite p (code d)); simpl; [|by apply IH].
      apply NoDup_cons. split; [|by apply IH].
      intros Hin. apply Hp.
      apply list_elem_of_fmap in Hin as ([p' c] & -> & Hin).
      apply list_elem_of_fmap in Hin as ([p'' d'] & [= -> ->] & Hin).
      apply list_elem_of_In, filter_In in Hin as [Hin _].
      apply list_elem_of_fmap. exists (p'', d'). split; [done|].
      by apply list_elem_of_In.
    + rewrite promiseAll_Threw, list_elem_of_fmap. unfold writeFile. split.
      * intros ([p d] & Hthrew & Hin). simpl in Hthrew.
        destruct (filesWrite p (code d)) eqn:Hw; [done|].
        apply Hentries in Hin. eauto.
      * intros (p & d & Hd & Hw). exists (p, d). simpl. rewrite Hw.
        split; [done | by apply Hentries].
    + intros l Hl. apply promiseAll_Returned in Hl.
      assert (Hlen : length l = length entries).
      { apply (f_equal length) in Hl. by rewrite !length_map in Hl. }
      split; [rewrite Hlen; unfold entries; apply length_map_to_list|].
      intros f. split.
      * intros Hf. assert (Hin : Returned f ∈ map Returned l).
        { apply list_elem_of_fmap. eauto. }
        rewrite <- Hl in Hin.
        apply list_elem_of_fmap in Hin as ([p d] & Hret & Hin).
        unfold writeFile in Hret. simpl in Hret.
        destruct (filesWrite p (code d)); [|done].
        injection Hret as ->. apply Hentries in Hin. eauto.
      * intros (p & d & Hd & ->). apply Hentries in Hd.
        assert (Hin : writeFile relative filesWrite projectDirectory p (code d)
                      ∈ map Returned l).
        { rewrite <- Hl. apply list_elem_of_fmap. by exists (p, d). }
        apply list_elem_of_fmap in Hin as (f & Hret & Hin).
        unfold writeFile in Hret.
        destruct (filesWrite p (code d)); [|done].
        by injection Hret as <-.
Qed.

Variable preProcess : string -> string -> option CachedDeclaration.
Variable sysWriteFile : string -> string -> bool.

(** X4. What reaches the disk for an emitted declaration is its
    pre-processed code, never the text the compiler emitted: after
    [fileWriter] has stored a file that is not the build-info file,
    [writeFiles] writes, under that path, the code pre-processing gave, and
    it does write it when the write succeeds. *)
Theorem emitted_declaration_is_written_preprocessed (fm : t) (w : World)
    (filePath text projectDirectory : string) (d : CachedDeclaration) :
  cacheSaysBuildInfo fm filePath = false ->
  preProcess filePath text = Some d ->
  let '(_, fm', _) := fileWriter preProcess sysWriteFile fm w filePath text in
  let '(_, writes) := writeFiles relative filesWrite fm' projectDirectory in
  (forall c, (filePath, c) ∈ writes -> c = code d)
  /\ (filesWrite filePath (code d) = true -> (filePath, code d) ∈ writes).
Proof.
  intros Hinfo Hpre. unfold fileWriter. rewrite Hinfo, Hpre.
  set (fm' := {| hasEmittedFiles := _; declarationFiles := _; cache := _ |}).
  pose proof (elem_of_writes fm' projectDirectory filePath) as Hwrites.
  destruct (writeFiles relative filesWrite fm' projectDirectory) as [o writes].
  simpl in Hwrites. split.
  - intros c (d' & Hd' & -> & _)%Hwrites. simpl in Hd'.
    rewrite lookup_insert_eq in Hd'. by injection Hd' as <-.
  - intros Hw. apply Hwrites. exists d. simpl.
    by rewrite lookup_insert_eq.
Qed.

End Output.

(** A store without a cache, one emitted declaration, and a disk that
    takes every write. *)
Lemma emitted_declaration_is_written_preprocessed_witness :
  let pre := fun (_ text : string) => Some (mkCached ("declare " +:+ text) [] []) in
  let '(_, fm', _) :=
    fileWriter pre (fun _ _ => true) (new None) (mkWorld [] [])
      "/p/dist/a.d.ts" "const a: number;" in
  let '(_, writes) := writeFiles (fun _ f => f) (fun _ _ => true) fm' "/p" in
  (forall c, ("/p/dist/a.d.ts", c) ∈ writes -> c = "declare const a: number;")
  /\ (true = true -> ("/p/dist/a.d.ts", "declare const a: number;") ∈ writes).
Proof.
  exact (emitted_declaration_is_written_preprocessed (fun _ f => f)
           (fun _ _ => true)
           (fun (_ text : string) => Some (mkCached ("declare " +:+ text) [] []))
           (fun _ _ => true) (new None) (mkWorld [] [])
           "/p/dist/a.d.ts" "const a: number;" "/p"
           (mkCached "declare const a: number;" [] []) eq_refl eq_refl).
Defined.

(** X5. [resolveEntryPoints] never invents an entry point: what it returns
    is part of the project's entry points, each under its own path. Given a
    list of names it keeps exactly the project's entry points so named, so
    an empty list keeps none; given no list it keeps the entry point named
    [index] alone when the project has one, and all of them otherwise. *)
Theorem resolveEntryPoints_selects (projectEntryPoints : gmap string string)
    (dtsEntryPoints : option (list string)) :
  resolveEntryPoints projectEntryPoints dtsEntryPoints ⊆ projectEntryPoints
  /\ (forall names name,
        dtsEntryPoints = Some names ->
        resolveEntryPoints projectEntryPoints dtsEntryPoints !! name
        = if bool_decide (name ∈ names) then projectEntryPoints !! name else None)
  /\ resolveEntryPoints projectEntryPoints (Some []) = ∅
  /\ (forall name,
        dtsEntryPoints = None ->
        resolveEntryPoints projectEntryPoints dtsEntryPoints !! name
        = if bool_decide (is_Some (projectEntryPoints !! defaultEntryPoint)
                          /\ name <> defaultEntryPoint)
          then None else projectEntryPoints !! name).
Proof.
  split; [|split; [|split]].
  - unfold resolveEntryPoints. destruct dtsEntryPoints as [names|].
    + apply map_filter_subseteq.
    + destruct (projectEntryPoints !! defaultEntryPoint) as [entryPath|] eqn:He;
        [|done].
      by apply map_singleton_subseteq_l.
  - intros names name ->. simpl.
    destruct (projectEntryPoints !! name) as [v|] eqn:Hv.
    + case_bool_decide as Hin.
      * apply map_lookup_filter_Some. done.
      * apply map_lookup_filter_None. right. intros v' _. done.
    + destruct (bool_decide _); apply map_lookup_filter_None; by left.
  - simpl. apply map_eq. intros name. rewrite lookup_empty.
    apply map_lookup_filter_None. right. intros v _ Hin. simpl in Hin.
    by apply elem_of_nil in Hin.
  - intros name ->. simpl.
    destruct (projectEntryPoints !! defaultEntryPoint) as [entryPath|] eqn:He.
    + case_bool_decide as Hn.
      * destruct Hn as [_ Hn]. by apply lookup_singleton_ne.
      * destruct (decide (name = defaultEntryPoint)) as [->|Hne].
        -- by rewrite lookup_singleton_eq.
        -- exfalso. apply Hn. eauto.
    + rewrite bool_decide_false; [done|]. intros [[? ?] _]. done.
Qed.

End StoreOutputFacts.

(** ** The cache across builds *)

Module CachePersistenceFacts.
Import IncrementalBuildCache.

(** Copying a list of entries into a map, one [set] after the other. *)
Lemma fold_insert_union (entries : list (string * CachedDeclaration))
    (target : gmap string CachedDeclaration) :
  fold_left (fun tgt e => <[fst e := snd e]> tgt) entries target
  = list_to_map (rev entries) ∪ target.
Proof.
  revert target. induction entries as [|[k v] rest IH]; intros target; simpl.
  - by rewrite (left_id_L ∅ (∪)).
  - rewrite IH, list_to_map_app. simpl.
    rewrite insert_empty, <- (assoc_L (∪)), <- insert_union_singleton_l. done.
Qed.

Lemma fold_insert_map_to_list (source target : gmap string CachedDeclaration) :
  fold_left (fun tgt e => <[fst e := snd e]> tgt) (map_to_list source) target
  = source ∪ target.
Proof.
  rewrite fold_insert_union. f_equal.
  rewrite <- (list_to_map_to_list source) at 2.
  assert (Hp : rev (map_to_list source) ≡ₚ map_to_list source).
  { symmetry. apply Permutation_rev. }
  apply list_to_map_proper; [|exact Hp].
  rewrite Hp. apply NoDup_fst_map_to_list.
Qed.

(** X6. Saving and restoring round-trip. When the payload that [save] hands
    to [Files.writeCompressed] is what a later process reads back,
    [restore] puts every saved declaration into the target: an empty target
    becomes the saved map, and in a target that holds entries the saved
    ones win and the others stay. *)
Theorem save_then_restore (join : string -> string -> string)
    (projectRoot tsBuildInfoFile : string)
    (source target : gmap string CachedDeclaration) :
  let reloaded :=
    new join (Returned (Object (savedPayload source))) projectRoot tsBuildInfoFile in
  restore reloaded target = Returned (source ∪ target)
  /\ restore reloaded ∅ = Returned source
  /\ forall k, (source ∪ target) !! k
               = match source !! k with
                 | Some d => Some d
                 | None => target !! k
                 end.
Proof.
  cbn zeta. unfold restore, new, loadCache, savedPayload.
  cbn [cacheLoaded readVersion version files].
  rewrite bool_decide_true by done. cbn [IncrementalBuildCache.files].
  rewrite !fold_insert_map_to_list, (right_id_L ∅ (∪)).
  split; [done|]. split; [done|]. intros k.
  destruct (source !! k) as [d|] eqn:Hs.
  - by apply lookup_union_Some_l.
  - by rewrite lookup_union_r.
Qed.

(** X7. An unchanged project costs no work the next time. A process that
    starts from the payload saved by the previous build has, after
    [initialize()], exactly the saved declarations in its store; when the
    compiler then writes no file, [finalize()] answers [false], saves
    nothing and writes nothing. *)
Theorem next_build_resumes_from_saved_store
    (join : string -> string -> string)
    (writeCompressed : VersionedCache -> option unit)
    (projectRoot tsBuildInfoFile : string)
    (saved : gmap string CachedDeclaration) (w : FileManager.World) :
  let cache :=
    asBuildCache writeCompressed
      (new join (Returned (Object (savedPayload saved))) projectRoot
         tsBuildInfoFile) in
  let '(o, fm) := FileManager.initialize (FileManager.new (Some cache)) in
  o = Returned tt
  /\ FileManager.declarationFiles fm = saved
  /\ FileManager.finalize fm w = (Returned false, w).
Proof.
  cbn zeta. unfold FileManager.initialize, FileManager.new, asBuildCache.
  cbn [FileManager.cache FileManager.restore FileManager.declarationFiles
       FileManager.hasEmittedFiles].
  unfold restore, new, loadCache, savedPayload.
  cbn [cacheLoaded readVersion version files].
  rewrite bool_decide_true by done. cbn [IncrementalBuildCache.files].
  rewrite fold_insert_map_to_list, (right_id_L ∅ (∪)).
  split; [done|]. split; [done|]. reflexivity.
Qed.

(** X8. With an incremental cache, [initialize()] only adds to the store.
    It clears the emitted-flag. It rejects exactly when the cache file
    holds a payload of the current version without [files], and the store
    is then as it was. In every other case it returns, and every
    declaration the store held before is still there under its key (with
    the cached content when the cache has that key), so the declaration of
    a source file deleted since the last build stays in the store. Without
    a cache [initialize()] empties the store. *)
Theorem initialize_keeps_or_clears (join : string -> string -> string)
    (writeCompressed : VersionedCache -> option unit)
    (read : Outcome Deserialized) (projectRoot tsBuildInfoFile : string)
    (flag : bool) (files : gmap string CachedDeclaration) :
  let cache :=
    asBuildCache writeCompressed (new join read projectRoot tsBuildInfoFile) in
  let withCache :=
    FileManager.initialize (FileManager.mkFileManager flag files (Some cache)) in
  let withoutCache :=
    FileManager.initialize (FileManager.mkFileManager flag files None) in
  (fst withCache = Threw
   <-> exists c, read = Returned (Object c)
                 /\ version c = Some Constants.dtsCacheVersion
                 /\ IncrementalBuildCache.files c = None)
  /\ (fst withCache = Threw ->
      FileManager.declarationFiles (snd withCache) = files)
  /\ FileManager.hasEmittedFiles (snd withCache) = false
  /\ dom files ⊆ dom (FileManager.declarationFiles (snd withCache))
  /\ (forall k d, files !! k = Some d ->
        (forall c entries, read = Returned (Object c) ->
           IncrementalBuildCache.files c = Some entries -> k ∉ map fst entries) ->
        FileManager.declarationFiles (snd withCache) !! k = Some d)
  /\ withoutCache
     = (Returned tt, FileManager.mkFileManager false ∅ None).
Proof.
  cbn zeta. unfold FileManager.initialize. simpl.
  unfold restore, new. simpl.
  destruct (IncrementalBuildCacheFacts.loadCache_settles read) as [loaded Hl].
  rewrite Hl. destruct loaded as [c|]; simpl.
  - apply IncrementalBuildCacheFacts.loadCache_Some in Hl as [-> Hv].
    destruct (IncrementalBuildCache.files c) as [entries|] eqn:Hf; simpl.
    + rewrite fold_insert_union.
      split; [|split; [done|split; [done|split; [|split; [|done]]]]].
      * split; [discriminate|]. intros (c' & [= <-] & _ & Hf'). congruence.
      * rewrite dom_union. set_solver.
      * intros k d Hk Hnot. specialize (Hnot c entries eq_refl Hf).
        rewrite lookup_union_r; [done|].
        apply not_elem_of_list_to_map_1.
        intros Hin. apply Hnot.
        apply list_elem_of_fmap in Hin as (e & -> & Hin).
        apply list_elem_of_fmap. exists e. split; [done|].
        apply list_elem_of_In, in_rev, list_elem_of_In. done.
    + split; [|done]. split; [|done]. intros _. by exists c.
  - split; [|done]. split; [discriminate|].
    intros (c & -> & Hv & _). simpl in Hl. by rewrite bool_decide_true in Hl.
Qed.

End CachePersistenceFacts.

(** ** The summary of type errors *)

Module TypeErrorSummaryFacts.
Import TypeScriptProject.

Lemma summarized_snoc (lines : list nat) (line : nat) :
  summarized (lines ++ [line])
  = Some match summarized lines with
         | Some (count, l) => (S count, Nat.min l line)
         | None => (1, line)
         end.
Proof.
  destruct lines as [|l rest]; simpl; [done|].
  rewrite fold_left_app, length_app. simpl. do 2 f_equal. lia.
Qed.

Lemma mapGet_countError (name : string) (line : nat)
    (m : list (string * (nat * nat))) (k : string) :
  DeclarationBundler.mapGet (countError name line m) k
  = if String.eqb name k
    then Some match DeclarationBundler.mapGet m name with
              | Some (count, l) => (S count, Nat.min l line)
              | None => (1, line)
              end
    else DeclarationBundler.mapGet m k.
Proof.
  induction m as [|[n [count l]] rest IH]; simpl.
  - done.
  - destruct (String.eqb_spec n name) as [->|Hne]; simpl.
    + destruct (String.eqb_spec name k) as [->|Hk]; [done|]. done.
    + rewrite IH. destruct (String.eqb_spec name k) as [->|Hk].
      * destruct (String.eqb_spec n k) as [->|Hn]; done.
      * done.
Qed.

Lemma countError_keys (name : string) (line : nat)
    (m : list (string * (nat * nat))) :
  map fst (countError name line m)
  = if DeclarationBundler.mapHas m name then map fst m else map fst m ++ [name].
Proof.
  unfold DeclarationBundler.mapHas.
  induction m as [|[n [count l]] rest IH]; simpl; [done|].
  destruct (String.eqb_spec n name) as [->|Hne]; simpl; [done|].
  rewrite IH. by destruct (DeclarationBundler.mapGet rest name).
Qed.

Lemma filesWithErrors_snoc (ds : list Diagnostic) (d : Diagnostic) :
  filesWithErrors (ds ++ [d])
  = match file d with
    | Some f =>
        countError (fileName f)
          (lineOfPosition f (match start d with Some p => p | None => 0 end))
          (filesWithErrors ds)
    | None => filesWithErrors ds
    end.
Proof. unfold filesWithErrors. by rewrite fold_left_app. Qed.

Lemma linesOf_snoc (name : string) (ds : list Diagnostic) (d : Diagnostic) :
  linesOf name (ds ++ [d])
  = linesOf name ds
    ++ match file d with
       | Some f =>
           if String.eqb (fileName f) name
           then [lineOfPosition f (match start d with Some p => p | None => 0 end)]
           else []
       | None => []
       end.
Proof. unfold linesOf. rewrite flat_map_app. simpl. by rewrite List.app_nil_r. Qed.

Lemma filesWithErrors_get (ds : list Diagnostic) (name : string) :
  DeclarationBundler.mapGet (filesWithErrors ds) name = summarized (linesOf name ds).
Proof.
  induction ds as [|d ds IH] using rev_ind; [done|].
  rewrite filesWithErrors_snoc, linesOf_snoc.
  destruct (file d) as [f|]; [|by rewrite List.app_nil_r].
  rewrite mapGet_countError.
  destruct (String.eqb_spec (fileName f) name) as [->|Hne].
  - by rewrite summarized_snoc, IH.
  - by rewrite List.app_nil_r.
Qed.

Lemma filesWithErrors_NoDup (ds : list Diagnostic) :
  NoDup (map fst (filesWithErrors ds)).
Proof.
  induction ds as [|d ds IH] using rev_ind; [apply NoDup_nil_2|].
  rewrite filesWithErrors_snoc. destruct (file d) as [f|]; [|done].
  rewrite countError_keys.
  destruct (DeclarationBundler.mapHas (filesWithErrors ds) (fileName f)) eqn:Hhas;
    [done|].
  apply NoDup_app. split; [done|]. split; [|apply NoDup_singleton].
  intros x Hx ->%list_elem_of_singleton.
  apply DeclarationBundlerFacts.mapHas_keys in Hx. congruence.
Qed.

(** X9. The per-file summary of [handleTypeErrors] has one row for each
    file that some diagnostic is located in, and none for any other file;
    the row of a file counts the diagnostics located in it and keeps the
    smallest of their lines. *)
Theorem filesWithErrors_counts_and_first_lines (ds : list Diagnostic) :
  NoDup (map fst (filesWithErrors ds))
  /\ forall name count line,
       (name, (count, line)) ∈ filesWithErrors ds
       <-> linesOf name ds <> []
           /\ count = length (linesOf name ds)
           /\ (forall l, l ∈ linesOf name ds -> line <= l)
           /\ line ∈ linesOf name ds.
Proof.
  split; [apply filesWithErrors_NoDup|].
  intros name count line.
  pose proof (filesWithErrors_get ds name) as Hget.
  assert (Hmin : forall rest l, 
            (forall x, x ∈ l :: rest -> fold_left Nat.min rest l <= x)
            /\ fold_left Nat.min rest l ∈ l :: rest).
  { clear. induction rest as [|y rest IH]; intros l; simpl.
    - split; [|apply elem_of_cons; by left].
      intros x ->%list_elem_of_singleton. done.
    - destruct (IH (Nat.min l y)) as [Hle Hin]. split.
      + intros x [Hx|[Hx|Hx]%elem_of_cons]%elem_of_cons.
        * specialize (Hle (Nat.min l y) ltac:(apply elem_of_cons; by left)). lia.
        * specialize (Hle (Nat.min l y) ltac:(apply elem_of_cons; by left)). lia.
        * apply Hle. apply elem_of_cons. by right.
      + apply elem_of_cons in Hin as [Hin|Hin].
        * rewrite Hin. destruct (Nat.min_spec l y) as [[_ ->]|[_ ->]].
          -- apply elem_of_cons. by left.
          -- apply elem_of_cons. right. apply elem_of_cons. by left.
        * apply elem_of_cons. right. apply elem_of_cons. by right. }
  split.
  - intros Hin.
    assert (Hg : DeclarationBundler.mapGet (filesWithErrors ds) name
                 = Some (count, line)).
    { clear Hget. pose proof (filesWithErrors_NoDup ds) as Hnd.
      induction (filesWithErrors ds) as [|[n v] rest IH]; [by apply elem_of_nil in Hin|].
      simpl in *. apply NoDup_cons in Hnd as [Hn Hnd].
      apply elem_of_cons in Hin as [[= <- <-]|Hin].
      - by rewrite String.eqb_refl.
      - destruct (String.eqb_spec n name) as [->|Hne]; [|by apply IH].
        exfalso. apply Hn. apply list_elem_of_fmap. by exists (name, (count, line)). }
    rewrite Hg in Hget. unfold summarized in Hget.
    destruct (linesOf name ds) as [|l rest]; [done|].
    injection Hget as -> ->. destruct (Hmin rest l) as [Hle Hin'].
    split; [done|]. split; [done|]. split; [exact Hle | exact Hin'].
  - intros (Hne & -> & Hle & Hin).
    apply DeclarationBundlerFacts.mapGet_elem_of. rewrite Hget.
    unfold summarized. destruct (linesOf name ds) as [|l rest]; [done|].
    do 2 f_equal. destruct (Hmin rest l) as [Hle' Hin'].
    specialize (Hle _ Hin'). specialize (Hle' _ Hin). lia.
Qed.




End TypeErrorSummaryFacts.

(** ** The order of the bundle *)

Module ModuleOrderFacts.
Import TS JS JSFacts DeclarationBundler DeclarationBundlerFacts.

Section Sort.

Variable moduleMap : gmap string ModuleInfo.
Hypothesis modules_keyed : keyed moduleMap.

Lemma importsPath_trans p q r :
  importsPath moduleMap p q -> importsPath moduleMap q r -> importsPath moduleMap p r.
Proof.
  intros Hpq Hqr. induction Hqr as [|r m s _ IH Hm Hs]; [done|].
  eapply importsPath_step; eauto.
Qed.

Lemma importsPath_import p m q :
  moduleMap !! p = Some m -> q ∈ imports m -> importsPath moduleMap p q.
Proof. intros Hm Hq. eapply importsPath_step; [apply importsPath_here|done..]. Qed.

Lemma snoc_split {A} (l l1 l2 : list A) (x m : A) :
  l ++ [x] = l1 ++ m :: l2 ->
  (l2 = [] /\ l = l1 /\ x = m) \/ (exists l2', l2 = l2' ++ [x] /\ l = l1 ++ m :: l2').
Proof.
  destruct l2 as [|y l2 _] using rev_ind.
  - intros H. left. apply app_inj_tail in H as [-> ->]. done.
  - intros H. right. exists l2.
    rewrite app_comm_cons, app_assoc in H.
    apply app_inj_tail in H as [-> ->]. done.
Qed.

(** Marking [p] as being visited keeps the invariant. *)
Lemma sortInv_visiting st p :
  sortInv moduleMap st -> p ∉ sortVisited st ->
  sortInv moduleMap (mkSortState (sorted st) (sortVisited st) ({[p]} ∪ visiting st)).
Proof.
  intros [Hnd Hv Hm Hd Hc Ho] Hp. split; simpl; try done.
  - set_solver.
  - intros m q Hin Hq Hdom. destruct (Hc m q Hin Hq Hdom); set_solver.
Qed.

Lemma sortVisited_mono st st' added :
  sortInv moduleMap st -> sortInv moduleMap st' ->
  sorted st' = sorted st ++ added ->
  sortVisited st ⊆ sortVisited st'.
Proof.
  intros Hi Hi' Hs k Hk. apply (s_visited _ _ Hi'). rewrite Hs, map_app.
  apply elem_of_app. left. by apply (s_visited _ _ Hi).
Qed.

Lemma sortImports_spec (fuel' : nat)
    (rec : SortState -> string -> option SortState) (p : string) :
  (forall st c,
     sortInv moduleMap st ->
     (forall a, a ∈ visiting st -> a ∈ dom moduleMap -> importsPath moduleMap a c) ->
     size (dom moduleMap ∖ visiting st) < fuel' ->
     exists st', rec st c = Some st' /\ sorted_after moduleMap st c st') ->
  forall importPaths st,
    (forall c, c ∈ importPaths -> importsPath moduleMap p c) ->
    sortInv moduleMap st ->
    (forall a, a ∈ visiting st -> a ∈ dom moduleMap -> importsPath moduleMap a p) ->
    size (dom moduleMap ∖ visiting st) < fuel' ->
    exists st',
      sortImports rec importPaths st = Some st'
      /\ sortInv moduleMap st'
      /\ (exists added, sorted st' = sorted st ++ added
                        /\ forall m, m ∈ added -> importsPath moduleMap p (path m))
      /\ visiting st ⊆ visiting st'
      /\ (forall k, k ∈ dom moduleMap -> k ∈ visiting st' -> k ∈ visiting st)
      /\ (forall c, c ∈ importPaths -> c ∈ sortVisited st' \/ c ∈ visiting st').
Proof.
  intros Hrec. induction importPaths as [|c rest IH]; intros st Hreach Hinv Hanc Hfuel.
  - exists st. simpl. split; [done|]. split; [done|].
    split; [exists []; split; [by rewrite List.app_nil_r | by intros m ?%elem_of_nil]|].
    split; [done|]. split; [done|]. by intros c ?%elem_of_nil.
  - assert (Hpc : importsPath moduleMap p c).
    { apply Hreach, elem_of_cons. by left. }
    destruct (Hrec st c Hinv) as (st1 & Hrun & Hinv1 & (added1 & Hs1 & Hadded1)
                                  & Hsub1 & Hdom1 & Hc1 & _).
    { intros a Ha Hd. eapply importsPath_trans; [by apply Hanc | done]. }
    { done. }
    destruct (IH st1) as (st' & Hrun' & Hinv' & (added2 & Hs2 & Hadded2)
                          & Hsub2 & Hdom2 & Hrest).
    { intros c' Hc'. apply Hreach, elem_of_cons. by right. }
    { done. }
    { intros a Ha Hd. apply Hanc; [by apply Hdom1 | done]. }
    { eapply Nat.le_lt_trans; [|exact Hfuel]. apply subseteq_size. set_solver. }
    exists st'. simpl. rewrite Hrun. split; [done|]. split; [done|].
    split; [|split; [|split]].
    + exists (added1 ++ added2). split; [by rewrite Hs2, Hs1, app_assoc|].
      intros m [Hm|Hm]%elem_of_app; [|by apply Hadded2].
      eapply importsPath_trans; [exact Hpc | by apply Hadded1].
    + set_solver.
    + intros k Hk Hin. apply Hdom1; [done|]. by apply Hdom2.
    + intros c' [->|Hc']%elem_of_cons; [|by apply Hrest].
      destruct Hc1 as [Hc1|Hc1].
      * left. eapply sortVisited_mono; [exact Hinv1 | exact Hinv' | exact Hs2 | done].
      * right. by apply Hsub2.
Qed.

Lemma sortVisit_spec (fuel : nat) :
  forall st p,
    sortInv moduleMap st ->
    (forall a, a ∈ visiting st -> a ∈ dom moduleMap -> importsPath moduleMap a p) ->
    size (dom moduleMap ∖ visiting st) < fuel ->
    exists st', sortVisit moduleMap fuel st p = Some st'
                /\ sorted_after moduleMap st p st'.
Proof.
  induction fuel as [|fuel' IH]; intros st p Hinv Hanc Hfuel; [lia|].
  cbn [sortVisit].
  destruct (bool_decide (p ∈ sortVisited st) || bool_decide (p ∈ visiting st))
    eqn:Hseen.
  { exists st. split; [done|]. split; [done|].
    split; [exists []; split; [by rewrite List.app_nil_r | by intros m ?%elem_of_nil]|].
    split; [done|]. split; [done|].
    apply orb_true_iff in Hseen as [Hs|Hs]; apply bool_decide_eq_true in Hs.
    - split; [by left|]. intros m Hn. done.
    - split; [by right|]. intros m _ Hn. done. }
  apply orb_false_iff in Hseen as [Hnv Hng].
  apply bool_decide_eq_false in Hnv, Hng.
  set (st1 := mkSortState (sorted st) (sortVisited st) ({[p]} ∪ visiting st)).
  assert (Hinv1 : sortInv moduleMap st1) by by apply sortInv_visiting.
  destruct (moduleMap !! p) as [module|] eqn:Hmod.
  2:{ exists st1. split; [done|]. split; [done|].
      split; [exists []; split; [by rewrite List.app_nil_r | by intros m ?%elem_of_nil]|].
      split; [simpl; set_solver|]. split.
      - intros k Hk Hin. simpl in Hin.
        apply elem_of_union in Hin as [->%elem_of_singleton|Hin]; [|done].
        apply elem_of_dom in Hk as [? Hk]. congruence.
      - split; [right; simpl; set_solver|]. intros m _ _ Hn. congruence. }
  destruct (sortImports_spec fuel' (sortVisit moduleMap fuel') p IH (imports module) st1)
    as (st2 & Hrun & Hinv2 & (added & Hs2 & Hadded) & Hsub2 & Hdom2 & Himports).
  { intros c Hc. by eapply importsPath_import. }
  { done. }
  { intros a Ha Hd. simpl in Ha.
    apply elem_of_union in Ha as [->%elem_of_singleton|Ha];
      [apply importsPath_here | by apply Hanc]. }
  { simpl. eapply Nat.lt_le_trans; [|apply Nat.lt_succ_r, Hfuel].
    apply subset_size. apply elem_of_dom_2 in Hmod. set_solver. }
  rewrite Hrun.
  assert (Hpath : path module = p) by by apply modules_keyed.
  assert (Hpv : p ∈ visiting st2) by (apply Hsub2; simpl; set_solver).
  assert (Hpn : p ∉ sortVisited st2).
  { intros Hin. pose proof (s_disjoint _ _ Hinv2). set_solver. }
  destruct Hinv2 as [Hnd2 Hv2 Hm2 Hd2 Hc2 Ho2].
  eexists. split; [done|]. split; [|split; [|split; [|split; [|split]]]].
  - split; simpl.
    + rewrite map_app. simpl. rewrite Hpath. apply NoDup_app.
      split; [done|]. split; [|apply NoDup_singleton].
      intros k Hk ->%list_elem_of_singleton. by apply Hpn, Hv2.
    + intros k. rewrite map_app, elem_of_app, elem_of_union, elem_of_singleton.
      simpl. rewrite Hpath, list_elem_of_singleton, Hv2. tauto.
    + intros m [Hm| ->%list_elem_of_singleton]%elem_of_app; [by apply Hm2|].
      by rewrite Hpath.
    + set_solver.
    + intros m q Hm Hq Hdq.
      assert (Hq' : q ∈ sortVisited st2 \/ q ∈ visiting st2).
      { apply elem_of_app in Hm as [Hm| ->%list_elem_of_singleton];
          [by eapply Hc2 | by apply Himports]. }
      destruct (decide (q = p)) as [->|Hne]; [left; set_solver|].
      destruct Hq'; [left | right]; set_solver.
    + intros l1 m l2 q Hsplit Hq Hdq.
      apply snoc_split in Hsplit as [(-> & <- & <-)|(l2' & -> & Hsplit)].
      * destruct (Himports q Hq) as [Hin|Hin].
        -- left. by apply Hv2.
        -- right. rewrite Hpath.
           specialize (Hdom2 q Hdq Hin). simpl in Hdom2.
           apply elem_of_union in Hdom2 as [->%elem_of_singleton|Hin'];
             [apply importsPath_here | by apply Hanc].
      * by eapply Ho2.
  - exists (added ++ [module]). simpl. split; [by rewrite Hs2, app_assoc|].
    intros m [Hm| ->%list_elem_of_singleton]%elem_of_app; [by apply Hadded|].
    rewrite Hpath. apply importsPath_here.
  - simpl. intros k Hk. apply elem_of_difference. split.
    + apply Hsub2. simpl. set_solver.
    + intros ->%elem_of_singleton. done.
  - simpl. intros k Hk [Hin Hne]%elem_of_difference.
    specialize (Hdom2 k Hk Hin). simpl in Hdom2. set_solver.
  - left. simpl. set_solver.
  - intros m _ _ Hm. simpl. assert (m = module) as -> by congruence. eauto.
Qed.


(** A missing module imports nothing. *)
Lemma importsPath_missing p k :
  moduleMap !! p = None -> importsPath moduleMap p k -> k = p.
Proof.
  intros Hp Hk. induction Hk as [|q m r _ IH Hq Hr]; [done|].
  subst q. congruence.
Qed.

Lemma sortModules_spec (fuel : nat) (entryPoint : string) :
  size (dom moduleMap) < fuel ->
  exists st,
    sortVisit moduleMap fuel (mkSortState [] ∅ ∅) entryPoint = Some st
    /\ sortInv moduleMap st
    /\ (forall m, m ∈ sorted st -> importsPath moduleMap entryPoint (path m))
    /\ (forall k, k ∈ dom moduleMap -> k ∉ visiting st)
    /\ (entryPoint ∈ sortVisited st \/ entryPoint ∈ visiting st)
    /\ (forall m, moduleMap !! entryPoint = Some m ->
                  exists earlier, sorted st = earlier ++ [m]).
Proof.
  intros Hfuel.
  destruct (sortVisit_spec fuel (mkSortState [] ∅ ∅) entryPoint)
    as (st & Hrun & Hinv & (added & Hs & Hadded) & _ & Hdom & Hentry & Hlast).
  { split; simpl.
    - apply NoDup_nil_2.
    - intros k. split; [set_solver | by intros ?%elem_of_nil].
    - by intros m ?%elem_of_nil.
    - set_solver.
    - by intros m q ?%elem_of_nil.
    - intros l1 m l2 q Hnil. by destruct l1. }
  { simpl. set_solver. }
  { simpl. eapply Nat.le_lt_trans; [|exact Hfuel]. apply subseteq_size. set_solver. }
  exists st. split; [done|]. split; [done|]. simpl in Hs. subst added.
  split; [done|]. split; [|split; [done|]].
  - intros k Hk Hin. specialize (Hdom k Hk Hin). simpl in Hdom. set_solver.
  - intros m Hm. apply Hlast; simpl; [set_solver | set_solver | done].
Qed.

Lemma sortModules_covers (st : SortState) (entryPoint k : string) :
  sortInv moduleMap st ->
  (forall k, k ∈ dom moduleMap -> k ∉ visiting st) ->
  (entryPoint ∈ sortVisited st \/ entryPoint ∈ visiting st) ->
  k ∈ dom moduleMap -> importsPath moduleMap entryPoint k ->
  k ∈ map path (sorted st).
Proof.
  intros Hinv Hdone Hentry Hk Hreach.
  induction Hreach as [|q m r _ IH Hq Hr].
  - apply (s_visited _ _ Hinv). destruct Hentry as [?|Hv]; [done|].
    by destruct (Hdone _ Hk).
  - specialize (IH (elem_of_dom_2 _ _ _ Hq)).
    apply list_elem_of_fmap in IH as (m' & -> & Hm').
    pose proof (s_member _ _ Hinv m' Hm') as Hm''.
    assert (m' = m) as -> by congruence.
    destruct (s_closed _ _ Hinv m r Hm' Hr Hk) as [?|Hv].
    + by apply (s_visited _ _ Hinv).
    + by destruct (Hdone _ Hk).
Qed.

End Sort.

(** X11. [sortModules] always returns. Its result lists, each once, exactly
    the modules that the entry point reaches through the [imports] sets
    (the entry point itself included); every listed module is the one the
    map holds under its path, and the entry point's module comes last. An
    entry point the map does not hold gives the empty list. *)
Theorem sortModules_lists_reachable (moduleMap : gmap string ModuleInfo)
    (fuel : nat) (entryPoint : string) :
  keyed moduleMap ->
  size (dom moduleMap) < fuel ->
  exists l,
    sortModules moduleMap fuel entryPoint = Some l
    /\ NoDup (map path l)
    /\ (forall m, m ∈ l -> moduleMap !! path m = Some m)
    /\ (forall k, k ∈ map path l
                  <-> k ∈ dom moduleMap /\ importsPath moduleMap entryPoint k)
    /\ (forall m, moduleMap !! entryPoint = Some m ->
                  exists earlier, l = earlier ++ [m])
    /\ (moduleMap !! entryPoint = None -> l = []).
Proof.
  intros Hkeyed Hfuel.
  destruct (sortModules_spec moduleMap Hkeyed fuel entryPoint Hfuel)
    as (st & Hrun & Hinv & Hreach & Hdone & Hentry & Hlast).
  exists (sorted st). unfold sortModules. rewrite Hrun.
  split; [done|]. split; [apply (s_nodup _ _ Hinv)|].
  split; [apply (s_member _ _ Hinv)|].
  assert (Hcover : forall k, k ∈ map path (sorted st)
                    <-> k ∈ dom moduleMap /\ importsPath moduleMap entryPoint k).
  { intros k. split.
    - intros (m & -> & Hm)%list_elem_of_fmap. split; [|by apply Hreach].
      eapply elem_of_dom_2, (s_member _ _ Hinv), Hm.
    - intros [Hk Hr]. by eapply sortModules_covers. }
  split; [exact Hcover|]. split; [exact Hlast|].
  intros Hnone. destruct (sorted st) as [|m rest] eqn:Hs; [done|].
  assert (Hin : path m ∈ map path (m :: rest)) by (simpl; apply elem_of_cons; by left).
  apply Hcover in Hin as [Hd Hr].
  apply importsPath_missing in Hr; [|done].
  apply elem_of_dom in Hd as [? Hd]. congruence.
Qed.

(** X12. [sortModules] puts dependencies first. In its result a module
    comes after every module it imports, unless the imported module reaches
    it back through imports; when no module reaches itself, every import
    that the map holds comes strictly earlier in the list. *)
Theorem sortModules_dependencies_first (moduleMap : gmap string ModuleInfo)
    (fuel : nat) (entryPoint : string) (l l1 l2 : list ModuleInfo)
    (m : ModuleInfo) (q : string) :
  keyed moduleMap ->
  size (dom moduleMap) < fuel ->
  sortModules moduleMap fuel entryPoint = Some l ->
  l = l1 ++ m :: l2 ->
  q ∈ imports m ->
  q ∈ dom moduleMap ->
  (q ∈ map path l1 \/ importsPath moduleMap q (path m))
  /\ (acyclic moduleMap -> q ∈ map path l1).
Proof.
  intros Hkeyed Hfuel Hsort Hl Hq Hdq.
  destruct (sortModules_spec moduleMap Hkeyed fuel entryPoint Hfuel)
    as (st & Hrun & Hinv & _).
  unfold sortModules in Hsort. rewrite Hrun in Hsort. injection Hsort as <-.
  pose proof (s_order _ _ Hinv l1 m l2 q Hl Hq Hdq) as Hord.
  split; [exact Hord|]. intros Hacyclic.
  destruct Hord as [?|Hcycle]; [done|]. exfalso.
  eapply Hacyclic; [|exact Hq|exact Hcycle].
  apply (s_member _ _ Hinv). rewrite Hl. apply elem_of_app. right.
  apply elem_of_cons. by left.
Qed.

(** The traversal of [buildModuleGraph] stores every module under its own
    path. *)
Lemma visitSpecifiers_keyed (options : Options)
    (resolveModule : string -> string -> option string)
    (disk : gmap string string)
    (preProcess : string -> string -> option CachedDeclaration)
    (rec : GraphState -> string -> Run GraphState) (from : string) :
  (forall st p st', keyed (modules st) -> rec st p = Finished st' ->
                    keyed (modules st')) ->
  forall specifiers st moduleImports bundledSpecs st' moduleImports' bundledSpecs',
    keyed (modules st) ->
    visitSpecifiers options resolveModule disk preProcess rec from specifiers st
      moduleImports bundledSpecs
    = Finished (st', moduleImports', bundledSpecs') ->
    keyed (modules st').
Proof.
  intros Hrec. induction specifiers as [|specifier rest IH];
    intros st mi bs st' mi' bs' Hk Hrun; simpl in Hrun.
  - by injection Hrun as <- _ _.
  - destruct (matchesPattern specifier (external options) (lastIndexes st))
      as [explicit indexes1].
    destruct explicit; [eapply IH; [|exact Hrun]; exact Hk|].
    destruct (resolved resolveModule specifier from) as [r|];
      [|eapply IH; [|exact Hrun]; exact Hk].
    destruct (skipsPackage options specifier r _) as [skipped indexes2].
    destruct skipped; [eapply IH; [|exact Hrun]; exact Hk|].
    destruct (loadFromDisk options disk preProcess r _) as [files|]; [|done].
    destruct (files !! r).
    + destruct (rec _ r) as [st2| |] eqn:Hr; [|done|done].
      eapply IH; [|exact Hrun]. eapply Hrec; [|exact Hr]. done.
    + eapply IH; [|exact Hrun]. done.
Qed.

Lemma visit_keyed (options : Options) (resolvePath : string -> string)
    (createSourceFile : string -> string -> SourceFile)
    (resolveModule : string -> string -> option string)
    (disk : gmap string string)
    (preProcess : string -> string -> option CachedDeclaration) (fuel : nat) :
  forall st p st',
    keyed (modules st) ->
    visit options resolvePath createSourceFile resolveModule disk preProcess
      fuel st p = Finished st' ->
    keyed (modules st').
Proof.
  induction fuel as [|fuel' IH]; intros st p st' Hk Hrun; [done|].
  cbn [visit] in Hrun.
  destruct (bool_decide (resolvePath p ∈ visited st)); [by injection Hrun as <-|].
  cbn [declarationFiles] in Hrun.
  destruct (declarationFiles st !! resolvePath p) as [cached|];
    [|by injection Hrun as <-].
  destruct (visitSpecifiers _ _ _ _ _ _ _ _ _ _) as [[[st2 mi] bs]| |] eqn:Hloop;
    [|done|done].
  injection Hrun as <-. simpl.
  apply (visitSpecifiers_keyed _ _ _ _ _ _ IH) in Hloop; [|done].
  intros k m [[<- <-]|[_ Hm]]%lookup_insert_Some; [done | by apply Hloop].
Qed.

(** [importsPath] and [reachable] are one relation. *)
Lemma importsPath_reachable (g : ModuleDependencyGraph) (entry k : string) :
  importsPath (graphModules g) entry k <-> reachable g entry k.
Proof.
  split.
  - induction 1 as [|q m r _ IH Hq Hr]; [apply reachable_entry|].
    eapply reachable_import; [exact IH | exact Hq | by apply list_elem_of_In].
  - induction 1 as [|q m r _ IH Hq Hr]; [apply importsPath_here|].
    eapply importsPath_step; [exact IH | exact Hq | by apply list_elem_of_In].
Qed.

(** X13. The order in which the bundle is assembled. For a normalized entry
    point held by the declaration files, the graph that [buildModuleGraph]
    returns is sorted by [sortModules] into a list that holds, each once,
    exactly the modules reachable from the entry point, the entry point's
    module last. *)
Theorem sortModules_of_buildModuleGraph (options : Options)
    (resolvePath : string -> string)
    (createSourceFile : string -> string -> SourceFile)
    (resolveModule : string -> string -> option string)
    (disk : gmap string string)
    (preProcess : string -> string -> option CachedDeclaration)
    (files : gmap string CachedDeclaration) (indexes : LastIndexes)
    (entryPoint : string) :
  (forall specifier containingFile r,
     resolveModule specifier containingFile = Some r -> resolvePath r = r) ->
  resolvePath entryPoint = entryPoint ->
  is_Some (files !! entryPoint) ->
  match buildModuleGraph options resolvePath createSourceFile resolveModule
          disk preProcess (enoughFuel disk files) files indexes entryPoint with
  | Finished g =>
      exists l entryModule earlier,
        sortModules (graphModules g) (sortFuel (graphModules g)) entryPoint
        = Some l
        /\ NoDup (map path l)
        /\ (forall m, m ∈ l -> graphModules g !! path m = Some m)
        /\ (forall k, k ∈ map path l <-> reachable g entryPoint k)
        /\ graphModules g !! entryPoint = Some entryModule
        /\ l = earlier ++ [entryModule]
  | Raised => preProcessThrows disk preProcess
  | OutOfFuel => False
  end.
Proof.
  intros Hnorm Hentry Hfile. unfold buildModuleGraph.
  pose proof (visit_entry options resolvePath createSourceFile resolveModule
                disk preProcess files indexes entryPoint Hnorm
                ltac:(by rewrite Hentry)) as Hend.
  destruct (visit options resolvePath createSourceFile resolveModule disk
              preProcess (enoughFuel disk files) _ entryPoint) as [st| |] eqn:Hrun;
    [|exact Hend|exact Hend].
  destruct Hend as ([_ _ _ Himports _] & Hin & Hall). rewrite Hentry in Hin.
  assert (Hkeyed : keyed (modules st)).
  { eapply visit_keyed; [|exact Hrun]. intros k m Hm. simpl in Hm.
    by rewrite lookup_empty in Hm. }
  set (g := mkGraph (modules st) (bundledSpecifiers st)).
  assert (Hclosed : forall k, reachable g entryPoint k -> k ∈ dom (modules st)).
  { intros k Hreach. induction Hreach as [|p m q _ IH Hl Hq]; [by apply Hall|].
    apply Hall. eapply Himports; [exact Hl|]. by apply list_elem_of_In. }
  destruct (sortModules_spec (modules st) Hkeyed (sortFuel (modules st)) entryPoint)
    as (sst & Hsort & Hinv & Hreach & Hdone & Hseen & Hlast);
    [unfold sortFuel; lia|].
  assert (Hem : is_Some (modules st !! entryPoint)) by by apply elem_of_dom, Hall.
  destruct Hem as [entryModule Hem].
  destruct (Hlast entryModule Hem) as [earlier Hl].
  exists (sorted sst), entryModule, earlier. simpl.
  unfold sortModules. rewrite Hsort.
  split; [done|]. split; [apply (s_nodup _ _ Hinv)|].
  split; [apply (s_member _ _ Hinv)|]. split; [|done].
  intros k. rewrite <- (importsPath_reachable g). simpl. split.
  - intros (m & -> & Hm)%list_elem_of_fmap. by apply Hreach.
  - intros Hr. eapply sortModules_covers; try done.
    apply Hclosed. by apply (importsPath_reachable g).
Qed.

Import Examples.

Lemma twoModules_keyed : keyed twoModules.
Proof.
  intros k m Hm. unfold twoModules in Hm.
  apply lookup_insert_Some in Hm as [[<- <-]|[_ Hm]]; [done|].
  apply lookup_insert_Some in Hm as [[<- <-]|[_ Hm]]; [done|].
  by rewrite lookup_empty in Hm.
Qed.

(** The two-module project, sorted from its entry. *)
Lemma sortModules_lists_reachable_witness :
  exists l,
    sortModules twoModules 3 indexPath = Some l
    /\ NoDup (map path l)
    /\ (forall m, m ∈ l -> twoModules !! path m = Some m)
    /\ (forall k, k ∈ map path l
                  <-> k ∈ dom twoModules /\ importsPath twoModules indexPath k)
    /\ (forall m, twoModules !! indexPath = Some m ->
                  exists earlier, l = earlier ++ [m])
    /\ (twoModules !! indexPath = None -> l = []).
Proof.
  apply (sortModules_lists_reachable twoModules 3 indexPath twoModules_keyed).
  vm_compute. lia.
Defined.

(** In the two-module project the entry imports the other module, which
    comes first. *)
Lemma sortModules_dependencies_first_witness :
  (typesPath ∈ map path [moduleTypes]
   \/ importsPath twoModules typesPath (path moduleIndex))
  /\ (acyclic twoModules -> typesPath ∈ map path [moduleTypes]).
Proof.
  apply (sortModules_dependencies_first twoModules 3 indexPath
           [moduleTypes; moduleIndex] [moduleTypes] [] moduleIndex typesPath
           twoModules_keyed).
  - vm_compute. lia.
  - by vm_compute.
  - reflexivity.
  - apply elem_of_cons. by left.
  - apply elem_of_dom. exists moduleTypes. by vm_compute.
Defined.

(** The graph of the two-file project, sorted. *)
Lemma sortModules_of_buildModuleGraph_witness :
  match buildModuleGraph bundleAll (fun p => p) parseTwoFiles resolveTwoFiles
          ∅ (fun _ text => Some (mkCached text [] []))
          (enoughFuel ∅ twoFiles) twoFiles ∅ indexPath with
  | Finished g =>
      exists l entryModule earlier,
        sortModules (graphModules g) (sortFuel (graphModules g)) indexPath
        = Some l
        /\ NoDup (map path l)
        /\ (forall m, m ∈ l -> graphModules g !! path m = Some m)
        /\ (forall k, k ∈ map path l <-> reachable g indexPath k)
        /\ graphModules g !! indexPath = Some entryModule
        /\ l = earlier ++ [entryModule]
  | Raised => preProcessThrows ∅ (fun _ text => Some (mkCached text [] []))
  | OutOfFuel => False
  end.
Proof.
  apply (sortModules_of_buildModuleGraph bundleAll (fun p => p) parseTwoFiles
           resolveTwoFiles ∅ (fun _ text => Some (mkCached text [] []))
           twoFiles ∅ indexPath).
  - intros specifier containingFile r _. reflexivity.
  - reflexivity.
  - exists (mkCached indexCode [] []). reflexivity.
Defined.

End ModuleOrderFacts.

(** ** The names generated by [preProcess] *)

Module PreProcessNamesFacts.
Import JS JSFacts DeclarationBundler DeclarationBundlerFacts PreProcessNames.

Lemma length_underscored k hint :
  String.length (underscored k hint) = k + String.length hint.
Proof.
  revert hint. induction k as [|k IH]; intros hint; simpl; [done|].
  rewrite IH, length_append. simpl. lia.
Qed.

Lemma underscored_inj j k hint :
  underscored j hint = underscored k hint -> j = k.
Proof.
  intros H. apply (f_equal String.length) in H.
  rewrite !length_underscored in H. lia.
Qed.

Lemma identifierCharacters_underscored k hint :
  identifierCharacters hint = true ->
  identifierCharacters (underscored k hint) = true.
Proof.
  revert hint. induction k as [|k IH]; intros hint Hh; simpl; [done|].
  apply IH. simpl. done.
Qed.

Lemma identifierCharacters_sanitize fileId :
  identifierCharacters (sanitize fileId) = true.
Proof.
  induction fileId as [|c rest IH]; simpl; [done|].
  rewrite IH, andb_true_r.
  destruct (isIdentifierCode (nat_of_ascii c)) eqn:Hc; [done | reflexivity].
Qed.

Lemma generateUniqueNameFrom_Some fuel declared hint name :
  generateUniqueNameFrom fuel declared hint = Some name ->
  exists k, k < fuel /\ name = underscored k hint /\ (name ∉ declared)
            /\ forall j, j < k -> underscored j hint ∈ declared.
Proof.
  revert hint. induction fuel as [|fuel IH]; intros hint Hrun; [done|].
  simpl in Hrun. destruct (setHas declared hint) eqn:Hhas.
  - apply IH in Hrun as (k & Hk & -> & Hfresh & Hbelow).
    exists (S k). split; [lia|]. split; [done|]. split; [done|].
    intros [|j] Hj; simpl; [by apply setHas_correct | apply Hbelow; lia].
  - injection Hrun as <-. exists 0. split; [lia|]. split; [done|].
    split; [by apply setHas_false | intros j Hj; lia].
Qed.

Lemma generateUniqueNameFrom_None fuel declared hint :
  generateUniqueNameFrom fuel declared hint = None ->
  forall j, j < fuel -> underscored j hint ∈ declared.
Proof.
  revert hint. induction fuel as [|fuel IH]; intros hint Hrun j Hj; [lia|].
  simpl in Hrun. destruct (setHas declared hint) eqn:Hhas; [|done].
  destruct j as [|j]; simpl; [by apply setHas_correct|].
  apply IH; [done | lia].
Qed.

(** More candidates than declared names: one of them is free. *)
Lemma generateUniqueNameFrom_enough declared hint :
  generateUniqueNameFrom (S (length declared)) declared hint <> None.
Proof.
  intros Hnone.
  pose proof (generateUniqueNameFrom_None _ _ _ Hnone) as Hall.
  set (candidates := map (fun j => underscored j hint) (seq 0 (S (length declared)))).
  assert (Hnd : NoDup candidates).
  { apply NoDup_fmap_2; [|apply NoDup_ListNoDup, seq_NoDup].
    intros j k. apply underscored_inj. }
  assert (Hsub : candidates ⊆+ declared).
  { apply NoDup_submseteq; [done|]. intros x (j & -> & Hj)%list_elem_of_fmap.
    apply Hall. apply list_elem_of_In, in_seq in Hj. lia. }
  apply submseteq_length in Hsub. unfold candidates in Hsub.
  rewrite length_map, length_seq in Hsub. lia.
Qed.

Lemma generateUniqueName_total (declared : list string) (hint : string) :
  exists k,
    generateUniqueName declared hint
    = Some (underscored k hint, declared ++ [underscored k hint])
    /\ k <= length declared
    /\ (underscored k hint ∉ declared)
    /\ forall j, j < k -> underscored j hint ∈ declared.
Proof.
  unfold generateUniqueName.
  destruct (generateUniqueNameFrom (S (length declared)) declared hint)
    as [name|] eqn:Hrun; [|by apply generateUniqueNameFrom_enough in Hrun].
  apply generateUniqueNameFrom_Some in Hrun as (k & Hk & -> & Hfresh & Hbelow).
  exists k. split; [|split; [lia | done]].
  unfold setAdd. fold (setHas declared (underscored k hint)).
  apply setHas_false in Hfresh. by rewrite Hfresh.
Qed.

(** X14. [generateUniqueName] always ends, and with a name that was not
    declared: the hint itself or the hint behind underscores, as few as
    leave the declared names. The name is then declared, after the others,
    so the next request cannot get it again. *)
Theorem generateUniqueName_fresh (declared : list string) (hint : string) :
  exists k,
    generateUniqueName declared hint
    = Some (underscored k hint, declared ++ [underscored k hint])
    /\ k <= length declared
    /\ (underscored k hint ∉ declared)
    /\ forall j, j < k -> underscored j hint ∈ declared.
Proof. apply generateUniqueName_total. Qed.

Lemma mapSet_fresh {V} (m : list (string * V)) k v :
  mapGet m k = None -> mapSet k v m = m ++ [(k, v)].
Proof.
  induction m as [|[k0 v0] m IH]; simpl; [done|].
  destruct (String.eqb k0 k); [done|]. intros H. by rewrite IH.
Qed.

Lemma underscored_nonempty k hint :
  hint <> "" -> underscored k hint <> "".
Proof.
  intros Hh Hu. apply (f_equal String.length) in Hu.
  rewrite length_underscored in Hu. destruct hint; [done|]. simpl in Hu. lia.
Qed.

Lemma createNamespaceImport_step (declared0 : list string) (default0 : string)
    (names : Names) (fileId : string) :
  namesInv declared0 default0 names ->
  exists importName names',
    createNamespaceImport names fileId = Some (importName, names')
    /\ namesInv declared0 default0 names'
    /\ defaultExport names' = defaultExport names
    /\ map fst (inlineImports names')
       = (if mapHas (inlineImports names) fileId
          then map fst (inlineImports names)
          else map fst (inlineImports names) ++ [fileId]).
Proof.
  intros (Hkeys & Hvalues & Hsub & Hentries & Hdefault).
  unfold createNamespaceImport, mapHas.
  destruct (mapGet (inlineImports names) fileId) as [importName|] eqn:Hget.
  { exists importName, names. done. }
  destruct (generateUniqueName_total (declaredNames names) (sanitize fileId))
    as (k & Hgen & _ & Hfresh & _).
  rewrite Hgen. eexists _, _. split; [done|].
  rewrite (mapSet_fresh _ _ _ Hget). simpl.
  split; [|split; [done | by rewrite map_app]].
  split; [|split; [|split; [|split]]]; simpl.
  - rewrite map_app. simpl. apply NoDup_app. split; [done|].
    split; [|apply NoDup_singleton].
    intros f Hf ->%list_elem_of_singleton.
    apply mapHas_keys in Hf. unfold mapHas in Hf. by rewrite Hget in Hf.
  - rewrite map_app. simpl. apply NoDup_app. split; [done|].
    split; [|apply NoDup_singleton].
    intros n Hn ->%list_elem_of_singleton. apply Hfresh.
    apply list_elem_of_fmap in Hn as ([f n] & -> & Hin). by apply (Hentries f n).
  - intros x Hx. apply elem_of_app. left. by apply Hsub.
  - intros f n [Hin|Hin%list_elem_of_singleton]%elem_of_app.
    + destruct (Hentries f n Hin) as (Hd & Hn0 & Hk). split; [|done].
      apply elem_of_app. by left.
    + injection Hin as -> ->. split; [apply elem_of_app; right; apply elem_of_cons; by left|].
      split; [|eauto]. intros Hin. apply Hfresh. by apply Hsub.
  - destruct Hdefault as [?|(-> & Hd & Hd0 & Hdi & Hk)]; [by left|]. right.
    split; [done|]. split; [apply elem_of_app; by left|]. split; [done|].
    split; [|done]. rewrite map_app. simpl.
    intros [Hin|Hin%list_elem_of_singleton]%elem_of_app; [done|].
    apply Hfresh. by rewrite <- Hin.
Qed.

Lemma nameDefaultExport_step (declared0 : list string) (default0 : string)
    (names : Names) :
  namesInv declared0 default0 names ->
  exists names',
    nameDefaultExport names = Some names'
    /\ namesInv declared0 default0 names'
    /\ inlineImports names' = inlineImports names
    /\ (defaultExport names <> "" -> defaultExport names' = defaultExport names)
    /\ (defaultExport names = "" -> defaultExport names' <> ""
                                    /\ default0 = "").
Proof.
  intros (Hkeys & Hvalues & Hsub & Hentries & Hdefault). unfold nameDefaultExport.
  destruct (String.eqb_spec (defaultExport names) "") as [Hempty|Hne].
  2:{ exists names. done. }
  destruct (generateUniqueName_total (declaredNames names) "export_default")
    as (k & Hgen & _ & Hfresh & _).
  rewrite Hgen. eexists. split; [done|].
  assert (Hd0 : default0 = "").
  { destruct Hdefault as [<-|(-> & _)]; done. }
  split; [|split; [done|split; [done|]]].
  - split; [done|]. split; [done|]. simpl. split; [|split].
    + intros x Hx. apply elem_of_app. left. by apply Hsub.
    + intros f n Hin. destruct (Hentries f n Hin) as (Hd & Hn0 & Hk).
      split; [apply elem_of_app; by left | done].
    + right. split; [done|].
      split; [apply elem_of_app; right; apply elem_of_cons; by left|].
      split; [intros Hin; by apply Hfresh, Hsub|]. split; [|eauto].
      intros Hin. apply Hfresh.
      apply list_elem_of_fmap in Hin as ([f n] & -> & Hin). by apply (Hentries f n).
  - intros _. simpl. split; [|done]. by apply underscored_nonempty.
Qed.

(** X15. The names that pass 2 of [preProcess] generates. Whatever the
    declared names, the modules imported inline and the nameless default
    exports met, name generation ends; every module imported inline gets
    one namespace name; no two of them get the same name; no generated
    name is one of the declared names; and the name given to a nameless
    default export is none of the namespace names. A namespace name is the
    module specifier with every character other than a letter, a digit,
    [_] and [$] replaced by an underscore, behind as many more underscores
    as it takes to be new. *)
Theorem generated_names_distinct (declared : list string)
    (requests : list NameRequest) :
  exists names,
    generateNames (mkNames declared [] "") requests = Some names
    /\ map fst (inlineImports names) = setOf (flat_map inlineImportOf requests)
    /\ NoDup (map snd (inlineImports names))
    /\ (forall fileId importName,
          (fileId, importName) ∈ inlineImports names ->
          (importName ∉ declared)
          /\ identifierCharacters importName = true
          /\ exists k, importName = underscored k (sanitize fileId))
    /\ (existsb isNamelessDefault requests = false -> defaultExport names = "")
    /\ (existsb isNamelessDefault requests = true ->
        (defaultExport names ∉ declared)
        /\ (defaultExport names ∉ map snd (inlineImports names))
        /\ exists k, defaultExport names = underscored k "export_default").
Proof.
  assert (Hgen : forall requests names,
            namesInv declared "" names ->
            exists names',
              generateNames names requests = Some names'
              /\ namesInv declared "" names'
              /\ map fst (inlineImports names')
                 = fold_left (fun acc x => setAdd x acc)
                     (flat_map inlineImportOf requests)
                     (map fst (inlineImports names))
              /\ (existsb isNamelessDefault requests = false ->
                  defaultExport names' = defaultExport names)
              /\ (existsb isNamelessDefault requests = true ->
                  defaultExport names' <> "")).
  { clear requests.
    induction requests as [|[fileId|] rest IH]; intros names Hinv; simpl.
    - exists names. done.
    - destruct (createNamespaceImport_step declared "" names fileId Hinv)
        as (n & names1 & Hstep & Hinv1 & Hdef1 & Hkeys1).
      rewrite Hstep.
      destruct (IH names1 Hinv1) as (names' & Hrun & Hinv' & Hkeys' & Hno & Hyes).
      exists names'. split; [done|]. split; [done|].
      split; [|split; [by rewrite <- Hdef1 | done]].
      rewrite Hkeys', Hkeys1. f_equal. unfold setAdd, mapHas.
      fold (setHas (map fst (inlineImports names)) fileId).
      destruct (mapGet (inlineImports names) fileId) eqn:Hget.
      + assert (Hin : fileId ∈ map fst (inlineImports names)).
        { apply mapHas_keys. unfold mapHas. by rewrite Hget. }
        apply setHas_correct in Hin. by rewrite Hin.
      + assert (Hnin : fileId ∉ map fst (inlineImports names)).
        { intros Hin%mapHas_keys. unfold mapHas in Hin. by rewrite Hget in Hin. }
        apply setHas_false in Hnin. by rewrite Hnin.
    - destruct (nameDefaultExport_step declared "" names Hinv)
        as (names1 & Hstep & Hinv1 & Himports1 & Hkeep & Hset).
      rewrite Hstep.
      destruct (IH names1 Hinv1) as (names' & Hrun & Hinv' & Hkeys' & Hno & Hyes).
      exists names'. split; [done|]. split; [done|].
      split; [by rewrite Hkeys', Himports1|]. split; [done|]. intros _.
      destruct (existsb isNamelessDefault rest) eqn:Hrest; [by apply Hyes|].
      rewrite (Hno eq_refl).
      destruct (String.eqb_spec (defaultExport names) "") as [He|Hne].
      + by apply Hset.
      + by rewrite (Hkeep Hne). }
  destruct (Hgen requests (mkNames declared [] ""))
    as (names & Hrun & Hinv & Hkeys & Hno & Hyes).
  { split; [apply NoDup_nil_2|]. split; [apply NoDup_nil_2|]. split; [done|].
    split; [by intros f n ?%elem_of_nil | by left]. }
  exists names. split; [done|]. split; [exact Hkeys|].
  destruct Hinv as (_ & Hvalues & _ & Hentries & Hdefault). split; [done|].
  split; [|split; [exact Hno|]].
  - intros f n Hin. destruct (Hentries f n Hin) as (_ & Hfresh & k & ->).
    split; [done|]. split; [|eauto].
    apply identifierCharacters_underscored, identifierCharacters_sanitize.
  - intros Hsome. specialize (Hyes Hsome).
    destruct Hdefault as [?|(_ & _ & Hd0 & Hdi & Hk)]; done.
Qed.

End PreProcessNamesFacts.

(** ** Post-processing as one replacement *)

Module PostProcessFacts.
Import TS JS JSFacts DeclarationProcessor DeclarationProcessorFacts.

Lemma sliceTo_sliceFrom n s : sliceTo n s +:+ sliceFrom n s = s.
Proof.
  revert n. induction s as [|c s IH]; intros [|n]; cbn [sliceTo sliceFrom];
    try done.
  by rewrite append_cons, IH.
Qed.

Lemma length_sliceTo n s :
  n <= String.length s -> String.length (sliceTo n s) = n.
Proof.
  revert n. induction s as [|c s IH]; intros [|n] Hn; simpl in *; try done; try lia.
  rewrite IH; [done | lia].
Qed.

Lemma sliceTo_slice a b s :
  a <= b -> sliceTo a s +:+ slice a b s = sliceTo b s.
Proof.
  unfold slice. revert a b. induction s as [|c s IH]; intros [|a] [|b] Hab;
    cbn [sliceTo sliceFrom Nat.sub]; try done; try lia.
  - by destruct (b - a).
  - rewrite append_cons, IH; [done | lia].
Qed.

Lemma sliceTo_prefix a b s x :
  a <= b -> b <= String.length s ->
  sliceTo a (sliceTo b s +:+ x) = sliceTo a s.
Proof.
  revert a b. induction s as [|c s IH]; intros [|a] [|b] Ha Hb;
    cbn [sliceTo String.length] in *; try done; try lia.
  rewrite append_cons. cbn [sliceTo]. rewrite IH; [done | lia | lia].
Qed.

Lemma sliceFrom_prefix b s x :
  b <= String.length s -> sliceFrom b (sliceTo b s +:+ x) = x.
Proof.
  intros Hb. rewrite <- (length_sliceTo b s Hb) at 1.
  rewrite <- (Nat.add_0_r (String.length _)). by rewrite sliceFrom_app.
Qed.

Lemma separated_bound from ascending text :
  separated from ascending text -> from <= String.length text.
Proof.
  revert from. induction ascending as [|t rest IH]; intros from; simpl; [done|].
  intros (H1 & H2 & H3). apply IH in H3. lia.
Qed.

(** Applying the transformations last range first computes the splice. *)
Lemma fold_applyTransformation ascending text from :
  separated from ascending text ->
  fold_left applyTransformation (rev ascending) text
  = sliceTo from text +:+ spliceFrom from ascending text.
Proof.
  revert from. induction ascending as [|t rest IH]; intros from Hsep; simpl.
  - by rewrite sliceTo_sliceFrom.
  - destruct Hsep as (H1 & H2 & H3).
    pose proof (separated_bound _ _ _ H3) as Hb.
    rewrite fold_left_app. simpl. rewrite (IH (tEnd t) H3).
    unfold applyTransformation.
    rewrite sliceTo_prefix by lia. rewrite sliceFrom_prefix by lia.
    fold (replacementText t).
    rewrite <- (sliceTo_slice from (tStart t) text H1), !append_assoc. done.
Qed.

(** X16. [postProcess] replaces all its ranges at once. When the ranges it
    collected lie in the text in order and without overlap, applying them
    from the last to the first gives the text with each range replaced by
    its replacement and every character outside the ranges kept in
    place. *)
Theorem postProcess_splices (sourceFile : SourceFile) :
  separated 0 (rev (transformations sourceFile)) (fullText sourceFile) ->
  postProcess sourceFile
  = spliceFrom 0 (rev (transformations sourceFile)) (fullText sourceFile).
Proof.
  intros Hsep. unfold postProcess.
  rewrite <- (rev_involutive (transformations sourceFile)) at 1.
  by rewrite (fold_applyTransformation _ _ 0 Hsep).
Qed.

(** An import of a declaration file followed by a stray semicolon. *)
Lemma postProcess_splices_witness :
  postProcess Examples.importThenSemicolon
  = spliceFrom 0 (rev (transformations Examples.importThenSemicolon))
      (fullText Examples.importThenSemicolon)
  /\ postProcess Examples.importThenSemicolon = "import { a } from './a.js';".
Proof.
  split; [|reflexivity].
  apply (postProcess_splices Examples.importThenSemicolon).
  vm_compute. lia.
Defined.

(** *** Files of import and export-from statements *)







End PostProcessFacts.

(** ** Renaming on conflict *)

Module RenameFacts.
Import TS JS JSFacts DeclarationBundler DeclarationBundlerFacts.

Lemma append_inj_l (a b c : string) : a +:+ b = a +:+ c -> b = c.
Proof.
  induction a as [|x a IH]; [done|]. rewrite !append_cons. intros [= H]. auto.
Qed.

Lemma renameKey_inj_path name p q :
  renameKey name p = renameKey name q -> p = q.
Proof.
  unfold renameKey. intros H. apply append_inj_l in H. by apply (append_inj_l ":").
Qed.

Lemma renameKey_inj name name' p q :
  hasColon name = false -> hasColon name' = false ->
  renameKey name p = renameKey name' q -> name = name' /\ p = q.
Proof.
  unfold renameKey. revert name'.
  induction name as [|c name IH]; intros [|c' name'] Hn Hn'; rewrite ?append_cons;
    rewrite ?append_nil_l; simpl in Hn, Hn'.
  - intros H. split; [done|]. by apply (append_inj_l ":").
  - change (":" +:+ p) with (String ":" p). intros [= <- _].
    by rewrite Ascii.eqb_refl in Hn'.
  - change (":" +:+ q) with (String ":" q). intros [= -> _].
    by rewrite Ascii.eqb_refl in Hn.
  - apply orb_false_iff in Hn as [_ Hn]. apply orb_false_iff in Hn' as [_ Hn'].
    intros [= -> H]. destruct (IH name' Hn Hn' H) as [-> ->]. done.
Qed.

Lemma to_uint_not_Nil n : Nat.to_uint n <> Decimal.Nil.
Proof.
  pose proof (DecimalNat.Unsigned.to_of (Nat.to_uint n)) as H.
  rewrite DecimalNat.Unsigned.of_to in H. rewrite H.
  unfold Decimal.unorm. by destruct (Decimal.nzhead (Nat.to_uint n)).
Qed.

Lemma ofNat_inj i j : ofNat i = ofNat j -> i = j.
Proof.
  unfold ofNat. intros H.
  apply (f_equal NilZero.uint_of_string) in H.
  rewrite !NilZero.usu in H by apply to_uint_not_Nil. injection H as H.
  by apply DecimalNat.Unsigned.to_uint_inj.
Qed.

Lemma nameInBundle_inj name i j :
  nameInBundle name i = nameInBundle name j -> i = j.
Proof.
  assert (Hne : forall k, name <> name +:+ "$" +:+ ofNat (S k)).
  { intros k H. apply (f_equal String.length) in H.
    rewrite !length_append in H. simpl in H. lia. }
  destruct i as [|i], j as [|j]; simpl; intros H; [done|by apply Hne in H| |].
  - symmetry in H. by apply Hne in H.
  - apply append_inj_l, (append_inj_l "$"), ofNat_inj in H. done.
Qed.

Lemma elem_of_mapGet {V} (m : list (string * V)) k v :
  NoDup (map fst m) -> (k, v) ∈ m -> mapGet m k = Some v.
Proof.
  induction m as [|[k0 v0] m IH]; simpl; [by intros _ ?%elem_of_nil|].
  intros [Hk Hnd]%NoDup_cons [[= <- <-]|Hin]%elem_of_cons.
  - by rewrite String.eqb_refl.
  - destruct (String.eqb_spec k0 k) as [->|Hne]; [|by apply IH].
    exfalso. apply Hk. apply list_elem_of_fmap. by exists (k, v).
Qed.

(** *** The first pass: who declares what *)

Lemma collectDeclarationSources_pairs (sortedModules : list ModuleInfo) :
  collectDeclarationSources sortedModules
  = fold_left (fun acc e => addSource (fst e) (snd e) acc)
      (declaredPairs sortedModules) [].
Proof.
  unfold collectDeclarationSources, declaredPairs.
  generalize (@nil (string * list string)).
  induction sortedModules as [|m rest IH]; intros acc; simpl; [done|].
  rewrite fold_left_app, IH. f_equal.
  rewrite map_app, fold_left_app.
  assert (Hmap : forall ns acc0,
            fold_left (fun acc e => addSource (fst e) (snd e) acc)
              (map (fun name => (name, path m)) ns) acc0
            = fold_left (fun acc name => addSource name (path m) acc) ns acc0).
  { intros ns. induction ns as [|n ns IHn]; intros acc0; simpl; [done|]. apply IHn. }
  by rewrite !Hmap.
Qed.

Lemma mapGet_addSource name modulePath sources k :
  mapGet (addSource name modulePath sources) k
  = if String.eqb name k
    then Some (setAdd modulePath
                 match mapGet sources name with Some ps => ps | None => [] end)
    else mapGet sources k.
Proof.
  unfold addSource, mapHas.
  destruct (mapGet sources name) as [ps|] eqn:Hget.
  - rewrite Hget, mapGet_mapSet. done.
  - rewrite mapGet_mapSet, String.eqb_refl, !mapGet_mapSet.
    destruct (String.eqb name k); done.
Qed.

Lemma addSource_keys name modulePath sources :
  NoDup (map fst sources) -> NoDup (map fst (addSource name modulePath sources)).
Proof.
  intros Hnd. unfold addSource, mapHas.
  destruct (mapGet sources name) as [ps|] eqn:Hget.
  - rewrite Hget. by apply NoDup_mapSet_keys.
  - rewrite mapGet_mapSet, String.eqb_refl. by do 2 apply NoDup_mapSet_keys.
Qed.

(** The sources after the first pass over [pairs]. *)
Lemma sources_spec (pairs : list (string * string)) :
  let sources := fold_left (fun acc e => addSource (fst e) (snd e) acc) pairs [] in
  NoDup (map fst sources)
  /\ forall name,
       match mapGet sources name with
       | Some paths =>
           NoDup paths /\ paths <> []
           /\ forall p, p ∈ paths <-> (name, p) ∈ pairs
       | None => forall p, (name, p) ∉ pairs
       end.
Proof.
  cbn zeta. induction pairs as [|[n q] pairs IH] using rev_ind.
  - split; [apply NoDup_nil_2|]. intros name p. apply not_elem_of_nil.
  - rewrite fold_left_app. simpl. destruct IH as [Hkeys Hget].
    split; [by apply addSource_keys|]. intros name.
    rewrite mapGet_addSource. specialize (Hget name).
    destruct (String.eqb_spec n name) as [->|Hne].
    + destruct (mapGet _ name) as [ps|].
      * destruct Hget as (Hnd & Hne & Hin). split; [by apply NoDup_setAdd|].
        split.
        -- unfold setAdd. destruct (existsb _ ps); [done|]. by destruct ps.
        -- intros p. rewrite elem_of_setAdd, elem_of_app, list_elem_of_singleton, Hin.
           split; [intros [->|?]; auto | intros [?|[= ->]]; auto].
      * split; [apply NoDup_singleton|]. split; [done|]. intros p.
        rewrite elem_of_setAdd, elem_of_app, list_elem_of_singleton.
        split; [intros [->|?%elem_of_nil]; auto; done|].
        intros [Hin|[= ->]]; [by apply Hget in Hin | auto].
    + destruct (mapGet _ name) as [ps|].
      * destruct Hget as (Hnd & Hnn & Hin). split; [done|]. split; [done|].
        intros p. rewrite Hin, elem_of_app, list_elem_of_singleton.
        split; [auto | intros [?|[= -> _]]; done].
      * intros p [Hin|[= -> _]%list_elem_of_singleton]%elem_of_app; [|done].
        by apply Hget in Hin.
Qed.

(** *** The second pass: the rename map *)

Lemma mapGet_renameLater_other name index later renameMap k :
  (forall p, p ∈ later -> renameKey name p <> k) ->
  mapGet (renameLater name index later renameMap) k = mapGet renameMap k.
Proof.
  revert index renameMap. induction later as [|p later IH]; intros index rm Hk;
    simpl; [done|].
  rewrite IH by (intros q Hq; apply Hk, elem_of_cons; by right).
  rewrite mapGet_mapSet.
  destruct (String.eqb_spec (renameKey name p) k) as [He|]; [|done].
  exfalso. eapply Hk; [|exact He]. apply elem_of_cons. by left.
Qed.

Lemma mapGet_renameLater name index later renameMap j p :
  NoDup later -> later !! j = Some p ->
  mapGet (renameLater name index later renameMap) (renameKey name p)
  = Some (name +:+ "$" +:+ ofNat (index + j + 1)).
Proof.
  revert index renameMap j. induction later as [|q later IH];
    intros index rm j Hnd Hj; [done|].
  apply NoDup_cons in Hnd as [Hq Hnd]. simpl. destruct j as [|j]; simpl in Hj.
  - injection Hj as ->. rewrite mapGet_renameLater_other.
    + rewrite mapGet_mapSet, String.eqb_refl.
      by replace (index + 0 + 1) with (index + 1) by lia.
    + intros p' Hp' He. apply renameKey_inj_path in He. by subst.
  - rewrite (IH (S index) _ j Hnd Hj).
    by replace (S index + j + 1) with (index + S j + 1) by lia.
Qed.

Lemma renameEntries_other sources renameMap k :
  (forall n ps q, (n, ps) ∈ sources -> q ∈ tl ps -> renameKey n q <> k) ->
  mapGet (renameEntries sources renameMap) k = mapGet renameMap k.
Proof.
  unfold renameEntries. revert renameMap.
  induction sources as [|[n ps] sources IH]; intros rm Hk; [done|]. simpl.
  rewrite IH.
  - destruct (Nat.ltb 1 (length ps)); [|done].
    apply mapGet_renameLater_other. intros q Hq. eapply Hk; [|exact Hq].
    apply elem_of_cons. by left.
  - intros n' ps' q Hin. apply Hk. apply elem_of_cons. by right.
Qed.

Lemma buildRenameMap_get (sources : list (string * list string))
    (name : string) (paths : list string) (i : nat) (p : string) :
  NoDup (map fst sources) ->
  (forall n ps, (n, ps) ∈ sources -> hasColon n = false /\ NoDup ps) ->
  (name, paths) ∈ sources ->
  paths !! i = Some p ->
  mapGet (buildRenameMap sources) (renameKey name p)
  = match i with
    | O => None
    | S _ => Some (name +:+ "$" +:+ ofNat i)
    end.
Proof.
  intros Hkeys Hall Hin Hi.
  change (buildRenameMap sources) with (renameEntries sources []).
  assert (Hgen : forall renameMap,
            mapGet (renameEntries sources renameMap) (renameKey name p)
            = match i with
              | O => mapGet renameMap (renameKey name p)
              | S _ => Some (name +:+ "$" +:+ ofNat i)
              end); [|by rewrite Hgen; destruct i].
  destruct (Hall _ _ Hin) as [Hcolon Hnd].
  induction sources as [|[n ps] sources IH]; intros rm;
    [by apply elem_of_nil in Hin|].
  simpl in Hkeys. apply NoDup_cons in Hkeys as [Hn Hkeys].
  assert (Hall' : forall n0 ps0, (n0, ps0) ∈ sources ->
                                 hasColon n0 = false /\ NoDup ps0).
  { intros n0 ps0 Hin0. apply Hall. apply elem_of_cons. by right. }
  change (renameEntries ((n, ps) :: sources) rm)
    with (renameEntries sources
            (if Nat.ltb 1 (length ps) then renameLater n 0 (tl ps) rm else rm)).
  apply elem_of_cons in Hin as [[= <- <-]|Hin].
  - (* the entry of [name]: the later entries leave its keys alone *)
    rewrite renameEntries_other.
    2:{ intros n' ps' q Hin' _ He.
        apply renameKey_inj in He as [-> _]; [| |done].
        - apply Hn. apply list_elem_of_fmap. by exists (name, ps').
        - by eapply proj1, (Hall' n' ps'). }
    destruct paths as [|p0 later]; [done|].
    apply NoDup_cons in Hnd as [Hp0 Hnd].
    destruct i as [|j]; simpl in Hi.
    + injection Hi as ->. destruct (Nat.ltb 1 (length (p :: later))); [|done].
      apply mapGet_renameLater_other. intros q Hq He.
      apply renameKey_inj_path in He. by subst.
    + assert (Hlen : Nat.ltb 1 (length (p0 :: later)) = true).
      { apply Nat.ltb_lt. simpl. apply lookup_lt_Some in Hi. lia. }
      rewrite Hlen. simpl. rewrite (mapGet_renameLater _ _ _ _ j p Hnd Hi).
      by replace (0 + j + 1) with (S j) by lia.
  - (* another entry: it leaves the keys of [name] alone *)
    rewrite (IH Hkeys Hall' Hin).
    destruct i; [|done]. destruct (Nat.ltb 1 (length ps)); [|done].
    apply mapGet_renameLater_other. intros q _ He.
    apply renameKey_inj in He as [-> _]; [| |done].
    + apply Hn. apply list_elem_of_fmap. by exists (name, paths).
    + eapply proj1, (Hall n ps). apply elem_of_cons. by left.
Qed.

(** *** The order of the declaring modules *)

Lemma setOf_snoc xs x : setOf (xs ++ [x]) = setAdd x (setOf xs).
Proof. unfold setOf. by rewrite fold_left_app. Qed.

Lemma setAdd_again x xs : setAdd x (setAdd x xs) = setAdd x xs.
Proof.
  unfold setAdd at 1.
  assert (H : existsb (String.eqb x) (setAdd x xs) = true).
  { apply existsb_exists. exists x. rewrite <- list_elem_of_In, elem_of_setAdd.
    split; [by left | apply String.eqb_refl]. }
  by rewrite H.
Qed.

(** The paths recorded for [name] are the second components of its pairs,
    first occurrences, in order. *)
Lemma sources_order (pairs : list (string * string)) (name : string)
    (paths : list string) :
  mapGet (fold_left (fun acc e => addSource (fst e) (snd e) acc) pairs []) name
  = Some paths ->
  paths
  = setOf (map snd (List.filter (fun e => String.eqb (fst e) name) pairs)).
Proof.
  revert paths. induction pairs as [|[n q] pairs IH] using rev_ind; [done|].
  intros paths. rewrite fold_left_app. cbn [fold_left fst snd].
  rewrite mapGet_addSource, List.filter_app, map_app. cbn [List.filter fst].
  pose proof (sources_spec pairs) as [_ Hspec]. cbn zeta in Hspec.
  specialize (Hspec name).
  destruct (String.eqb_spec n name) as [->|Hne].
  - cbn [map snd]. rewrite setOf_snoc. intros [= <-]. f_equal.
    destruct (mapGet _ name) as [ps|]; [by apply IH|].
    assert (Hnone : List.filter (fun e => String.eqb (fst e) name) pairs = []).
    { clear -Hspec. induction pairs as [|[n' q'] pairs IH]; [done|]. simpl.
      destruct (String.eqb_spec n' name) as [->|Hne].
      - exfalso. apply (Hspec q'). left.
      - apply IH. intros p Hp. apply (Hspec p). by right. }
    by rewrite Hnone.
  - cbn [map]. rewrite List.app_nil_r. apply IH.
Qed.

Lemma fold_setAdd_repeat p k acc :
  fold_left (fun acc x => setAdd x acc) (repeat p k) acc
  = if Nat.ltb 0 k then setAdd p acc else acc.
Proof.
  revert acc. induction k as [|k IH]; intros acc; [done|]. cbn [repeat fold_left].
  rewrite IH. destruct k; [done|]. cbn [Nat.ltb Nat.leb]. apply setAdd_again.
Qed.

Lemma filter_declared name p names :
  map snd
    (List.filter (fun e : string * string => String.eqb (fst e) name)
       (map (fun n => (n, p)) names))
  = repeat p (length (List.filter (fun n => String.eqb n name) names)).
Proof.
  induction names as [|n names IH]; [done|]. simpl.
  destruct (String.eqb n name); simpl; by rewrite IH.
Qed.

Lemma declares_filter name m :
  declares name m
  = Nat.ltb 0
      (length (List.filter (fun n => String.eqb n name)
                 (types (identifiers m) ++ values (identifiers m)))).
Proof.
  unfold declares, setHas.
  induction (types (identifiers m) ++ values (identifiers m)) as [|n names IH];
    [done|].
  simpl. rewrite String.eqb_sym. destruct (String.eqb n name); [done|]. apply IH.
Qed.

(** The pairs of [name], read module by module. *)
Lemma declaredPairs_order (sortedModules : list ModuleInfo) (name : string) :
  setOf (map snd (List.filter (fun e => String.eqb (fst e) name)
                    (declaredPairs sortedModules)))
  = setOf (map path (List.filter (declares name) sortedModules)).
Proof.
  unfold setOf, declaredPairs. generalize (@nil string).
  induction sortedModules as [|m rest IH]; intros acc; [done|].
  cbn [flat_map]. rewrite List.filter_app, map_app, fold_left_app.
  rewrite filter_declared, fold_setAdd_repeat, IH. cbn [List.filter].
  rewrite declares_filter.
  by destruct (Nat.ltb 0 _).
Qed.
(** X17. How name conflicts are resolved. When no declared name holds a
    colon, the modules that declare a name are listed once each, in bundle
    order: the list recorded for the name is the list of the paths of the
    modules of [sortedModules] that declare it, in the order of
    [sortedModules], each path where it first occurs. The first of them
    keeps the name and the one at position [i > 0] gets the name followed
    by [$i]. The names given for one declared name are pairwise
    different. *)
Theorem conflicting_names_get_numbered (sortedModules : list ModuleInfo)
    (name : string) (paths : list string) :
  (forall m n, m ∈ sortedModules ->
               n ∈ types (identifiers m) ++ values (identifiers m) ->
               hasColon n = false) ->
  mapGet (collectDeclarationSources sortedModules) name = Some paths ->
  let renameMap := buildRenameMap (collectDeclarationSources sortedModules) in
  paths = setOf (map path (List.filter (declares name) sortedModules))
  /\ NoDup paths
  /\ (forall p, p ∈ paths
                <-> exists m, m ∈ sortedModules /\ path m = p
                    /\ name ∈ types (identifiers m) ++ values (identifiers m))
  /\ (forall i p, paths !! i = Some p ->
        match mapGet renameMap (renameKey name p) with
        | Some renamed => renamed
        | None => name
        end = nameInBundle name i)
  /\ (forall i j, nameInBundle name i = nameInBundle name j -> i = j).
Proof.
  intros Hcolon Hget. cbn zeta.
  pose proof (sources_spec (declaredPairs sortedModules)) as [Hkeys Hspec].
  cbn zeta in Hkeys, Hspec.
  rewrite <- collectDeclarationSources_pairs in Hkeys, Hspec.
  assert (Hpairs : forall n p, (n, p) ∈ declaredPairs sortedModules
            <-> exists m, m ∈ sortedModules /\ path m = p
                /\ n ∈ types (identifiers m) ++ values (identifiers m)).
  { intros n p. unfold declaredPairs. rewrite list_elem_of_In, in_flat_map. split.
    - intros (m & Hm & Hin). apply in_map_iff in Hin as (n' & [= -> <-] & Hn').
      exists m. by rewrite !list_elem_of_In.
    - intros (m & Hm & <- & Hn). exists m. rewrite <- list_elem_of_In.
      split; [done|]. apply in_map_iff. exists n. by rewrite <- list_elem_of_In. }
  pose proof (Hspec name) as Hname. rewrite Hget in Hname.
  destruct Hname as (Hnd & Hne & Hin).
  split; [|split; [done|split; [|split]]].
  - rewrite <- declaredPairs_order. apply sources_order.
    by rewrite <- collectDeclarationSources_pairs.
  - intros p. by rewrite Hin, Hpairs.
  - intros i p Hi.
    rewrite (buildRenameMap_get _ name paths i p Hkeys); [by destruct i| |by apply mapGet_elem_of|done].
    intros n ps Hnps. apply (elem_of_mapGet _ _ _ Hkeys) in Hnps.
    pose proof (Hspec n) as Hn. rewrite Hnps in Hn. destruct Hn as (Hnd' & Hne' & Hin').
    split; [|done]. destruct ps as [|q ps]; [done|].
    assert (Hq : (n, q) ∈ declaredPairs sortedModules).
    { apply Hin'. apply elem_of_cons. by left. }
    apply Hpairs in Hq as (m & Hm & _ & Hn). by eapply Hcolon.
  - apply nameInBundle_inj.
Qed.

Import Examples.

(** The two modules that both declare [Foo]. *)
Lemma conflicting_names_get_numbered_witness :
  let renameMap := buildRenameMap (collectDeclarationSources [moduleA; moduleB]) in
  ["/p/dist/a.d.ts"; "/p/dist/b.d.ts"]
  = setOf (map path (List.filter (declares "Foo") [moduleA; moduleB]))
  /\ NoDup ["/p/dist/a.d.ts"; "/p/dist/b.d.ts"]
  /\ (forall p, p ∈ ["/p/dist/a.d.ts"; "/p/dist/b.d.ts"]
                <-> exists m, m ∈ [moduleA; moduleB] /\ path m = p
                    /\ "Foo" ∈ types (identifiers m) ++ values (identifiers m))
  /\ (forall i p, ["/p/dist/a.d.ts"; "/p/dist/b.d.ts"] !! i = Some p ->
        match mapGet renameMap (renameKey "Foo" p) with
        | Some renamed => renamed
        | None => "Foo"
        end = nameInBundle "Foo" i)
  /\ (forall i j, nameInBundle "Foo" i = nameInBundle "Foo" j -> i = j).
Proof.
  apply (conflicting_names_get_numbered [moduleA; moduleB] "Foo"
           ["/p/dist/a.d.ts"; "/p/dist/b.d.ts"]).
  - intros m n Hm Hn.
    apply elem_of_cons in Hm as [->|Hm];
      [|apply elem_of_cons in Hm as [->|Hm]; [|by apply elem_of_nil in Hm]];
      simpl in Hn;
      repeat (apply elem_of_cons in Hn as [->|Hn]; [reflexivity|]);
      by apply elem_of_nil in Hn.
  - reflexivity.
Defined.

(** C2 fails on the code. Both modules declare the type alias [Foo]. The
    rename map gives the second module the name [Foo$1], as claimed, but
    the rename pass overwrites each identifier from [node.pos], where the
    token before it ends, so the blank before the name goes with it:
    [type Foo = boolean;] becomes [typeFoo$1 = boolean;], which declares
    nothing, and the bundle holds no declaration of [Foo$1]. *)
Theorem rename_pass_joins_name_to_keyword :
  let renameMap :=
    buildRenameMap
      (collectDeclarationSources [moduleFooString; moduleFooBoolean]) in
  renameMap = [("Foo:/p/dist/b.d.ts", "Foo$1")]
  /\ moduleRenamesOf (identifiers moduleFooBoolean) renameMap
       (path moduleFooBoolean)
     = [("Foo", "Foo$1")]
  /\ strippedText [mkName (mkLoc 4 5 8) "Foo" true] codeFooBoolean
       (sourceFile moduleFooBoolean) [("Foo", "Foo$1")]
     = Some "typeFoo$1 = boolean;"
  /\ bundledCode
       (combineModules [] magicText ∅ [moduleFooString; moduleFooBoolean] ∅)
     = "type Foo = string;" +:+ Constants.newLine +:+ Constants.newLine
       +:+ "typeFoo$1 = boolean;".
Proof. cbn zeta. repeat split; vm_compute; reflexivity. Qed.

End RenameFacts.

(** ** The exports of a bundle *)

Module BundleExportsFacts.
Import TS JS JSFacts DeclarationBundler DeclarationBundlerFacts.

Section Exports.

Variable external : list Pattern.
Variable magicToString : string -> SourceFile -> list (string * string) -> string.

(** The loop over the elements of one export declaration: each listed name
    goes to the value list or to the type list. *)
Lemma stripElements_exports (ids : IdentifierMap) (elements : list ExportSpecifier)
    (acc : list string * list string * list string) (n : string) :
  let final :=
    fold_left
      (fun (a : list string * list string * list string) e =>
         let '(ei, te, ve) := a in
         let localName :=
           match propertyName e with
           | Some p => getText p
           | None => getText (name e)
           end in
         if JS.setHas (values ids) localName then (ei, te, ve ++ [localName])
         else if JS.setHas (types ids) localName then (ei, te ++ [localName], ve)
         else (ei, te, ve ++ [localName]))
      elements acc in
  fst (fst final) = fst (fst acc)
  /\ (n ∈ snd final
      <-> n ∈ snd acc
          \/ exists e, e ∈ elements /\ n = localName e
                       /\ exportedAsValue ids n = true)
  /\ (n ∈ snd (fst final)
      <-> n ∈ snd (fst acc)
          \/ exists e, e ∈ elements /\ n = localName e
                       /\ exportedAsValue ids n = false).
Proof.
  cbn zeta. revert acc. induction elements as [|e rest IH]; intros acc.
  - simpl. split; [done|].
    split; (split; [by left|]); intros [H|(e & He & _)]; try done;
      by apply elem_of_nil in He.
  - cbn [fold_left]. destruct acc as [[ei te] ve].
    match goal with |- context [fold_left ?f rest ?a] =>
      destruct (IH a) as (Hei & Hv & Ht) end.
    fold (localName e) in *. rewrite Hei, Hv, Ht. clear Hei Hv Ht IH.
    unfold exportedAsValue.
    destruct (setHas (values ids) (localName e)) eqn:Hval;
      [|destruct (setHas (types ids) (localName e)) eqn:Htyp]; cbn [fst snd].
    all: split; [done|].
    all: rewrite ?elem_of_app, ?list_elem_of_singleton.
    all: split; split.
    all: try (intros [[H| ->]|(e' & He' & -> & Hk)];
              [by left
              |right; exists e; split; [left|split; [done|]];
               by rewrite ?Hval, ?Htyp
              |right; exists e'; split; [by right|done]]).
    all: try (intros [H|(e' & He' & -> & Hk)];
              [by left
              |right; exists e'; split; [by right|done]]).
    all: try (intros [H|(e' & He' & -> & Hk)]; [by left; left|];
              apply elem_of_cons in He' as [->|He'];
              [by left; right | right; by exists e']).
    all: intros [H|(e' & He' & -> & Hk)]; [by left|];
         apply elem_of_cons in He' as [->|He']; [|right; by exists e'];
         rewrite ?Hval, ?Htyp in Hk; discriminate Hk.
Qed.

Lemma listsExport_cons (statement : Node) (rest : list Node) (n : string) :
  listsExport (statement :: rest) n
  <-> listsExport [statement] n \/ listsExport rest n.
Proof.
  unfold listsExport. split.
  - intros (l & t & c & es & e & H & He & Hn).
    apply elem_of_cons in H as [<-|H]; [left|right]; exists l, t, c, es, e;
      (split; [|done]); [left|done].
  - intros [(l & t & c & es & e & H & He & Hn)|(l & t & c & es & e & H & He & Hn)];
      exists l, t, c, es, e; (split; [|done]).
    + apply list_elem_of_singleton in H as <-. left.
    + by right.
Qed.

(** One statement of the loop: what it adds to the value list and to the
    type list, whatever the [lastIndex] values. *)
Lemma stripStatement_exports (code : string) (ids : IdentifierMap)
    (bundledImportPaths : list string) (statement : Node)
    (acc : list string * list string * list string) (indexes : LastIndexes)
    (n : string) :
  let final :=
    fst (stripStatement external code ids bundledImportPaths (acc, indexes)
           statement) in
  (n ∈ snd final
   <-> n ∈ snd acc
       \/ (listsExport [statement] n /\ exportedAsValue ids n = true))
  /\ (n ∈ snd (fst final)
      <-> n ∈ snd (fst acc)
          \/ (listsExport [statement] n /\ exportedAsValue ids n = false)).
Proof.
  cbn zeta.
  assert (Hnone : forall final : list string * list string * list string,
    snd (fst final) = snd (fst acc) -> snd final = snd acc ->
    (forall l t c es, statement
                      <> ExportDeclaration l t (Some (NamedExports c es)) None) ->
    (n ∈ snd final
     <-> n ∈ snd acc
         \/ (listsExport [statement] n /\ exportedAsValue ids n = true))
    /\ (n ∈ snd (fst final)
        <-> n ∈ snd (fst acc)
            \/ (listsExport [statement] n /\ exportedAsValue ids n = false))).
  { intros final -> -> Hother.
    split; (split; [by left|]);
      intros [H|[(l & t & c & es & e & H & _) _]]; try done;
      apply list_elem_of_singleton in H; by destruct (Hother l t c es). }
  destruct acc as [[ei te] ve].
  destruct statement as [l|l t spec|l t [[cl es|cl]|] [spec|]|l|k l d|l d|l m b c|l];
    cbn [stripStatement]; try (by apply Hnone).
  - destruct (isExternal external (specifierText spec) indexes) as [explicit ix].
    destruct (explicit || _); by apply Hnone.
  - match goal with |- context [fold_left ?f es ?a] =>
      destruct (stripElements_exports ids es a n) as (_ & Hv & Ht) end.
    cbn [fst snd] in *. rewrite Hv, Ht.
    assert (Hlisted : forall asValue,
      (exists e, e ∈ es /\ n = localName e /\ exportedAsValue ids n = asValue)
      <-> listsExport
            [ExportDeclaration l t (Some (NamedExports cl es)) None] n
          /\ exportedAsValue ids n = asValue).
    { intros asValue. split.
      - intros (e & He & Hn & Hk). split; [|done].
        exists l, t, cl, es, e. split; [left|done].
      - intros [(? & ? & ? & ? & e & H' & He & Hn) Hk].
        apply list_elem_of_singleton in H'. injection H' as <- <- <- <-.
        by exists e. }
    by rewrite !Hlisted.
Qed.

Lemma stripStatements_exports (code : string) (ids : IdentifierMap)
    (bundledImportPaths : list string) (statements : list Node)
    (acc : list string * list string * list string) (indexes : LastIndexes)
    (n : string) :
  let final :=
    fst (fold_left (stripStatement external code ids bundledImportPaths)
           statements (acc, indexes)) in
  (n ∈ snd final
   <-> n ∈ snd acc
       \/ (listsExport statements n /\ exportedAsValue ids n = true))
  /\ (n ∈ snd (fst final)
      <-> n ∈ snd (fst acc)
          \/ (listsExport statements n /\ exportedAsValue ids n = false)).
Proof.
  cbn zeta. revert acc indexes.
  induction statements as [|statement rest IH]; intros acc indexes.
  - simpl. split; (split; [by left|]);
      intros [H|[(? & ? & ? & ? & ? & H & _) _]]; try done;
      by apply elem_of_nil in H.
  - cbn [fold_left].
    pose proof (stripStatement_exports code ids bundledImportPaths statement acc
                  indexes n) as Hs.
    cbn zeta in Hs.
    destruct (stripStatement external code ids bundledImportPaths (acc, indexes)
                statement) as [acc1 indexes1].
    cbn [fst] in Hs. destruct Hs as [Hv Ht].
    destruct (IH acc1 indexes1) as [Hv' Ht'].
    rewrite Hv', Ht', Hv, Ht, (listsExport_cons statement rest). tauto.
Qed.

(** The two export lists of one module. *)
Lemma stripImportsExports_exports (code : string) (sf : SourceFile)
    (ids : IdentifierMap) (bundledImportPaths : list string)
    (renameMap : list (string * string)) (modulePath : string)
    (indexes : LastIndexes) (n : string) :
  let dc :=
    fst (stripImportsExports external magicToString code sf ids
           bundledImportPaths renameMap modulePath indexes) in
  let listed asValue :=
    exists local,
      listsExport (statements sf) local
      /\ exportedAsValue ids local = asValue
      /\ n = exportsMapper (moduleRenamesOf ids renameMap modulePath) local in
  (n ∈ valueExports dc <-> listed true)
  /\ (n ∈ typeExports dc <-> listed false /\ ~ listed true).
Proof.
  cbn zeta. unfold stripImportsExports.
  pose proof (fun local => stripStatements_exports code ids bundledImportPaths
                (statements sf) ([], [], []) indexes local) as Hlocal.
  cbn zeta in Hlocal.
  destruct (fold_left _ (statements sf) _) as [[[ei te] ve] indexes'].
  cbn [fst valueExports typeExports]. cbn [fst snd] in Hlocal.
  set (mapper := exportsMapper _).
  assert (Hv : forall local, local ∈ ve
                 <-> listsExport (statements sf) local
                     /\ exportedAsValue ids local = true).
  { intros local. destruct (Hlocal local) as [-> _]. split; [|by right].
    intros [H|H]; [by apply elem_of_nil in H|done]. }
  assert (Ht : forall local, local ∈ te
                 <-> listsExport (statements sf) local
                     /\ exportedAsValue ids local = false).
  { intros local. destruct (Hlocal local) as [_ ->]. split; [|by right].
    intros [H|H]; [by apply elem_of_nil in H|done]. }
  assert (Hvalue : n ∈ setOf (map mapper ve)
                   <-> exists local, listsExport (statements sf) local
                         /\ exportedAsValue ids local = true /\ n = mapper local).
  { rewrite elem_of_setOf, list_elem_of_fmap. split.
    - intros (local & -> & H). apply Hv in H as [? ?]. by exists local.
    - intros (local & H1 & H2 & ->). exists local. split; [done|].
      by apply Hv. }
  split; [done|].
  rewrite elem_of_setOf, (list_elem_of_In (List.filter _ _)), filter_In,
    <- list_elem_of_In, negb_true_iff, setHas_false, Hvalue, list_elem_of_fmap.
  split.
  - intros [(local & -> & H) Hno]. apply Ht in H as [? ?].
    split; [by exists local | done].
  - intros [(local & H1 & H2 & ->) Hno]. split; [|done].
    exists local. split; [done|]. by apply Ht.
Qed.

(** The names a list of modules adds to the two accumulated export
    lists. *)
Lemma accumulate_exports (bundledSpecifiers : gmap string (list string))
    (renameMap : list (string * string)) (modules : list ModuleInfo)
    (acc : Accumulated) (indexes : LastIndexes) (n : string) :
  let final :=
    fst (fold_left (accumulate external magicToString bundledSpecifiers renameMap)
           modules (acc, indexes)) in
  let listed asValue :=
    exists m local,
      m ∈ modules /\ isProjectModule m = true
      /\ listsExport (statements (sourceFile m)) local
      /\ exportedAsValue (identifiers m) local = asValue
      /\ n = exportsMapper (moduleRenamesOf (identifiers m) renameMap (path m))
               local in
  let shadowed :=
    exists m,
      m ∈ modules /\ isProjectModule m = true
      /\ (exists local,
            listsExport (statements (sourceFile m)) local
            /\ exportedAsValue (identifiers m) local = false
            /\ n = exportsMapper
                     (moduleRenamesOf (identifiers m) renameMap (path m)) local)
      /\ ~ (exists local,
              listsExport (statements (sourceFile m)) local
              /\ exportedAsValue (identifiers m) local = true
              /\ n = exportsMapper
                       (moduleRenamesOf (identifiers m) renameMap (path m))
                       local) in
  (n ∈ allValueExports final <-> n ∈ allValueExports acc \/ listed true)
  /\ (n ∈ allTypeExports final <-> n ∈ allTypeExports acc \/ shadowed).
Proof.
  cbn zeta. revert acc indexes.
  induction modules as [|m rest IH]; intros acc indexes.
  - simpl. split; (split; [by left|]).
    + intros [H|(m & local & Hm & _)]; [done | by apply elem_of_nil in Hm].
    + intros [H|(m & Hm & _)]; [done | by apply elem_of_nil in Hm].
  - cbn [fold_left].
    assert (Hstep : exists acc1 indexes1,
      accumulate external magicToString bundledSpecifiers renameMap
        (acc, indexes) m = (acc1, indexes1)
      /\ (n ∈ allValueExports acc1
          <-> n ∈ allValueExports acc
              \/ (isProjectModule m = true
                  /\ exists local,
                       listsExport (statements (sourceFile m)) local
                       /\ exportedAsValue (identifiers m) local = true
                       /\ n = exportsMapper
                                (moduleRenamesOf (identifiers m) renameMap (path m))
                                local))
      /\ (n ∈ allTypeExports acc1
          <-> n ∈ allTypeExports acc
              \/ (isProjectModule m = true
                  /\ (exists local,
                        listsExport (statements (sourceFile m)) local
                        /\ exportedAsValue (identifiers m) local = false
                        /\ n = exportsMapper
                                 (moduleRenamesOf (identifiers m) renameMap
                                    (path m)) local)
                  /\ ~ (exists local,
                          listsExport (statements (sourceFile m)) local
                          /\ exportedAsValue (identifiers m) local = true
                          /\ n = exportsMapper
                                   (moduleRenamesOf (identifiers m) renameMap
                                      (path m)) local)))).
    { pose proof (stripImportsExports_exports (moduleCode m) (sourceFile m)
                    (identifiers m)
                    (match bundledSpecifiers !! path m with
                     | Some l => l
                     | None => []
                     end) renameMap (path m) indexes n) as Hm.
      cbn zeta in Hm. unfold accumulate.
      destruct (stripImportsExports external magicToString (moduleCode m)
                  (sourceFile m) (identifiers m) _ renameMap (path m) indexes)
        as [dc indexes1].
      cbn [fst] in Hm. destruct Hm as [Hv Ht].
      eexists _, _. split; [reflexivity|].
      cbn [allValueExports allTypeExports]. fold (isProjectModule m).
      destruct (isProjectModule m); rewrite ?elem_of_app, ?Hv, ?Ht;
        split;
        first [ tauto
              | split; [by left | intros [H|[H _]]; [done | discriminate H]] ]. }
    destruct Hstep as (acc1 & indexes1 & -> & Hv & Ht).
    destruct (IH acc1 indexes1) as [Hv' Ht']. rewrite Hv', Ht', Hv, Ht.
    clear. split; split.
    + intros [[H|(Hp & local & H)]|(m' & local & Hm' & H)].
      * by left.
      * right. exists m, local. split; [left|done].
      * right. exists m', local. split; [by right|done].
    + intros [H|(m' & local & Hm' & Hp' & H)]; [by left; left|].
      apply elem_of_cons in Hm' as [->|Hm'].
      * left. right. split; [done|]. by exists local.
      * right. by exists m', local.
    + intros [[H|(Hp & H1 & H2)]|(m' & Hm' & H)].
      * by left.
      * right. exists m. split; [left|done].
      * right. exists m'. split; [by right|done].
    + intros [H|(m' & Hm' & Hp' & H1 & H2)]; [by left; left|].
      apply elem_of_cons in Hm' as [->|Hm'].
      * left. by right.
      * right. by exists m'.
Qed.

(** The two final lists of the bundle. *)
Lemma final_exports (indexes : LastIndexes) (sortedModules : list ModuleInfo)
    (bundledSpecifiers : gmap string (list string)) (n : string) :
  let acc :=
    accumulateAll external magicToString indexes sortedModules bundledSpecifiers in
  (n ∈ finalValueExports acc <-> exportedBy sortedModules true n)
  /\ (n ∈ finalTypeExports acc
      <-> exportedBy sortedModules false n /\ ~ exportedBy sortedModules true n).
Proof.
  cbn zeta. unfold accumulateAll, finalTypeExports, finalValueExports.
  destruct (accumulate_exports bundledSpecifiers
              (buildRenameMap (collectDeclarationSources sortedModules))
              sortedModules (mkAccumulated [] [] [] [] [] [] []) indexes n)
    as [Hv Ht].
  cbn zeta in Hv, Ht.
  set (acc := fst (fold_left _ sortedModules _)) in *.
  assert (Hvalue : n ∈ setOf (allValueExports acc)
                   <-> exportedBy sortedModules true n).
  { rewrite elem_of_setOf, Hv. cbn [allValueExports]. unfold exportedBy.
    split; [|by right]. intros [H|H]; [by apply elem_of_nil in H|done]. }
  split; [done|].
  rewrite elem_of_setOf, list_elem_of_In, filter_In, <- list_elem_of_In,
    negb_true_iff, setHas_false, Hvalue, Ht.
  cbn [allTypeExports]. unfold exportedBy. split.
  - intros [[H|(m & Hm & Hp & (local & H1 & H2 & H3) & _)] Hno];
      [by apply elem_of_nil in H|].
    split; [|done]. by exists m, local.
  - intros [(m & local & Hm & Hp & H1 & H2 & H3) Hno]. split; [|done].
    right. exists m. split; [done|]. split; [done|]. split; [by exists local|].
    intros (local' & H1' & H2' & H3'). apply Hno. by exists m, local'.
Qed.

Lemma combineModules_exports (indexes : LastIndexes)
    (sortedModules : list ModuleInfo)
    (bundledSpecifiers : gmap string (list string)) :
  let acc :=
    accumulateAll external magicToString indexes sortedModules bundledSpecifiers in
  exports
    (combineModules external magicToString indexes sortedModules bundledSpecifiers)
  = sort (finalTypeExports acc) ++ sort (finalValueExports acc).
Proof.
  cbn zeta. unfold combineModules. cbn [exports].
  set (acc := accumulateAll _ _ _ _ _).
  destruct (finalTypeExports acc); destruct (finalValueExports acc); reflexivity.
Qed.

(** X18. What the bundle exports. The [exports] of [combineModules] are
    exactly the names listed by the export declarations without module
    specifier ([export { a, b as c }]) of the modules of the project, each
    under the name its module's renames give it; the entry point need not
    re-export them. A module under [/node_modules/] adds no export, and
    neither does a declaration [export ... from '...']. The [lastIndex]
    values the bundler starts from make no difference. *)
Theorem bundle_exports_project_exports (indexes : LastIndexes)
    (sortedModules : list ModuleInfo)
    (bundledSpecifiers : gmap string (list string)) (n : string) :
  n ∈ exports
        (combineModules external magicToString indexes sortedModules
           bundledSpecifiers)
  <-> exists m loc typeOnly clauseLoc elements e,
        m ∈ sortedModules
        /\ JS.includes (path m) Constants.nodeModules = false
        /\ ExportDeclaration loc typeOnly (Some (NamedExports clauseLoc elements)) None
             ∈ statements (sourceFile m)
        /\ e ∈ elements
        /\ n = exportsMapper
                 (moduleRenamesOf (identifiers m)
                    (buildRenameMap (collectDeclarationSources sortedModules))
                    (path m))
                 (localName e).
Proof.
  rewrite combineModules_exports, elem_of_app, !elem_of_sort.
  destruct (final_exports indexes sortedModules bundledSpecifiers n) as [Hv Ht].
  cbn zeta in Hv, Ht. unfold exportedBy in *. split.
  - rewrite Hv, Ht.
    intros [[(m & local & Hm & Hp & Hl & _ & ->) _]
           |(m & local & Hm & Hp & Hl & _ & ->)];
      destruct Hl as (loc & t & cl & es & e & Hs & He & ->);
      exists m, loc, t, cl, es, e; unfold isProjectModule in Hp;
      apply negb_true_iff in Hp; done.
  - intros (m & loc & t & cl & es & e & Hm & Hp & Hs & He & Hn).
    assert (Hlisted : forall asValue,
      exportedAsValue (identifiers m) (localName e) = asValue ->
      exists m0 local,
        m0 ∈ sortedModules /\ isProjectModule m0 = true
        /\ listsExport (statements (sourceFile m0)) local
        /\ exportedAsValue (identifiers m0) local = asValue
        /\ n = exportsMapper
                 (moduleRenamesOf (identifiers m0)
                    (buildRenameMap (collectDeclarationSources sortedModules))
                    (path m0)) local).
    { intros asValue Hk. exists m, (localName e). split; [done|].
      split; [unfold isProjectModule; by rewrite Hp|].
      split; [by exists loc, t, cl, es, e|done]. }
    set (acc := accumulateAll external magicToString indexes sortedModules
                  bundledSpecifiers) in *.
    destruct (decide (n ∈ finalValueExports acc)) as [HV|HV]; [by right|].
    left. apply Ht. split; [|intros H; by apply HV, Hv].
    destruct (exportedAsValue (identifiers m) (localName e)) eqn:Hk;
      [|by apply Hlisted].
    exfalso. apply HV, Hv. by apply Hlisted.
Qed.


End Exports.

Import Examples.


End BundleExportsFacts.

(** ** The imports of a bundle *)

Module MergeImportsFacts.
Import TS JS JSFacts DeclarationBundler DeclarationBundlerFacts RenameFacts.

Lemma importsName_snoc (imports : list string) (statement key n : string) :
  importsName (imports ++ [statement]) key n
  <-> importsName imports key n \/ importsName [statement] key n.
Proof.
  unfold importsName. split.
  - intros (i & ns & spec & Hin & H).
    apply elem_of_app in Hin as [Hin|Hin]; [left|right]; by exists i, ns, spec.
  - intros [(i & ns & spec & Hin & H)|(i & ns & spec & Hin & H)];
      exists i, ns, spec; (split; [apply elem_of_app; auto|done]).
Qed.

Lemma collectImport_collectedFrom seen acc statement :
  collectedFrom seen acc ->
  collectedFrom (seen ++ [statement]) (collectImport acc statement).
Proof.
  intros (Hinv & Hother & Hnames). split; [by apply collectImport_collected|].
  destruct acc as [mi nm]. simpl in Hother, Hnames. unfold collectImport.
  rewrite List.filter_app. unfold nonMergeable at 2. simpl.
  assert (Hsingle : forall key n,
    importsName [statement] key n
    <-> exists ns spec, importPatternExec statement = Some (ns, spec)
          /\ key = importKey statement spec
          /\ n ∈ map trim (split "," ns)).
  { intros key n. split.
    - intros (i & ns & spec & ->%list_elem_of_singleton & H). by exists ns, spec.
    - intros (ns & spec & H). exists statement, ns, spec. split; [left|done]. }
  destruct (importPatternExec statement) as [[namesString moduleSpecifier]|]
    eqn:Hexec.
  - fold (importKey statement moduleSpecifier).
    set (key := importKey statement moduleSpecifier).
    set (mi1 := if mapHas mi key then mi
                else mapSet key
                       (mkImportEntry [] (includes statement "import type")) mi).
    assert (Hget1 : forall k,
      mapGet mi1 k
      = if String.eqb key k
        then match mapGet mi key with
             | Some e => Some e
             | None => Some (mkImportEntry [] (includes statement "import type"))
             end
        else mapGet mi k).
    { intros k. unfold mi1, mapHas.
      destruct (mapGet mi key) eqn:Hk; [|rewrite mapGet_mapSet];
        destruct (String.eqb_spec key k) as [<-|]; done. }
    destruct (mapGet mi1 key) as [entry|] eqn:Hentry.
    2:{ rewrite Hget1, String.eqb_refl in Hentry. by destruct (mapGet mi key). }
    simpl. split; [by rewrite List.app_nil_r|].
    intros k n. rewrite importsName_snoc, Hsingle, <- Hnames, mapGet_mapSet.
    rewrite Hget1, String.eqb_refl in Hentry.
    destruct (String.eqb_spec key k) as [<-|Hne].
    + split.
      * intros (e & [= <-] & Hn). simpl in Hn.
        rewrite fold_setAdd_map, elem_of_fold_setAdd in Hn.
        destruct Hn as [Hn|Hn].
        -- right. by exists namesString, moduleSpecifier.
        -- destruct (mapGet mi key) as [e|] eqn:Hk.
           ++ left. exists e. by simplify_eq.
           ++ simplify_eq. by apply elem_of_nil in Hn.
      * intros [(e & He & Hn)|(ns & spec & [= <- <-] & _ & Hn)].
        -- eexists. split; [done|]. simpl.
           rewrite fold_setAdd_map, elem_of_fold_setAdd. right.
           rewrite He in Hentry. by simplify_eq.
        -- eexists. split; [done|]. simpl.
           rewrite fold_setAdd_map, elem_of_fold_setAdd. by left.
    + split.
      * intros (e & He & Hn). left. exists e. split; [|done].
        rewrite Hget1 in He. apply String.eqb_neq in Hne. by rewrite Hne in He.
      * intros [(e & He & Hn)|(ns & spec & [= <- <-] & Hk & _)]; [|done].
        exists e. split; [|done]. rewrite Hget1. apply String.eqb_neq in Hne.
        by rewrite Hne.
  - simpl. split; [by rewrite Hother|].
    intros k n. rewrite importsName_snoc, Hsingle, <- Hnames. split; [by left|].
    intros [H|(ns & spec & H & _)]; done.
Qed.

Lemma fold_collectImport_collectedFrom imports seen acc :
  collectedFrom seen acc ->
  collectedFrom (seen ++ imports) (fold_left collectImport imports acc).
Proof.
  revert seen acc. induction imports as [|i rest IH]; intros seen acc Hacc; simpl.
  - by rewrite List.app_nil_r.
  - replace (seen ++ i :: rest) with ((seen ++ [i]) ++ rest)
      by (by rewrite <- app_assoc).
    by apply IH, collectImport_collectedFrom.
Qed.

(** X19. Merging imports loses no name and invents none. The result of
    [mergeImports] is one statement per key of its map, then the statements
    that the import pattern does not match, each once, in the order of
    their first occurrence. The names of the statement written for a key
    are, without repetition, exactly the names, trimmed, that the matched
    statements with that key import. *)
Theorem mergeImports_keeps_the_names (imports : list string) :
  exists moduleImports,
    mergeImports imports
    = map renderImport moduleImports
      ++ setOf (List.filter nonMergeable imports)
    /\ NoDup (map fst moduleImports)
    /\ forall key,
         (forall entry, (key, entry) ∈ moduleImports -> NoDup (names entry))
         /\ forall n,
              (exists entry, (key, entry) ∈ moduleImports /\ n ∈ names entry)
              <-> importsName imports key n.
Proof.
  unfold mergeImports.
  assert (H0 : collectedFrom [] ([], [])).
  { split; [split; simpl; [apply NoDup_nil_2|]|split; [done|]].
    - intros k e Hin. by apply elem_of_nil in Hin.
    - intros key n. split; [by intros (e & He & _)|].
      intros (i & ? & ? & Hin & _). by apply elem_of_nil in Hin. }
  apply (fold_collectImport_collectedFrom imports) in H0. simpl in H0.
  destruct (fold_left collectImport imports ([], [])) as [mi nm].
  destruct H0 as ([Hkeys Hnd] & Hother & Hnames). simpl in *.
  exists mi. subst nm. split; [done|]. split; [done|]. intros key. split.
  - intros entry. apply Hnd.
  - intros n. rewrite <- Hnames. split.
    + intros (e & He & Hn). exists e. split; [by apply elem_of_mapGet|done].
    + intros (e & He & Hn). exists e. split; [by apply mapGet_elem_of|done].
Qed.

End MergeImportsFacts.

(** ** The store and the disk *)

Module StoreDiskFacts.
Import FileManager FileManagerFacts.

Section Store.

Variable preProcess : string -> string -> option CachedDeclaration.
Variable sysWriteFile : string -> string -> bool.

Lemma step_cache (fm : t) (w : World) (c : Call) :
  cache (fst (snd (step preProcess sysWriteFile (fm, w) c))) = cache fm.
Proof.
  destruct c as [|p x| |]; simpl.
  - unfold initialize. simpl. destruct (cache fm) as [bc|]; [|done].
    by destruct (restore bc (declarationFiles fm)).
  - unfold fileWriter. destruct (cacheSaysBuildInfo fm p).
    + by destruct (sysWriteFile p x).
    + by destruct (preProcess p x).
  - by destruct (finalize fm w).
  - done.
Qed.

Lemma step_diskWrites (fm : t) (w : World) (c : Call) :
  let '(e, (fm', w')) := step preProcess sysWriteFile (fm, w) c in
  diskWrites w' = diskWrites w ++ buildInfoWrites (cache fm) [e].
Proof.
  destruct c as [|p x| |]; simpl.
  - destruct (initialize fm) as [o fm']. unfold buildInfoWrites. simpl.
    by rewrite List.app_nil_r.
  - unfold fileWriter, cacheSaysBuildInfo, buildInfoWrites.
    destruct (cache fm) as [bc|]; simpl.
    + destruct (isBuildInfoFile bc p) eqn:Hb.
      * destruct (sysWriteFile p x); simpl; rewrite ?Hb; simpl;
          by rewrite ?List.app_nil_r.
      * destruct (preProcess p x); simpl; rewrite ?Hb; by rewrite List.app_nil_r.
    + destruct (preProcess p x); simpl; by rewrite List.app_nil_r.
  - unfold finalize, buildInfoWrites.
    destruct (cache fm) as [bc|]; simpl; [|by rewrite List.app_nil_r].
    destruct (hasEmittedFiles fm); simpl; [|by rewrite List.app_nil_r].
    destruct (save bc (declarationFiles fm)); simpl; by rewrite List.app_nil_r.
  - unfold buildInfoWrites. simpl. by rewrite List.app_nil_r.
Qed.

Lemma run_diskWrites (calls : list Call) (fm : t) (w : World) :
  let '(tr, (fm', w')) := run preProcess sysWriteFile (fm, w) calls in
  diskWrites w' = diskWrites w ++ buildInfoWrites (cache fm) tr.
Proof.
  revert fm w. induction calls as [|c rest IH]; intros fm w; cbn [run].
  - simpl. by rewrite List.app_nil_r.
  - pose proof (step_diskWrites fm w c) as Hstep.
    pose proof (step_cache fm w c) as Hcache.
    destruct (step preProcess sysWriteFile (fm, w) c) as [e [fm1 w1]].
    cbn [fst snd] in Hcache. specialize (IH fm1 w1). cbn iota beta.
    destruct (run preProcess sysWriteFile (fm1, w1) rest) as [es [fm2 w2]].
    rewrite IH, Hstep, Hcache, <- app_assoc. f_equal.
    unfold buildInfoWrites. simpl. by rewrite List.app_nil_r.
Qed.

(** X20. What the store puts on disk. Over any sequence of calls on a
    store, with or without a cache, the files handed to [sys.writeFile] are
    exactly the files of the [fileWriter] calls that returned and whose
    path the cache calls the build-info file, with the text given and in
    the order of the calls: no declaration file is written by
    [initialize], [fileWriter], [finalize] or [close]. *)
Theorem store_writes_only_build_info (buildCache : option BuildCache)
    (w0 : World) (calls : list Call) :
  let '(tr, (_, w)) := run preProcess sysWriteFile (new buildCache, w0) calls in
  diskWrites w = diskWrites w0 ++ buildInfoWrites buildCache tr.
Proof.
  pose proof (run_diskWrites calls (new buildCache) w0) as H.
  by destruct (run preProcess sysWriteFile (new buildCache, w0) calls)
    as [tr [fm w]].
Qed.

End Store.

End StoreDiskFacts.

(** ** The root names of a rebuild *)

Module RebuildFacts.
Import TypeScriptProject Examples.

Section Rebuild.

Variable fileRename directoryRename fileUnlink : string.
Variable relative : string -> string -> string.


Lemma indexOf_Some path rootNames index :
  indexOf path rootNames = Some index ->
  exists before after,
    rootNames = before ++ path :: after /\ length before = index /\ path ∉ before.
Proof.
  revert index. induction rootNames as [|r rest IH]; intros index; simpl; [done|].
  destruct (String.eqb_spec r path) as [->|Hne].
  - intros [= <-]. exists [], rest. split; [done|]. split; [done|]. apply not_elem_of_nil.
  - destruct (indexOf path rest) as [i|]; [|done]. intros [= <-].
    destruct (IH i eq_refl) as (before & after & -> & Hlen & Hnot).
    exists (r :: before), after. split; [done|]. split; [simpl; lia|].
    intros [?|?]%elem_of_cons; congruence.
Qed.

Lemma indexOf_None path rootNames :
  indexOf path rootNames = None <-> path ∉ rootNames.
Proof.
  induction rootNames as [|r rest IH]; simpl.
  - split; [intros _; apply not_elem_of_nil|done].
  - rewrite not_elem_of_cons. destruct (String.eqb_spec r path) as [->|Hne].
    + split; [done|intros [? _]; done].
    + destruct (indexOf path rest); split; try done.
      * intros [_ H]. by apply IH in H.
      * intros _. split; [congruence|]. by apply IH.
Qed.

Lemma spliceOut_at (before after : list string) (path : string) :
  spliceOut (length before) (before ++ path :: after) = before ++ after.
Proof.
  unfold spliceOut.
  rewrite take_app_length.
  replace (S (length before)) with (length (before ++ [path]))
    by (rewrite length_app; simpl; lia).
  replace (before ++ path :: after) with ((before ++ [path]) ++ after)
    by (by rewrite <- app_assoc).
  by rewrite drop_app_length.
Qed.

Lemma spliceIn_at (before after : list string) (path next : string) :
  spliceIn (length before) next (before ++ path :: after) = before ++ next :: after.
Proof.
  unfold spliceIn.
  rewrite take_app_length.
  replace (S (length before)) with (length (before ++ [path]))
    by (rewrite length_app; simpl; lia).
  replace (before ++ path :: after) with ((before ++ [path]) ++ after)
    by (by rewrite <- app_assoc).
  by rewrite drop_app_length.
Qed.

(** One turn of the loop on the root names. *)
Lemma applyChange_roots directory rootNames deps c :
  let rootNames' := fst (applyChange fileRename directoryRename fileUnlink relative directory (rootNames, deps) c) in
  match indexOf (changedPath c) rootNames with
  | None => rootNames' = rootNames
  | Some _ =>
      exists before after,
        rootNames = before ++ changedPath c :: after
        /\ (changedPath c ∉ before)
        /\ rootNames'
           = match renamedTo fileRename directoryRename c with
             | Some next => before ++ next :: after
             | None =>
                 if String.eqb (event c) fileUnlink then before ++ after
                 else rootNames
             end
  end.
Proof.
  cbn zeta. unfold applyChange.
  destruct (indexOf (changedPath c) rootNames) as [index|] eqn:Hindex.
  - apply indexOf_Some in Hindex as (before & after & -> & <- & Hnot).
    exists before, after. split; [done|]. split; [done|].
    destruct (renamedTo fileRename directoryRename c); simpl; [apply spliceIn_at|].
    destruct (String.eqb (event c) fileUnlink); [apply spliceOut_at|done].
  - by destruct (renamedTo fileRename directoryRename c).
Qed.

(** X21. The root names of a rebuild never grow and gain nothing but the
    new paths of renamed root files: after the loop of [triggerRebuild]
    over any pending changes, there are at most as many root names as
    before, and each of them is an old root name or the new path of a
    rename among the changes. A file that was added is not made a root. *)
Theorem rebuild_roots_come_from_renames (directory : string)
    (pendingChanges : list PendingChange) (rootNames : list string)
    (buildDependencies : gset string) :
  let rootNames' :=
    fst (applyChanges fileRename directoryRename fileUnlink relative directory pendingChanges (rootNames, buildDependencies)) in
  length rootNames' <= length rootNames
  /\ forall r, r ∈ rootNames' ->
       r ∈ rootNames
       \/ exists c, c ∈ pendingChanges /\ (renamedTo fileRename directoryRename c) = Some r.
Proof.
  cbn zeta. unfold applyChanges. revert rootNames buildDependencies.
  induction pendingChanges as [|c rest IH]; intros rootNames deps; cbn [fold_left].
  - simpl. split; [lia|auto].
  - pose proof (applyChange_roots directory rootNames deps c) as Hstep.
    cbn zeta in Hstep.
    destruct (applyChange fileRename directoryRename fileUnlink relative directory (rootNames, deps) c) as [roots1 deps1] eqn:Hc.
    simpl in Hstep. destruct (IH roots1 deps1) as [Hlen Hin].
    assert (Hone : length roots1 <= length rootNames
                   /\ forall r, r ∈ roots1 ->
                        r ∈ rootNames \/ (renamedTo fileRename directoryRename c) = Some r).
    { destruct (indexOf (changedPath c) rootNames).
      - destruct Hstep as (before & after & -> & _ & ->).
        destruct (renamedTo fileRename directoryRename c) as [next|].
        + split; [rewrite !length_app; simpl; lia|].
          intros r [Hr|[->|Hr]%elem_of_cons]%elem_of_app; [left|by right|left];
            set_solver.
        + destruct (String.eqb (event c) fileUnlink); [|split; [lia|auto]].
          split; [rewrite !length_app; simpl; lia|].
          intros r Hr. left. set_solver.
      - subst roots1. split; [lia|auto]. }
    destruct Hone as [Hlen1 Hin1]. split; [exact (Nat.le_trans _ _ _ Hlen Hlen1)|].
    intros r Hr. destruct (Hin r Hr) as [Hr1|(c' & Hc' & Hren)].
    + destruct (Hin1 r Hr1) as [?|?]; [by left|]. right. exists c.
      split; [left|done].
    + right. exists c'. split; [by right|done].
Qed.

(** X22. Without renames, a rebuild keeps the root names that no pending
    change unlinks. When the root names hold no path twice and no pending
    change passes the rename test, the root names after the loop of
    [triggerRebuild] are the old ones, in order, without those that are
    the path of an unlink event; whatever the other events are. *)
Theorem rebuild_roots_without_renames (directory : string)
    (pendingChanges : list PendingChange) (rootNames : list string)
    (buildDependencies : gset string) :
  NoDup rootNames ->
  (forall c, c ∈ pendingChanges -> (renamedTo fileRename directoryRename c) = None) ->
  applyChanges fileRename directoryRename fileUnlink relative directory pendingChanges (rootNames, buildDependencies)
  = (List.filter (fun r => negb (existsb (unlinks fileUnlink r) pendingChanges)) rootNames,
     buildDependencies).
Proof.
  unfold applyChanges. revert rootNames.
  induction pendingChanges as [|c rest IH]; intros rootNames Hnd Hno;
    cbn [fold_left].
  - simpl. f_equal. induction rootNames as [|r l IHl]; simpl; [done|].
    f_equal. apply IHl. by apply NoDup_cons in Hnd as [_ ?].
  - assert (Hc : (renamedTo fileRename directoryRename c) = None) by (apply Hno; left).
    pose proof (applyChange_roots directory rootNames buildDependencies c) as Hstep.
    cbn zeta in Hstep.
    assert (Hdeps : snd (applyChange fileRename directoryRename fileUnlink relative directory (rootNames, buildDependencies) c)
                    = buildDependencies).
    { unfold applyChange. by rewrite Hc. }
    destruct (applyChange fileRename directoryRename fileUnlink relative directory (rootNames, buildDependencies) c)
      as [roots1 deps1].
    simpl in Hstep, Hdeps. subst deps1. rewrite Hc in Hstep.
    assert (Hroots1 : roots1
                      = List.filter (fun r => negb (unlinks fileUnlink r c)) rootNames).
    { assert (Hkeep : forall l : list string,
        (forall r, r ∈ l -> unlinks fileUnlink r c = false) ->
        List.filter (fun r => negb (unlinks fileUnlink r c)) l = l).
      { intros l Hl. induction l as [|r l IHl]; simpl; [done|].
        rewrite Hl by left. simpl. f_equal. apply IHl. intros r' Hr'.
        apply Hl. by right. }
      unfold unlinks in *.
      destruct (indexOf (changedPath c) rootNames) eqn:Hindex.
      - destruct Hstep as (before & after & -> & Hnot & ->).
        apply NoDup_app in Hnd as (_ & Hdisj & [Hafter _]%NoDup_cons).
        rewrite List.filter_app. simpl. rewrite String.eqb_refl, andb_true_r.
        destruct (String.eqb (event c) fileUnlink) eqn:He; simpl.
        + rewrite !Hkeep; [done| |].
          * intros r Hr. rewrite ?He. simpl. apply String.eqb_neq.
            by intros <-.
          * intros r Hr. rewrite ?He. simpl. apply String.eqb_neq.
            by intros <-.
        + rewrite !Hkeep; [done| |]; intros r Hr; by rewrite ?He.
      - subst roots1. symmetry. apply Hkeep. intros r Hr.
        apply indexOf_None in Hindex. apply andb_false_iff. right.
        apply String.eqb_neq. by intros <-. }
    rewrite IH.
    + f_equal. subst roots1. clear.
      induction rootNames as [|r l IHl]; simpl; [done|].
      destruct (unlinks fileUnlink r c); simpl; [done|].
      destruct (existsb (unlinks fileUnlink r) rest); simpl; by rewrite IHl.
    + subst roots1. clear -Hnd.
      induction Hnd as [|r l Hr Hnd IHl]; simpl; [apply NoDup_nil_2|].
      destruct (unlinks fileUnlink r c); simpl; [done|]. apply NoDup_cons. split; [|done].
      intros Hin. apply Hr. apply list_elem_of_In, filter_In in Hin as [Hin _].
      by apply list_elem_of_In.
    + intros c' Hc'. apply Hno. by right.
Qed.

End Rebuild.

(** A root file is unlinked and another file is added: the unlinked root
    goes, the added file is not made a root. *)
Lemma rebuild_roots_without_renames_witness :
  applyChanges "rename" "renameDir" "unlink" (fun _ path => path) "/p"
    pendingUnlinkAndAdd (rebuildRoots, ∅)
  = (["/p/src/a.ts"], ∅).
Proof.
  apply (rebuild_roots_without_renames "rename" "renameDir" "unlink"
           (fun _ path => path) "/p" pendingUnlinkAndAdd rebuildRoots ∅).
  - apply NoDup_cons. split; [|apply NoDup_singleton].
    intros Hin. apply list_elem_of_singleton in Hin. discriminate Hin.
  - intros c Hc. apply elem_of_cons in Hc as [->|Hc]; [reflexivity|].
    apply list_elem_of_singleton in Hc as ->. reflexivity.
Defined.

End RebuildFacts.

(** ** Text formatting *)

Module TextFormatFacts.
Import JS JSFacts TextFormat Examples.

Lemma indexOfFrom_shift p i s :
  indexOfFrom p (S i) s = option_map S (indexOfFrom p i s).
Proof.
  revert i. induction s as [|c s IH]; intros i; simpl.
  - by destruct (isPrefix p "").
  - destruct (isPrefix p (String c s)); [done|]. apply IH.
Qed.

Lemma indexOfFrom_add p i s :
  indexOfFrom p i s = option_map (Nat.add i) (indexOfFrom p 0 s).
Proof.
  induction i as [|i IH]; [by destruct (indexOfFrom p 0 s)|].
  rewrite indexOfFrom_shift, IH. by destruct (indexOfFrom p 0 s).
Qed.

Lemma occursAt_past close text i :
  close <> "" -> String.length text <= i -> occursAt close text i = false.
Proof.
  unfold occursAt. intros Hclose. revert i.
  induction text as [|c text IH]; intros i Hi.
  - destruct i, close; done.
  - destruct i as [|i]; simpl in Hi; [lia|]. apply IH. lia.
Qed.

(** The first occurrence, found or not. *)
Lemma indexOfFrom_first p s :
  match indexOfFrom p 0 s with
  | Some k =>
      occursAt p s k = true /\ forall j, j < k -> occursAt p s j = false
  | None => forall j, j <= String.length s -> occursAt p s j = false
  end.
Proof.
  unfold occursAt. induction s as [|c s IH].
  - simpl. destruct (isPrefix p "") eqn:Hp.
    + split; [done|]. intros j Hj. lia.
    + intros j Hj. by destruct j.
  - cbn [indexOfFrom]. destruct (isPrefix p (String c s)) eqn:Hp.
    + split; [done|]. intros j Hj. lia.
    + rewrite indexOfFrom_shift. destruct (indexOfFrom p 0 s) as [k|]; simpl.
      * destruct IH as [Hk Hless]. split; [done|].
        intros [|j] Hj; [done|]. apply Hless. lia.
      * intros [|j] Hj; [done|]. apply IH. simpl in Hj. lia.
Qed.

Lemma isPrefix_split p s :
  isPrefix p s = true -> s = p +:+ sliceFrom (String.length p) s.
Proof.
  revert s. induction p as [|a p IH]; intros [|b s]; simpl; try done.
  intros [Hab Hp]%andb_true_iff. apply Ascii.eqb_eq in Hab as ->.
  rewrite append_cons. f_equal. by apply IH.
Qed.

Lemma isPrefix_app p r : isPrefix p (p +:+ r) = true.
Proof.
  induction p as [|a p IH]; simpl; [done|]. by rewrite Ascii.eqb_refl.
Qed.

Lemma isPrefix_length p s : isPrefix p s = true -> String.length p <= String.length s.
Proof.
  revert s. induction p as [|a p IH]; intros [|b s]; simpl; try done; try lia.
  intros [_ Hp]%andb_true_iff. apply IH in Hp. lia.
Qed.

Lemma sliceFrom_sliceFrom a b s : sliceFrom a (sliceFrom b s) = sliceFrom (b + a) s.
Proof.
  revert s. induction b as [|b IH]; intros s; [done|].
  destruct s as [|c s]; simpl; [by destruct a|]. apply IH.
Qed.

Lemma length_sliceFrom n s : String.length (sliceFrom n s) = String.length s - n.
Proof.
  revert s. induction n as [|n IH]; intros [|c s]; simpl; try done; lia.
Qed.

Lemma sliceFrom_length s : sliceFrom (String.length s) s = "".
Proof. induction s; [done|]. simpl. done. Qed.

Lemma splitOnGo_skip sep k cur s :
  k <= String.length s ->
  splitOnGo sep k cur s = splitOnGo sep 0 cur (sliceFrom k s).
Proof.
  revert s. induction k as [|k IH]; intros s Hk; [done|].
  destruct s as [|c s]; simpl in *; [lia|]. apply IH. lia.
Qed.

(** [split] by its first occurrence. *)
Lemma splitOnGo_first sep cur s :
  sep <> "" ->
  splitOnGo sep 0 cur s
  = match indexOfFrom sep 0 s with
    | None => [cur +:+ s]
    | Some j =>
        (cur +:+ sliceTo j s)
        :: splitOnGo sep 0 "" (sliceFrom (j + String.length sep) s)
    end.
Proof.
  intros Hsep. revert cur. induction s as [|c s IH]; intros cur.
  - simpl. destruct sep; [done|]. simpl. by rewrite append_nil_r.
  - cbn [splitOnGo indexOfFrom]. destruct (isPrefix sep (String c s)) eqn:Hp.
    + cbn [sliceTo]. rewrite append_nil_r. f_equal.
      pose proof (isPrefix_length _ _ Hp) as Hlen.
      destruct sep as [|a sep]; [done|]. simpl in Hlen.
      cbn [String.length Nat.add Nat.sub sliceFrom].
      rewrite Nat.sub_0_r. apply splitOnGo_skip. lia.
    + rewrite indexOfFrom_shift, IH.
      destruct (indexOfFrom sep 0 s) as [j|]; simpl.
      * by rewrite append_assoc.
      * by rewrite append_assoc.
Qed.

Lemma splitOn_occurrence close tail :
  close <> "" ->
  splitOn close (close +:+ tail) = "" :: splitOn close tail.
Proof.
  intros Hclose. unfold splitOn. rewrite splitOnGo_first by done.
  assert (H0 : indexOfFrom close 0 (close +:+ tail) = Some 0).
  { pose proof (isPrefix_app close tail) as Hp.
    destruct (close +:+ tail); simpl; by rewrite Hp. }
  rewrite H0. cbn [sliceTo Nat.add]. f_equal.
  by rewrite <- (Nat.add_0_r (String.length close)), sliceFrom_app.
Qed.

Lemma splitOnGo_nonempty sep k cur s : splitOnGo sep k cur s <> [].
Proof.
  revert k cur. induction s as [|c s IH]; intros k cur; simpl; [done|].
  destruct k; [|apply IH]. destruct (isPrefix sep (String c s)); [done|apply IH].
Qed.

Lemma join_cons sep x xs :
  xs <> [] -> join sep (x :: xs) = x +:+ sep +:+ join sep xs.
Proof. destruct xs; [done|]. reflexivity. Qed.

Lemma replaceAll_occurrence close replace tail :
  close <> "" ->
  replaceAll close replace (close +:+ tail)
  = replace +:+ replaceAll close replace tail.
Proof.
  intros Hclose. unfold replaceAll. rewrite splitOn_occurrence by done.
  rewrite join_cons by apply splitOnGo_nonempty. done.
Qed.

(** From an occurrence of [close], [replaceClose] is [split] and [join]. *)
Lemma replaceCloseWithin_replaceAll depth index text close replace :
  close <> "" ->
  String.length text < depth ->
  occursAt close text index = true ->
  replaceCloseWithin depth index text close replace
  = Some (sliceTo index text +:+ replaceAll close replace (sliceFrom index text)).
Proof.
  intros Hclose. revert index text.
  induction depth as [|depth IH]; intros index text Hdepth Hocc; [lia|].
  cbn [replaceCloseWithin]. unfold indexOf. cbn [Nat.min sliceFrom].
  set (tail := sliceFrom (index + String.length close) text).
  assert (Hsplit : sliceFrom index text = close +:+ tail).
  { unfold tail. rewrite <- sliceFrom_sliceFrom. by apply isPrefix_split. }
  assert (Hshorter : String.length tail < String.length text).
  { unfold tail. rewrite length_sliceFrom.
    assert (String.length close <> 0) by (by destruct close).
    destruct (Nat.le_gt_cases (String.length text) index) as [Hpast|]; [|lia].
    by rewrite occursAt_past in Hocc. }
  rewrite Hsplit, replaceAll_occurrence by done.
  pose proof (indexOfFrom_first close tail) as Hfirst.
  unfold replaceAll at 1, splitOn. rewrite splitOnGo_first by done.
  destruct (indexOfFrom close 0 tail) as [next|].
  - destruct Hfirst as [Hnext _]. rewrite IH; [|lia|done].
    f_equal. rewrite !append_assoc. do 2 f_equal. cbn [append].
    rewrite join_cons by apply splitOnGo_nonempty.
    unfold occursAt in Hnext. apply isPrefix_split in Hnext.
    rewrite sliceFrom_sliceFrom in Hnext. rewrite Hnext at 1.
    rewrite replaceAll_occurrence by done. done.
  - cbn [append join String.concat]. by rewrite !append_assoc.
Qed.

Lemma indexOf_first close position text :
  close <> "" ->
  match indexOf close position text with
  | Some i =>
      position <= i /\ occursAt close text i = true
      /\ forall j, position <= j -> j < i -> occursAt close text j = false
  | None => forall j, position <= j -> occursAt close text j = false
  end.
Proof.
  intros Hclose. unfold indexOf.
  destruct (Nat.le_gt_cases (String.length text) position) as [Hpast|Hin].
  - rewrite Nat.min_r by done.
    rewrite sliceFrom_length.
    destruct close; [done|]. simpl.
    intros j Hj. apply occursAt_past; [done|lia].
  - rewrite Nat.min_l by lia. rewrite indexOfFrom_add.
    pose proof (indexOfFrom_first close (sliceFrom position text)) as Hfirst.
    destruct (indexOfFrom close 0 (sliceFrom position text)) as [k|]; simpl.
    + destruct Hfirst as [Hk Hless]. unfold occursAt in *.
      rewrite sliceFrom_sliceFrom in Hk. split; [lia|]. split; [done|].
      intros j Hj Hji. specialize (Hless (j - position)).
      rewrite sliceFrom_sliceFrom in Hless.
      replace (position + (j - position)) with j in Hless by lia.
      apply Hless. lia.
    + intros j Hj. unfold occursAt in *.
      destruct (Nat.le_gt_cases j (String.length text)) as [Hle|Hgt].
      * specialize (Hfirst (j - position)).
        rewrite sliceFrom_sliceFrom, length_sliceFrom in Hfirst.
        replace (position + (j - position)) with j in Hfirst by lia.
        apply Hfirst. lia.
      * apply (occursAt_past close text j); [done|lia].
Qed.

(** X23. What a formatter of [TextFormat] returns. For a close code of one
    character or more the formatter always returns: the empty string for
    the empty text; otherwise the text between the open and the close
    code, where, from the first occurrence of the close code at or after
    the index [at] (by default one more than the length of the open code),
    every occurrence of the close code, read from left to right without
    overlap, is replaced by [replace] (by default the open code). An
    occurrence before that index is left as it is, and a text with no
    occurrence from that index on is only wrapped. *)
Theorem formatter_replaces_close_codes (open close text : string)
    (replace : option string) (position : option nat) :
  close <> "" ->
  let replace' := match replace with Some r => r | None => open end in
  let at' := match position with Some p => p | None => String.length open + 1 end in
  (text = "" /\ filterEmpty open close replace position text = Some "")
  \/ (text <> ""
      /\ (forall j, at' <= j -> occursAt close text j = false)
      /\ filterEmpty open close replace position text
         = Some (open +:+ text +:+ close))
  \/ (text <> ""
      /\ exists i,
           at' <= i /\ occursAt close text i = true
           /\ (forall j, at' <= j -> j < i -> occursAt close text j = false)
           /\ filterEmpty open close replace position text
              = Some (open +:+ sliceTo i text
                        +:+ replaceAll close replace' (sliceFrom i text)
                        +:+ close)).
Proof.
  intros Hclose. cbn zeta. unfold filterEmpty.
  destruct text as [|c text]; [by left|]. right.
  cbn [String.length Nat.ltb Nat.leb].
  set (at' := match position with Some p => p | None => String.length open + 1 end).
  set (replace' := match replace with Some r => r | None => open end).
  pose proof (indexOf_first close at' (String c text) Hclose) as Hfirst.
  destruct (indexOf close at' (String c text)) as [i|].
  - right. split; [done|]. exists i. destruct Hfirst as (Hat & Hocc & Hless).
    split; [done|]. split; [done|]. split; [done|].
    unfold clearBleed, replaceClose.
    rewrite replaceCloseWithin_replaceAll; [|done|lia|done].
    by rewrite !append_assoc.
  - left. split; [done|]. split; [done|]. reflexivity.
Qed.

(** Bold on a text with two close codes: the one at index 2, before index
    5, stays; the one at index 10 is followed by the open code again. *)
Lemma formatter_replaces_close_codes_witness :
  (twoCloseCodes = ""
   /\ filterEmpty (escape 1) (escape 22) (Some (escape 22 +:+ escape 1)) None
        twoCloseCodes = Some "")
  \/ (twoCloseCodes <> ""
      /\ (forall j, String.length (escape 1) + 1 <= j ->
                    occursAt (escape 22) twoCloseCodes j = false)
      /\ filterEmpty (escape 1) (escape 22) (Some (escape 22 +:+ escape 1)) None
           twoCloseCodes
         = Some (escape 1 +:+ twoCloseCodes +:+ escape 22))
  \/ (twoCloseCodes <> ""
      /\ exists i,
           String.length (escape 1) + 1 <= i
           /\ occursAt (escape 22) twoCloseCodes i = true
           /\ (forall j, String.length (escape 1) + 1 <= j -> j < i ->
                         occursAt (escape 22) twoCloseCodes j = false)
           /\ filterEmpty (escape 1) (escape 22) (Some (escape 22 +:+ escape 1))
                None twoCloseCodes
              = Some (escape 1 +:+ sliceTo i twoCloseCodes
                        +:+ replaceAll (escape 22) (escape 22 +:+ escape 1)
                              (sliceFrom i twoCloseCodes)
                        +:+ escape 22)).
Proof.
  apply (formatter_replaces_close_codes (escape 1) (escape 22) twoCloseCodes
           (Some (escape 22 +:+ escape 1)) None).
  discriminate.
Defined.

(** The formatters on the texts of the repository's tests. *)
Example bold_two_close_codes :
  bold twoCloseCodes
  = Some (escape 1 +:+ "a " +:+ escape 22 +:+ " b " +:+ escape 22 +:+ escape 1
          +:+ " c" +:+ escape 22).
Proof. reflexivity. Qed.

Example red_empty : red "" = Some "".
Proof. reflexivity. Qed.

End TextFormatFacts.

(** ** Type-only imports *)

Module TypeOnlyImportFacts.
Import TS JS JSFacts DeclarationProcessor PostProcessFacts TextFormatFacts Examples.

Lemma sliceFrom_past n s : String.length s <= n -> sliceFrom n s = "".
Proof.
  revert n. induction s as [|c s IH]; intros [|n] Hn; simpl in *; try done; try lia.
  apply IH. lia.
Qed.

Lemma sliceTo_past n s : String.length s <= n -> sliceTo n s = s.
Proof.
  revert n. induction s as [|c s IH]; intros [|n] Hn; simpl in *; try done; try lia.
  rewrite IH; [done|lia].
Qed.

(** A slice of a text that was not edited. *)
Lemma slice_new text a b :
  0 < b ->
  MagicString.slice a b (MagicString.chunks (MagicString.new text))
  = Some (slice a b text).
Proof.
  intros Hb. unfold MagicString.new. cbn [MagicString.chunks MagicString.slice
    MagicString.chunkStart MagicString.chunkEnd MagicString.edited
    MagicString.content].
  replace (Nat.ltb a 0) with false by (symmetry; apply Nat.ltb_ge; lia).
  cbn [orb andb negb].
  destruct (Nat.leb_spec (String.length text) a) as [Hpast|Hin].
  - unfold slice. rewrite (sliceFrom_past a text Hpast).
    replace (sliceTo (b - a) "") with "" by (by destruct (b - a)).
    by destruct (_ && _).
  - cbn [MagicString.sliceFromChunk MagicString.chunkStart MagicString.chunkEnd
         MagicString.edited MagicString.content].
    rewrite andb_false_r. cbn [andb]. rewrite Nat.sub_0_r.
    replace (Nat.ltb 0 b) with true by (symmetry; apply Nat.ltb_lt; lia).
    cbn [andb].
    destruct (Nat.leb_spec b (String.length text)) as [Hle|Hgt].
    + f_equal. f_equal. lia.
    + rewrite append_nil_r. f_equal. unfold slice.
      rewrite !sliceTo_past; [done| |]; rewrite length_sliceFrom; lia.
Qed.

Ltac decide_comparisons :=
  repeat (match goal with
          | |- context [Nat.eqb ?x ?y] => destruct (Nat.eqb_spec x y); try lia
          | |- context [Nat.ltb ?x ?y] => destruct (Nat.ltb_spec x y); try lia
          | |- context [Nat.leb ?x ?y] => destruct (Nat.leb_spec x y); try lia
          end; cbn [andb orb negb]).

(** One range removed from a text that was not edited. *)
Lemma remove_new text a b :
  a <= b -> b <= String.length text ->
  exists m,
    MagicString.remove a b (MagicString.new text) = Some m
    /\ MagicString.toString m = sliceTo a text +:+ sliceFrom b text.
Proof.
  intros Hab Hb. unfold MagicString.remove.
  destruct (Nat.eqb_spec a b) as [<-|Hne].
  { eexists. split; [done|]. unfold MagicString.toString. simpl.
    by rewrite append_nil_r, sliceTo_sliceFrom. }
  unfold MagicString.new, MagicString.split, MagicString.isSplitPoint,
    MagicString.toString, MagicString.within.
  cbn [MagicString.chunks MagicString.original existsb MagicString.chunkStart
       MagicString.chunkEnd MagicString.splitChunk MagicString.edited
       MagicString.content andb orb].
  decide_comparisons;
    cbn [MagicString.chunks MagicString.original existsb MagicString.chunkStart
       MagicString.chunkEnd MagicString.splitChunk MagicString.edited
       MagicString.content andb orb map fold_right];
    decide_comparisons;
    cbn [MagicString.chunks MagicString.original existsb MagicString.chunkStart
       MagicString.chunkEnd MagicString.splitChunk MagicString.edited
       MagicString.content andb orb map fold_right];
    decide_comparisons;
    (eexists; split; [reflexivity|]);
    cbn [MagicString.chunks MagicString.original existsb MagicString.chunkStart
       MagicString.chunkEnd MagicString.splitChunk MagicString.edited
       MagicString.content andb orb map fold_right];
    decide_comparisons;
    cbn [MagicString.chunks MagicString.original existsb MagicString.chunkStart
       MagicString.chunkEnd MagicString.splitChunk MagicString.edited
       MagicString.content andb orb map fold_right];
    subst; rewrite ?Nat.sub_0_r, ?append_nil_r, ?sliceFrom_length,
      ?sliceFrom_sliceFrom; cbn [sliceTo sliceFrom append];
    rewrite ?append_nil_r, ?sliceTo_past by lia.
  all: try reflexivity.
  cbn [append]. by replace (a + (b - a)) with b by lia.
Qed.
Lemma slice_middle a m b :
  slice (String.length a) (String.length a + String.length m) (a +:+ m +:+ b) = m.
Proof.
  unfold slice. rewrite sliceFrom_app_length.
  replace (String.length a + String.length m - String.length a)
    with (String.length m) by lia.
  apply sliceTo_app_length.
Qed.

Lemma isBlank_not_word c : isBlank c = true -> isWordChar c = false.
Proof.
  unfold isBlank, isWordChar. cbn zeta. generalize (nat_of_ascii c) as n. intros n H.
  repeat (apply orb_true_iff in H as [H|H]); apply Nat.eqb_eq in H as ->; reflexivity.
Qed.

Lemma isWhiteSpace_not_word c : isWhiteSpace c = true -> isWordChar c = false.
Proof.
  unfold isWhiteSpace, isWordChar. cbn zeta. generalize (nat_of_ascii c) as n.
  intros n H.
  repeat (apply orb_true_iff in H as [H|H]).
  - apply andb_true_iff in H as [H1 H2]. apply Nat.leb_le in H1, H2.
    repeat (apply orb_false_iff; split); try (apply Nat.eqb_neq; lia);
      apply andb_false_iff;
      first [left; apply Nat.leb_gt; lia | right; apply Nat.leb_gt; lia].
  - apply Nat.eqb_eq in H as ->. reflexivity.
  - apply Nat.eqb_eq in H as ->. reflexivity.
Qed.

Lemma isWhiteSpace_not_t c s :
  isWhiteSpace c = true -> isPrefix "type" (String c s) = false.
Proof.
  intros H. cbn [isPrefix]. destruct (Ascii.eqb_spec "t"%char c) as [<-|]; [|done].
  vm_compute in H. discriminate H.
Qed.

(** The first [type] between word boundaries, after white space. *)
Lemma typeMatcherFrom_after_white_space ws i tail :
  allChars isWhiteSpace ws = true ->
  match tail with
  | EmptyString => true
  | String c _ => negb (isWordChar c)
  end = true ->
  typeMatcherFrom false i (ws +:+ "type" +:+ tail) = Some (i + String.length ws).
Proof.
  intros Hws Htail. revert i. induction ws as [|c ws IH]; intros i.
  - rewrite append_nil_l.
    replace (i + String.length "") with i by (simpl; lia).
    assert (Hp : isPrefix "type" ("type" +:+ tail) = true) by reflexivity.
    assert (Hg : String.get 4 ("type" +:+ tail) = String.get 0 tail) by reflexivity.
    destruct ("type" +:+ tail) as [|a s] eqn:Heq; [discriminate Heq|].
    cbn [typeMatcherFrom]. rewrite Hp, Hg. cbn [negb andb].
    destruct tail as [|d tail]; cbn [String.get]; [done|]. by rewrite Htail.
  - simpl in Hws. apply andb_true_iff in Hws as [Hc Hws].
    rewrite append_cons. cbn [typeMatcherFrom]. rewrite <- append_cons.
    rewrite append_cons, isWhiteSpace_not_t by done.
    rewrite andb_false_r. cbn [andb]. rewrite isWhiteSpace_not_word by done.
    rewrite IH by done. f_equal. simpl. lia.
Qed.

Lemma spanLength_blanks blanks rest :
  allChars isBlank blanks = true ->
  startsWithout isBlank rest = true ->
  spanLength isBlank (blanks +:+ rest) = String.length blanks.
Proof.
  intros Hb Hr. induction blanks as [|c blanks IH].
  - destruct rest as [|d rest]; simpl in *; [done|].
    apply negb_true_iff in Hr. by rewrite Hr.
  - simpl in Hb. apply andb_true_iff in Hb as [Hc Hb].
    rewrite append_cons. simpl. rewrite Hc, IH by done. done.
Qed.

(** X24. A type-only import becomes a plain import. For a declaration file
    that holds one import declaration with the [type] phase modifier and
    no triple-slash directive, where [import] is followed by white space,
    the word [type], a run of blanks (space, tab, line feed, carriage
    return) and the rest of the statement, [preProcess] returns the text
    without the word [type] and without the blanks that follow it; every
    other character, inside and outside the statement, stays. *)
Theorem type_only_import_becomes_plain
    (pre ws blanks rest post : string) (loc : Loc) (specifier : Expression)
    (lineStart lineEnd : nat -> nat) :
  allChars isWhiteSpace ws = true ->
  allChars isBlank blanks = true ->
  startsWithout isBlank rest = true ->
  (blanks = "" -> startsWithout isWordChar rest = true) ->
  start loc = String.length pre ->
  end_ loc
  = String.length (pre +:+ "import" +:+ ws +:+ "type" +:+ blanks +:+ rest) ->
  preProcess
    (mkSourceFile
       (pre +:+ "import" +:+ ws +:+ "type" +:+ blanks +:+ rest +:+ post)
       [ImportDeclaration loc true specifier] [] [] lineStart lineEnd)
  = Some {| outCode := pre +:+ "import" +:+ ws +:+ rest +:+ post;
            outTypeReferences := [];
            outFileReferences := [] |}.
Proof.
  intros Hws Hblanks Hrest Hword Hstart Hend.
  set (text := pre +:+ "import" +:+ ws +:+ "type" +:+ blanks +:+ rest +:+ post).
  unfold preProcess.
  cbn [statements fullText typeReferenceDirectives referencedFiles fold_left
       preProcessStatement].
  fold text. cbn [MagicString.original MagicString.new].
  rewrite Hstart, Hend.
  assert (Hlen : String.length text
                 = String.length
                     (pre +:+ "import" +:+ ws +:+ "type" +:+ blanks +:+ rest)
                   + String.length post).
  { unfold text. rewrite <- length_append. by rewrite !append_assoc. }
  assert (Hparts : String.length
                     (pre +:+ "import" +:+ ws +:+ "type" +:+ blanks +:+ rest)
                   = String.length pre + 6 + String.length ws + 4
                     + String.length blanks + String.length rest).
  { rewrite !length_append. simpl. lia. }
  change (MagicString.chunks
            {| MagicString.original := text;
               MagicString.chunks :=
                 [MagicString.mkChunk 0 (String.length text) text false] |})
    with (MagicString.chunks (MagicString.new text)).
  rewrite !slice_new by lia. unfold importKeywordLength, typeKeywordLength.
  set (head := pre +:+ "import").
  assert (Hhead : String.length head = String.length pre + 6).
  { unfold head. by rewrite length_append. }
  assert (Hstatement :
    slice (String.length pre + 6)
      (String.length (pre +:+ "import" +:+ ws +:+ "type" +:+ blanks +:+ rest)) text
    = ws +:+ "type" +:+ blanks +:+ rest).
  { rewrite <- Hhead.
    replace (pre +:+ "import" +:+ ws +:+ "type" +:+ blanks +:+ rest)
      with (head +:+ (ws +:+ "type" +:+ blanks +:+ rest))
      by (unfold head; by rewrite !append_assoc).
    rewrite length_append.
    replace text with (head +:+ (ws +:+ "type" +:+ blanks +:+ rest) +:+ post)
      by (unfold text, head; by rewrite !append_assoc).
    apply slice_middle. }
  rewrite Hstatement. unfold typeMatcher.
  rewrite (typeMatcherFrom_after_white_space ws 0 (blanks +:+ rest)); [|done|].
  2:{ destruct blanks as [|b blanks].
      - specialize (Hword eq_refl). by destruct rest.
      - simpl in Hblanks. apply andb_true_iff in Hblanks as [Hb _].
        rewrite append_cons. by rewrite isBlank_not_word. }
  cbn [Nat.add].
  set (before := head +:+ ws).
  assert (Hbefore : String.length before = String.length pre + 6 + String.length ws).
  { unfold before. by rewrite length_append, Hhead. }
  set (keyword := before +:+ "type").
  assert (Hkeyword : String.length keyword
                     = String.length pre + 6 + String.length ws + 4).
  { unfold keyword. by rewrite length_append, Hbefore. }
  unfold getTrailingWhitespaceLength.
  assert (Hafter :
    slice (String.length pre + 6 + String.length ws + 4)
      (String.length (pre +:+ "import" +:+ ws +:+ "type" +:+ blanks +:+ rest)) text
    = blanks +:+ rest).
  { rewrite <- Hkeyword.
    replace (pre +:+ "import" +:+ ws +:+ "type" +:+ blanks +:+ rest)
      with (keyword +:+ (blanks +:+ rest))
      by (unfold keyword, before, head; by rewrite !append_assoc).
    rewrite length_append.
    replace text with (keyword +:+ (blanks +:+ rest) +:+ post)
      by (unfold text, keyword, before, head; by rewrite !append_assoc).
    apply slice_middle. }
  rewrite Hafter, spanLength_blanks by done.
  destruct (remove_new text (String.length pre + 6 + String.length ws)
              (String.length pre + 6 + String.length ws + 4
               + String.length blanks))
    as (m & Hremove & Htext); [lia|lia|].
  change {| MagicString.original := text;
            MagicString.chunks :=
              [MagicString.mkChunk 0 (String.length text) text false] |}
    with (MagicString.new text).
  rewrite Hremove.
  cbn [parseReferenceDirectives fold_left]. f_equal.
  rewrite Htext. f_equal.
  rewrite <- Hbefore.
  replace text with (before +:+ ("type" +:+ blanks +:+ rest +:+ post))
    by (unfold text, before, head; by rewrite !append_assoc).
  rewrite sliceTo_app_length.
  replace (String.length before + 4 + String.length blanks)
    with (String.length (before +:+ "type" +:+ blanks))
    by (rewrite !length_append; simpl; lia).
  replace (before +:+ "type" +:+ blanks +:+ rest +:+ post)
    with ((before +:+ "type" +:+ blanks) +:+ (rest +:+ post))
    by (by rewrite !append_assoc).
  rewrite sliceFrom_app_length. unfold before, head. by rewrite !append_assoc.
Qed.

(** [import type { User } from './types';] becomes
    [import { User } from './types';]. *)
Lemma type_only_import_becomes_plain_witness :
  preProcess importTypeUser
  = Some {| outCode := "import { User } from './types';";
            outTypeReferences := [];
            outFileReferences := [] |}.
Proof.
  exact (type_only_import_becomes_plain "" " " " " "{ User } from './types';" ""
           (mkLoc 0 0 36) (StringLiteral (mkLoc 25 26 35) "./types")
           (fun _ => 0) (fun _ => 36)
           eq_refl eq_refl eq_refl (fun _ => eq_refl) eq_refl eq_refl).
Defined.

End TypeOnlyImportFacts.
